(** * Loom transcript scraper: a shallow embedding and its properties

    The development follows the Python sources

      - [src/extractor/utils.py]        (identifier extraction, whitespace
                                         normalisation),
      - [src/extractor/loom_client.py]  (the multi-strategy discovery engine and
                                         the payload interpreter).

    Python strings are lists of characters; a character is a code point in
    the range 0..255, and the tables of the Python library ([str.isspace],
    [str.lower], the [\w] class of [re]) are written out for that range.
    Library code the sources call is either modelled by a small executable
    definition (the string methods, the fragment of [re] in use, the retry
    loop of [tenacity]) or is a field of the class [Platform] (the JSON
    parser, the HTML parser and the HTTP transport).

    Part I holds the definitions: the embedding of the sources, then the
    same behaviour worded as the specification words it, then a mocked
    platform.  Part II holds the properties. *)

From Stdlib Require Import ZArith DecimalString Ascii String Bool Arith Lia List.
Import ListNotations.

Set Implicit Arguments.

(* ================================================================== *)
(** * Part I: definitions *)
(* ================================================================== *)

(** ** Python strings *)

Module PyStr.

Abbreviation pystr := (list ascii).

Definition py (s : string) : pystr := list_ascii_of_string s.
Arguments py s%_string.

Definition code (c : ascii) : nat := nat_of_ascii c.

Definition LF : ascii := "010"%char.
Definition CR : ascii := "013"%char.
Definition DQUOTE : ascii := "034"%char.
Definition SQUOTE : ascii := "039"%char.
Definition BACKSLASH : ascii := "092"%char.

Definition between (lo hi n : nat) : bool := (lo <=? n) && (n <=? hi).

(** [str.isspace] on one character. *)
Definition is_space (c : ascii) : bool :=
  let n := code c in
  between 9 13 n || between 28 32 n || (n =? 133) || (n =? 160).

(** The class [\w] of [re] on text patterns. *)
Definition is_word (c : ascii) : bool :=
  let n := code c in
  between 48 57 n || between 65 90 n || (n =? 95) || between 97 122 n
  || (n =? 170) || between 178 179 n || (n =? 181) || between 185 186 n
  || between 188 190 n || between 192 214 n || between 216 246 n
  || between 248 255 n.

(** [str.lower] and [str.upper] on one character. *)
Definition lower (c : ascii) : ascii :=
  let n := code c in
  if between 65 90 n || between 192 214 n || between 216 222 n
  then ascii_of_nat (n + 32) else c.

Definition upper (c : ascii) : ascii :=
  let n := code c in
  if between 97 122 n || between 224 246 n || between 248 254 n
  then ascii_of_nat (n - 32) else c.

Definition str_lower (s : pystr) : pystr := map lower s.

Fixpoint lstrip (s : pystr) : pystr :=
  match s with
  | c :: s' => if is_space c then lstrip s' else s
  | [] => []
  end.

Definition rstrip (s : pystr) : pystr := rev (lstrip (rev s)).

(** [s.strip()] *)
Definition str_strip (s : pystr) : pystr := rstrip (lstrip s).

Fixpoint starts_with (p s : pystr) : bool :=
  match p, s with
  | [], _ => true
  | c :: p', x :: s' => Ascii.eqb c x && starts_with p' s'
  | _ :: _, [] => false
  end.

(** [needle in s] *)
Fixpoint str_contains (needle s : pystr) : bool :=
  starts_with needle s ||
  match s with
  | [] => false
  | _ :: s' => str_contains needle s'
  end.

(** [s.replace(old, new)]: the occurrences of [old] are found from left to
    right and do not overlap.  [skip] counts the characters of an occurrence
    that are still to be dropped. *)
Fixpoint replace_from (old new s : pystr) (skip : nat) : pystr :=
  match s with
  | [] => []
  | x :: s' =>
      match skip with
      | S k => replace_from old new s' k
      | O => if starts_with old s
             then new ++ replace_from old new s' (length old - 1)
             else x :: replace_from old new s' 0
      end
  end.

Definition str_replace (old new s : pystr) : pystr :=
  match old with
  | [] => new ++ flat_map (fun x => x :: new) s
  | _ :: _ => replace_from old new s 0
  end.

(** [s.split(sep)] for a non-empty separator: the result is never empty, its
    head is the piece in progress. *)
Fixpoint split_from (sep s : pystr) (skip : nat) : list pystr :=
  match s with
  | [] => [[]]
  | x :: s' =>
      match skip with
      | S k => split_from sep s' k
      | O => if starts_with sep s
             then [] :: split_from sep s' (length sep - 1)
             else match split_from sep s' 0 with
                  | piece :: rest => (x :: piece) :: rest
                  | [] => [[x]]
                  end
      end
  end.

Definition str_split (sep s : pystr) : list pystr := split_from sep s 0.

(** [sep.join(pieces)] *)
Fixpoint str_join (sep : pystr) (pieces : list pystr) : pystr :=
  match pieces with
  | [] => []
  | [p] => p
  | p :: rest => p ++ sep ++ str_join sep rest
  end.

End PyStr.
Import PyStr.

(** ** Regular expressions: the fragment of [re] the sources use *)

Module Re.

Inductive regex : Type :=
| Lit (s : pystr)                          (* literal text *)
| Cls (ranges : list (ascii * ascii))      (* [lo-hi...] *)
| Seq (r1 r2 : regex)
| Alt (r1 r2 : regex)                      (* r1|r2 *)
| Opt (r : regex)                          (* r?, greedy *)
| Rep (n : nat) (r : regex)                (* r{n} *)
| Many (ranges : list (ascii * ascii))     (* [lo-hi...]*, greedy *)
| Grp (r : regex)                          (* (r), capturing *)
| WordB                                    (* \b *)
| NotAfter (c : ascii).                    (* (?<!c) *)

(** [x{n,}] for a character class [x]. *)
Definition AtLeast (n : nat) (ranges : list (ascii * ascii)) : regex :=
  Seq (Rep n (Cls ranges)) (Many ranges).

Fixpoint seq_of (rs : list regex) : regex :=
  match rs with
  | [] => Lit []
  | [r] => r
  | r :: rs' => Seq r (seq_of rs')
  end.

(** A compiled pattern: the expression and the [re.IGNORECASE] flag. *)
Record pattern : Type := Pattern { re_ast : regex; re_ignorecase : bool }.

Definition in_ranges (ranges : list (ascii * ascii)) (x : ascii) : bool :=
  existsb (fun r => between (code (fst r)) (code (snd r)) (code x)) ranges.

(** [\b]: exactly one of the two neighbours is a word character. *)
Definition word_boundary (prev : option ascii) (s : pystr) : bool :=
  xorb (match prev with Some c => is_word c | None => false end)
       (match s with c :: _ => is_word c | [] => false end).

Section Matcher.

Variable ic : bool.
Variable R : Type.

Definition chr_eq (c x : ascii) : bool :=
  if ic then Ascii.eqb (lower c) (lower x) else Ascii.eqb c x.

Definition in_class (ranges : list (ascii * ascii)) (x : ascii) : bool :=
  if ic
  then in_ranges ranges x || in_ranges ranges (lower x) || in_ranges ranges (upper x)
  else in_ranges ranges x.

Fixpoint lit_match (l : pystr) (prev : option ascii) (s : pystr)
  : option (option ascii * pystr) :=
  match l with
  | [] => Some (prev, s)
  | c :: l' =>
      match s with
      | x :: s' => if chr_eq c x then lit_match l' (Some x) s' else None
      | [] => None
      end
  end.

(** The state of a match: the character before the position, the text from
    the position on, and the groups closed so far. *)
Definition cont : Type := option ascii -> pystr -> list pystr -> option R.

Definition or_else (a : option R) (b : option R) : option R :=
  match a with Some v => Some v | None => b end.

(** Backtracking matcher in continuation-passing style: alternatives are
    tried in the order of [re] (left branch first, greedy repetition). *)
Fixpoint run (r : regex) (k : cont) (prev : option ascii) (s : pystr)
  (g : list pystr) {struct r} : option R :=
  match r with
  | Lit l =>
      match lit_match l prev s with
      | Some (p', s') => k p' s' g
      | None => None
      end
  | Cls rs =>
      match s with
      | x :: s' => if in_class rs x then k (Some x) s' g else None
      | [] => None
      end
  | Seq r1 r2 => run r1 (run r2 k) prev s g
  | Alt r1 r2 => or_else (run r1 k prev s g) (run r2 k prev s g)
  | Opt r1 => or_else (run r1 k prev s g) (k prev s g)
  | Rep n r1 =>
      (fix rep (n : nat) (k : cont) {struct n} : cont :=
         match n with
         | O => k
         | S n' => run r1 (rep n' k)
         end) n k prev s g
  | Many rs =>
      (fix many (prev : option ascii) (s : pystr) {struct s} : option R :=
         match s with
         | x :: s' =>
             if in_class rs x
             then or_else (many (Some x) s') (k prev s g)
             else k prev s g
         | [] => k prev s g
         end) prev s
  | Grp r1 =>
      run r1 (fun p' s' g' => k p' s' (g' ++ [firstn (length s - length s') s]))
          prev s g
  | WordB => if word_boundary prev s then k prev s g else None
  | NotAfter c =>
      match prev with
      | Some x => if Ascii.eqb x c then None else k prev s g
      | None => k prev s g
      end
  end.

End Matcher.

(** A match object: where the match starts, the matched text (group 0) and
    the capturing groups. *)
Record re_match : Type :=
  ReMatch { m_start : nat; m_text : pystr; m_groups : list pystr }.

(** [m.group(i)] for [i >= 1]. *)
Definition group (i : nat) (mt : re_match) : pystr := nth (i - 1) (m_groups mt) [].

(** A match at the current position: the text after the match and the
    groups. *)
Definition match_here (p : pattern) (prev : option ascii) (s : pystr)
  : option (pystr * list pystr) :=
  run (re_ignorecase p) (re_ast p) (fun _ s' g => Some (s', g)) prev s [].

Fixpoint search_from (p : pattern) (prev : option ascii) (s : pystr) (i : nat)
  : option re_match :=
  match match_here p prev s with
  | Some (s', g) => Some (ReMatch i (firstn (length s - length s') s) g)
  | None =>
      match s with
      | [] => None
      | x :: s' => search_from p (Some x) s' (S i)
      end
  end.

(** [p.search(s)]: the leftmost match. *)
Definition re_search (p : pattern) (s : pystr) : option re_match :=
  search_from p None s 0.

(** [p.sub(repl, s)] for a literal replacement; [skip] counts the characters
    of the last match that are still to be dropped.  The patterns of this
    program never match the empty string; an empty match here inserts the
    replacement and moves on by one character. *)
Fixpoint sub_from (p : pattern) (repl : pystr) (prev : option ascii) (s : pystr)
  (skip : nat) {struct s} : pystr :=
  match skip with
  | S k =>
      match s with
      | [] => []
      | x :: s' => sub_from p repl (Some x) s' k
      end
  | O =>
      match match_here p prev s with
      | Some (rest, _) =>
          repl ++
          match s with
          | [] => []
          | x :: s' =>
              match length s - length rest with
              | O => x :: sub_from p repl (Some x) s' 0
              | S n => sub_from p repl (Some x) s' n
              end
          end
      | None =>
          match s with
          | [] => []
          | x :: s' => x :: sub_from p repl (Some x) s' 0
          end
      end
  end.

Definition re_sub (p : pattern) (repl s : pystr) : pystr := sub_from p repl None s 0.

End Re.
Import Re.

(** ** [src/extractor/utils.py] *)

Definition HEX : list (ascii * ascii) := [("a"%char, "f"%char); ("0"%char, "9"%char)].

(** [re.compile(r"\b([a-f0-9]{32})\b", re.IGNORECASE)] *)
Definition _LOOM_ID_RE : pattern :=
  Pattern (seq_of [WordB; Grp (Rep 32 (Cls HEX)); WordB]) true.

(** [re.compile(r"(?:https?://)?(?:www\.)?loom\.com/(?:share|embed|recording)/([a-f0-9]{32})",
    re.IGNORECASE)] *)
Definition _URL_ID_RE : pattern :=
  Pattern
    (seq_of [ Opt (seq_of [Lit (py "http"); Opt (Lit (py "s")); Lit (py "://")]);
              Opt (Lit (py "www."));
              Lit (py "loom.com/");
              Alt (Lit (py "share")) (Alt (Lit (py "embed")) (Lit (py "recording")));
              Lit (py "/");
              Grp (Rep 32 (Cls HEX)) ])
    true.

Definition extract_video_id (item : pystr) : option pystr :=
  match item with
  | [] => None
  | _ :: _ =>
      match re_search _URL_ID_RE (str_strip item) with
      | Some m => Some (str_lower (group 1 m))
      | None =>
          match re_search _LOOM_ID_RE (str_strip item) with
          | Some m => Some (str_lower (group 1 m))
          | None => None
          end
      end
  end.

(** [r"\n{3,}"] *)
Definition NEWLINES3_RE : pattern := Pattern (AtLeast 3 [(LF, LF)]) false.

Definition normalize_whitespace (text : pystr) : pystr :=
  let text := str_replace [CR] [LF] (str_replace [CR; LF] [LF] text) in
  let text := str_join [LF] (map str_strip (str_split [LF] text)) in
  let text := re_sub NEWLINES3_RE [LF; LF] text in
  str_strip text.


(** ** JSON values as [json.loads] returns them *)

Module Json.

(** A [dict] keeps its keys in insertion order and [json.loads] leaves no
    duplicate key: an association list.  A float carries the text [str]
    prints for it; [bool] is a subclass of [int]. *)
#[local] Unset Elimination Schemes.
Inductive json : Type :=
| JNull
| JBool (b : bool)
| JInt (z : Z)
| JFloat (repr : pystr)
| JStr (s : pystr)
| JList (items : list json)
| JDict (kvs : list (pystr * json)).
#[local] Set Elimination Schemes.

Fixpoint str_eqb (a b : pystr) : bool :=
  match a, b with
  | [], [] => true
  | x :: a', y :: b' => Ascii.eqb x y && str_eqb a' b'
  | _, _ => false
  end.

(** [node[key]] when [key in node]. *)
Fixpoint dict_get (key : pystr) (kvs : list (pystr * json)) : option json :=
  match kvs with
  | [] => None
  | (k, v) :: rest => if str_eqb key k then Some v else dict_get key rest
  end.

(** [node.get(key)]: [None] when the key is missing. *)
Definition dict_get_default (key : pystr) (kvs : list (pystr * json)) : json :=
  match dict_get key kvs with Some v => v | None => JNull end.

Definition dict_values (kvs : list (pystr * json)) : list json := map snd kvs.

(** Truth value of a Python object. *)
Definition truthy (j : json) : bool :=
  match j with
  | JNull => false
  | JBool b => b
  | JInt z => negb (Z.eqb z 0)
  | JFloat r => negb (str_eqb r (py "0.0") || str_eqb r (py "-0.0"))
  | JStr s => match s with [] => false | _ :: _ => true end
  | JList l => match l with [] => false | _ :: _ => true end
  | JDict kvs => match kvs with [] => false | _ :: _ => true end
  end.

(** [a or b] *)
Definition py_or (a b : json) : json := if truthy a then a else b.

Definition str_of_Z (z : Z) : pystr := py (NilZero.string_of_int (Z.to_int z)).
Definition str_of_nat (n : nat) : pystr := str_of_Z (Z.of_nat n).

(** [isinstance(j, (dict, list))] *)
Definition is_container (j : json) : bool :=
  match j with JList _ | JDict _ => true | _ => false end.

(** [isinstance(j, (str, int, float))] *)
Definition is_scalar (j : json) : bool :=
  match j with JStr _ | JInt _ | JFloat _ | JBool _ => true | _ => false end.

(** [str(j)]; the text of a container is the one [repr] gives. *)
Definition py_str (repr : json -> pystr) (j : json) : pystr :=
  match j with
  | JNull => py "None"
  | JBool true => py "True"
  | JBool false => py "False"
  | JInt z => str_of_Z z
  | JFloat r => r
  | JStr s => s
  | JList _ | JDict _ => repr j
  end.

(** [str(j)] for a scalar. *)
Definition scalar_str (j : json) : pystr := py_str (fun _ => []) j.

End Json.
Import Json.

(** ** Exceptions, and computations over the HTTP transport *)

Inductive request_exception : Type :=
| TransportFailure                 (* connection error, timeout, ... *)
| HTTPError (status : nat).        (* raised by [raise_for_status] *)

Inductive exn : Type :=
| RequestException (e : request_exception)
| LoomError (msg : pystr)
| ValueError
| AttributeError
| TypeError.

Inductive outcome (A : Type) : Type :=
| Ok (a : A)
| Raise (e : exn).
Arguments Ok {A} a.
Arguments Raise {A} e.

Record response : Type := Response { status_code : nat; text : pystr }.

Inductive event : Type :=
| Get (url : pystr)          (* a request went out *)
| Sleep (attempt : nat).     (* the wait after a failed attempt *)

Module Comp.

Section WithWorld.

Variable W : Type.

(** A computation threads the state of the outside world, and returns what
    it did there. *)
Definition M (A : Type) : Type := W -> outcome A * W * list event.

Definition ret {A} (a : A) : M A := fun w => (Ok a, w, []).

Definition raise {A} (e : exn) : M A := fun w => (Raise e, w, []).

Definition bind {A B} (m : M A) (f : A -> M B) : M B :=
  fun w =>
    match m w with
    | (Ok a, w1, t1) =>
        match f a w1 with
        | (r, w2, t2) => (r, w2, t1 ++ t2)
        end
    | (Raise e, w1, t1) => (Raise e, w1, t1)
    end.

(** [try: m  except <handles>: h] *)
Definition catch {A} (m : M A) (handles : exn -> bool) (h : exn -> M A) : M A :=
  fun w =>
    match m w with
    | (Ok a, w1, t1) => (Ok a, w1, t1)
    | (Raise e, w1, t1) =>
        if handles e
        then match h e w1 with
             | (r, w2, t2) => (r, w2, t1 ++ t2)
             end
        else (Raise e, w1, t1)
    end.

Definition lift {A} (o : outcome A) : M A := fun w => (o, w, []).

Definition emit (ev : event) : M unit := fun w => (Ok tt, w, [ev]).

End WithWorld.

End Comp.
Import Comp.

Declare Scope comp_scope.
Delimit Scope comp_scope with comp.
Notation "x <- m ;; k" := (bind m (fun x => k))
  (at level 61, m at next level, right associativity) : comp_scope.
Notation "m ;;; k" := (bind m (fun _ => k))
  (at level 61, right associativity) : comp_scope.

(** ** [src/extractor/loom_client.py] *)

Module LoomClient.

Local Open Scope comp_scope.

(** The libraries and the outside world the client runs against:
    [session.get(url)] answers or raises and the world moves on;
    [json.loads] ([None] when it raises); [repr] of a container; and, of a
    parsed page, the contents [script.string or script.text or ""] of its
    [<script>] elements and its text nodes, each in document order. *)
Class Platform : Type := {
  World : Type;
  http_get : pystr -> World -> (response + request_exception) * World;
  json_loads : pystr -> option json;
  py_repr : json -> pystr;
  bs_scripts : pystr -> list pystr;
  bs_strings : pystr -> list pystr
}.

(** *** The payload interpreter: parsed API responses *)

(** ["\n".join(fragments)]: a fragment that is not a [str] is a [TypeError]. *)
Fixpoint as_strings (fragments : list json) : option (list pystr) :=
  match fragments with
  | [] => Some []
  | JStr s :: rest =>
      match as_strings rest with
      | Some l => Some (s :: l)
      | None => None
      end
  | _ :: _ => None
  end.

Definition join_fragments (fragments : list json) : outcome pystr :=
  match as_strings fragments with
  | Some l => Ok (str_join [LF] l)
  | None => Raise TypeError
  end.

(** [c.get("text") or c.get("caption") or ""]; only a [dict] has [get]. *)
Definition caption_text (c : json) : outcome json :=
  match c with
  | JDict kvs =>
      Ok (py_or (dict_get_default (py "text") kvs)
                (py_or (dict_get_default (py "caption") kvs) (JStr [])))
  | _ => Raise AttributeError
  end.

(** The loop [for c in ...: txt = ...; if txt: fragments.append(txt)], with
    [text_of] computing [txt]. *)
Fixpoint collect_fragments (text_of : json -> outcome json) (items : list json)
  (fragments : list json) : outcome (list json) :=
  match items with
  | [] => Ok fragments
  | c :: rest =>
      match text_of c with
      | Ok txt =>
          collect_fragments text_of rest
            (if truthy txt then fragments ++ [txt] else fragments)
      | Raise e => Raise e
      end
  end.

(** ["\n".join(fragments).strip() if fragments else None] *)
Definition joined_or_none (fragments : list json) : outcome (option pystr) :=
  match fragments with
  | [] => Ok None
  | _ :: _ =>
      match join_fragments fragments with
      | Ok s => Ok (Some (str_strip s))
      | Raise e => Raise e
      end
  end.

Definition fragments_result (r : outcome (list json)) : outcome (option pystr) :=
  match r with
  | Ok fragments => joined_or_none fragments
  | Raise e => Raise e
  end.

Section Interpreter.

Context {P : Platform}.

(** Lines 87-119 of [_try_fetch_json_transcript]: the shape heuristics on
    the parsed body. *)
Definition interpret_payload (data : json) : outcome (option pystr) :=
  match data with
  | JDict kvs =>
      match dict_get (py "transcript") kvs with
      | Some (JStr t) => Ok (Some t)
      | _ =>
          match dict_get (py "captions") kvs with
          | Some (JList captions) =>
              fragments_result (collect_fragments caption_text captions [])
          | _ =>
              match dict_get (py "data") kvs with
              | Some (JDict inner) =>
                  match dict_get (py "transcript") inner with
                  | Some (JStr t) => Ok (Some t)
                  | _ => Ok None
                  end
              | _ => Ok None
              end
          end
      end
  | JList items =>
      fragments_result
        (collect_fragments
           (fun c => match c with
                     | JDict _ => caption_text c
                     | _ => Ok (JStr (py_str py_repr c))
                     end)
           items [])
  | _ => Ok None
  end.

End Interpreter.

(** *** The payload interpreter: script blobs *)

(** [_extract_json_like_strings]: [i] is the index of the head of [rest] in
    [s], [depth] the height of the stack, [start] the index of the last
    opening brace seen at depth 0. *)
Fixpoint json_like_from (s rest : pystr) (i depth : nat) (start : option nat)
  : list pystr :=
  match rest with
  | [] => []
  | ch :: rest' =>
      if Ascii.eqb ch "{"%char then
        json_like_from s rest' (S i) (S depth)
          (match depth with O => Some i | S _ => start end)
      else if Ascii.eqb ch "}"%char then
        match depth with
        | O => json_like_from s rest' (S i) 0 start
        | S d =>
            match d, start with
            | O, Some st =>
                firstn (S i - st) (skipn st s) :: json_like_from s rest' (S i) d start
            | _, _ => json_like_from s rest' (S i) d start
            end
        end
      else json_like_from s rest' (S i) depth start
  end.

Definition _extract_json_like_strings (s : pystr) : list pystr :=
  json_like_from s s 0 0 None.

Definition PRIORITY_KEYS : list pystr :=
  [py "transcript"; py "captions"; py "subtitles"; py "srt"; py "vtt"; py "text"].

(** [isinstance(item, (str, int, float)) and str(item).strip()] *)
Definition is_text_item (item : json) : bool :=
  is_scalar item &&
  match str_strip (scalar_str item) with [] => false | _ :: _ => true end.

(** The state of the walk: the fragments found and the queue. *)
Definition walk_state : Type := (list pystr * list json)%type.

(** The loop over the items of a list stored under a priority key. *)
Fixpoint visit_key_items (items : list json) (st : walk_state) : walk_state :=
  match items with
  | [] => st
  | item :: rest =>
      let '(fragments, queue) := st in
      visit_key_items rest
        (if is_text_item item
         then (fragments ++ [scalar_str item], queue)
         else (fragments, queue ++ [item]))
  end.

(** The body of [for key in (...)] for one key. *)
Definition visit_key (kvs : list (pystr * json)) (st : walk_state) (key : pystr)
  : walk_state :=
  match dict_get key kvs with
  | None => st
  | Some val =>
      let '(fragments, queue) := st in
      match val with
      | JStr s => if 20 <? length s then (fragments ++ [s], queue) else st
      | JList items => visit_key_items items st
      | JDict _ => (fragments, queue ++ [val])
      | _ => st
      end
  end.

(** [for v in node.values(): if isinstance(v, (dict, list)): queue.append(v)] *)
Definition enqueue_children (vs : list json) (st : walk_state) : walk_state :=
  (fst st, snd st ++ filter is_container vs).

(** The loop over the elements of a list node. *)
Fixpoint visit_list_items (items : list json) (st : walk_state) : walk_state :=
  match items with
  | [] => st
  | v :: rest =>
      let '(fragments, queue) := st in
      visit_list_items rest
        (if is_container v then (fragments, queue ++ [v])
         else if is_text_item v then (fragments ++ [scalar_str v], queue)
         else st)
  end.

(** One turn of the [while] loop, after [node = queue.pop(0)]. *)
Definition visit (node : json) (st : walk_state) : walk_state :=
  match node with
  | JDict kvs =>
      enqueue_children (dict_values kvs) (fold_left (visit_key kvs) PRIORITY_KEYS st)
  | JList items => visit_list_items items st
  | _ => st
  end.

(** [while queue and seen < 20000]: [budget] is [20000 - seen]. *)
Fixpoint walk (budget : nat) (st : walk_state) : list pystr :=
  match budget with
  | O => fst st
  | S budget' =>
      match snd st with
      | [] => fst st
      | node :: queue => walk budget' (visit node (fst st, queue))
      end
  end.

#[warnings="-abstract-large-number"]
Definition MAX_SEEN : nat := 20000.

(** [joined if len(joined) > 40 else None] *)
Definition long_enough (joined : pystr) : option pystr :=
  if 40 <? length joined then Some joined else None.

Definition text_from_data (data : json) : option pystr :=
  long_enough (str_strip (str_join [LF] (walk MAX_SEEN ([], [data])))).

(** [r"(?<!\\)'"] *)
Definition SINGLE_QUOTE_RE : pattern :=
  Pattern (Seq (NotAfter BACKSLASH) (Lit [SQUOTE])) false.

(** [re.compile(r"\btranscript\b", re.IGNORECASE)] *)
Definition TRANSCRIPT_WORD_RE : pattern :=
  Pattern (seq_of [WordB; Lit (py "transcript"); WordB]) true.

Definition nonempty (s : pystr) : bool :=
  match s with [] => false | _ :: _ => true end.

(** [if text:] for an [Optional[str]]. *)
Definition has_text (t : option pystr) : bool :=
  match t with Some s => nonempty s | None => false end.

Fixpoint first_text (f : pystr -> option pystr) (l : list pystr) : option pystr :=
  match l with
  | [] => None
  | x :: rest => if has_text (f x) then f x else first_text f rest
  end.

Section Client.

Context {P : Platform}.

Definition _extract_text_from_json_blob (blob : pystr) : option pystr :=
  match json_loads blob with
  | Some data => text_from_data data
  | None =>
      let coerced := re_sub SINGLE_QUOTE_RE [DQUOTE] blob in
      match json_loads coerced with
      | Some data => text_from_data data
      | None => None
      end
  end.

(** The scripts that are looked into. *)
Definition mentions_transcript (content : pystr) : bool :=
  nonempty content && str_contains (py "transcript") (str_lower content).

Definition script_blobs (html : pystr) : list pystr :=
  flat_map _extract_json_like_strings (filter mentions_transcript (bs_scripts html)).

Definition matching_text_nodes (html : pystr) : list pystr :=
  filter (fun s => match re_search TRANSCRIPT_WORD_RE s with
                   | Some _ => true
                   | None => false
                   end)
         (bs_strings html).

Definition _parse_share_page_for_transcript (html : pystr) : option pystr :=
  match first_text _extract_text_from_json_blob (script_blobs html) with
  | Some txt => Some txt
  | None => find (fun s => 40 <? length s) (matching_text_nodes html)
  end.

(** [self.session.get(url, ...)] *)
Definition session_get (url : pystr) : M World response :=
  fun w =>
    match http_get url w with
    | (inl resp, w') => (Ok resp, w', [Get url])
    | (inr e, w') => (Raise (RequestException e), w', [Get url])
    end.

(** [resp.raise_for_status()] *)
Definition raise_for_status (resp : response) : M World unit :=
  if (400 <=? status_code resp) && (status_code resp <? 600)
  then raise (RequestException (HTTPError (status_code resp)))
  else ret tt.

(** [resp.json()] *)
Definition resp_json (resp : response) : M World json :=
  match json_loads (text resp) with
  | Some data => ret data
  | None => raise ValueError
  end.

Definition is_request_or_value_error (e : exn) : bool :=
  match e with
  | RequestException _ | ValueError => true
  | _ => false
  end.

(** The [try] block of [_try_fetch_json_transcript]: [None] stands for the
    [return None] inside it. *)
Definition fetch_json (url : pystr) : M World (option json) :=
  catch
    (resp <- session_get url ;;
     if status_code resp =? 404 then ret None
     else raise_for_status resp ;;;
          data <- resp_json resp ;;
          ret (Some data))
    is_request_or_value_error
    (fun _ => ret None).

Definition _try_fetch_json_transcript (url : pystr) : M World (option pystr) :=
  r <- fetch_json url ;;
  match r with
  | None => ret None
  | Some data => lift (interpret_payload data)
  end.

Definition _get (url : pystr) : M World pystr :=
  resp <- session_get url ;;
  if (status_code resp =? 401) || (status_code resp =? 403) || (status_code resp =? 404)
  then raise (LoomError (py "Unavailable: " ++ str_of_nat (status_code resp)))
  else raise_for_status resp ;;; ret (text resp).

Definition api_urls (video_id : pystr) : list pystr :=
  [ py "https://www.loom.com/api/v1/captions/" ++ video_id;
    py "https://www.loom.com/api/captions/transcript/" ++ video_id;
    py "https://www.loom.com/api/v1/videos/" ++ video_id ++ py "/transcript" ].

Definition share_url (video_id : pystr) : pystr :=
  py "https://www.loom.com/share/" ++ video_id.

Definition embed_url (video_id : pystr) : pystr :=
  py "https://www.loom.com/embed/" ++ video_id.

Definition NOT_FOUND : exn :=
  LoomError (py "Transcript not found or video is private/unavailable.").

(** [for url in apis: ...]: [Some text] is the [return text] of the loop. *)
Fixpoint try_apis (apis : list pystr) : M World (option pystr) :=
  match apis with
  | [] => ret None
  | url :: rest =>
      text <- _try_fetch_json_transcript url ;;
      if has_text text then ret text else try_apis rest
  end.

(** The body of [fetch_transcript_text]: one pass over the strategies. *)
Definition fetch_transcript_text_once (video_id : pystr) : M World pystr :=
  found <- try_apis (api_urls video_id) ;;
  match found with
  | Some text => ret text
  | None =>
      html <- _get (share_url video_id) ;;
      match _parse_share_page_for_transcript html with
      | Some ((_ :: _) as text) => ret text
      | _ =>
          html <- _get (embed_url video_id) ;;
          match _parse_share_page_for_transcript html with
          | Some ((_ :: _) as text) => ret text
          | _ => raise NOT_FOUND
          end
      end
  end.

(** [retry_if_exception_type((requests.RequestException, LoomError))] *)
Definition is_retried (e : exn) : bool :=
  match e with
  | RequestException _ | LoomError _ => true
  | _ => false
  end.

(** [@retry(reraise=True, stop=stop_after_attempt(n), wait=..., retry=...)]:
    the call is made again while the exception is one of the retried kinds
    and fewer than [n] attempts were made; the last exception is raised
    again.  [left] is [n] less the number of the attempt. *)
Fixpoint retry_call {A} (retry : exn -> bool) (left attempt : nat) (call : M World A)
  : M World A :=
  catch call retry
    (fun e =>
       match left with
       | O => raise e
       | S left' => emit (Sleep attempt) ;;; retry_call retry left' (S attempt) call
       end).

Definition MAX_ATTEMPTS : nat := 3.

Definition fetch_transcript_text (video_id : pystr) : M World pystr :=
  retry_call is_retried (MAX_ATTEMPTS - 1) 1 (fetch_transcript_text_once video_id).

End Client.

End LoomClient.
Import LoomClient.

(** ** The discovery engine as the specification words it *)

Module Chain.

Local Open Scope comp_scope.

Section Chain.

Context {P : Platform}.

(** A strategy is one attempt to obtain the raw text. *)
Definition strategy : Type := M World (option pystr).

(** Iterate the strategies in order until one returns a non-empty text. *)
Fixpoint first_nonempty (strategies : list strategy) : M World (option pystr) :=
  match strategies with
  | [] => ret None
  | s :: rest =>
      r <- s ;;
      if has_text r then ret r else first_nonempty rest
  end.

Definition page_strategy (url : pystr) : strategy :=
  html <- _get url ;; ret (_parse_share_page_for_transcript html).

(** Three guessed endpoints, then the share page, then the embed page. *)
Definition strategies (video_id : pystr) : list strategy :=
  map _try_fetch_json_transcript (api_urls video_id)
  ++ [page_strategy (share_url video_id); page_strategy (embed_url video_id)].

Definition discover (video_id : pystr) : M World pystr :=
  r <- first_nonempty (strategies video_id) ;;
  match r with
  | Some text => ret text
  | None => raise NOT_FOUND
  end.

(** The strategies of [pre] ran one after the other from [w] to [w'], each
    to an empty result, and left the trace [tr]. *)
Inductive all_empty : list strategy -> World -> World -> list event -> Prop :=
| AllEmptyNil w : all_empty [] w w []
| AllEmptyCons s pre w r w1 t1 w' tr :
    s w = (Ok r, w1, t1) ->
    has_text r = false ->
    all_empty pre w1 w' tr ->
    all_empty (s :: pre) w w' (t1 ++ tr).

(** The requests of one pass, in the order in which they can go out. *)
Definition request_order (video_id : pystr) : list event :=
  map Get (api_urls video_id ++ [share_url video_id; embed_url video_id]).

End Chain.

End Chain.
Import Chain.

(** ** The captions heuristic as the specification words it *)

Module Captions.

(** The non-empty string stored under [key], if there is one. *)
Definition string_field (key : pystr) (kvs : list (pystr * json)) : option pystr :=
  match dict_get key kvs with
  | Some (JStr ((_ :: _) as s)) => Some s
  | _ => None
  end.

(** An item's ["text"] or ["caption"] string field; empty ones are skipped. *)
Definition item_text (item : json) : list pystr :=
  match item with
  | JDict kvs =>
      match string_field (py "text") kvs with
      | Some s => [s]
      | None =>
          match string_field (py "caption") kvs with
          | Some s => [s]
          | None => []
          end
      end
  | _ => []
  end.

Definition caption_texts (items : list json) : list pystr := flat_map item_text items.

(** The items the heuristic is written for: maps whose ["text"] and
    ["caption"] fields, where present, are strings. *)
Definition string_or_absent (key : pystr) (kvs : list (pystr * json)) : Prop :=
  dict_get key kvs = None \/ exists s, dict_get key kvs = Some (JStr s).

Definition caption_item (item : json) : Prop :=
  exists kvs, item = JDict kvs
              /\ string_or_absent (py "text") kvs
              /\ string_or_absent (py "caption") kvs.

End Captions.
Import Captions.

(** ** What a match is *)

Module ReSpec.

(** The character before a position that lies [pre] after a position whose
    previous character is [prev]. *)
Definition prev_char (prev : option ascii) (pre : pystr) : option ascii :=
  last (map Some pre) prev.

(** [matches ic r p s g p' s' g']: from the position with previous
    character [p], remaining text [s] and groups [g], the expression [r] can
    match up to the position [p'], [s'], leaving the groups [g']. *)
Fixpoint matches (ic : bool) (r : regex) (p : option ascii) (s : pystr)
  (g : list pystr) (p' : option ascii) (s' : pystr) (g' : list pystr) {struct r}
  : Prop :=
  match r with
  | Lit l => lit_match ic l p s = Some (p', s') /\ g' = g
  | Cls rs =>
      exists x, s = x :: s' /\ in_class ic rs x = true /\ p' = Some x /\ g' = g
  | Seq r1 r2 =>
      exists p1 s1 g1, matches ic r1 p s g p1 s1 g1 /\ matches ic r2 p1 s1 g1 p' s' g'
  | Alt r1 r2 => matches ic r1 p s g p' s' g' \/ matches ic r2 p s g p' s' g'
  | Opt r1 => matches ic r1 p s g p' s' g' \/ (p' = p /\ s' = s /\ g' = g)
  | Rep n r1 =>
      (fix rep (n : nat) (p : option ascii) (s : pystr) (g : list pystr) : Prop :=
         match n with
         | O => p' = p /\ s' = s /\ g' = g
         | S n' =>
             exists p1 s1 g1, matches ic r1 p s g p1 s1 g1 /\ rep n' p1 s1 g1
         end) n p s g
  | Many rs =>
      exists run, s = run ++ s'
                  /\ forallb (in_class ic rs) run = true
                  /\ p' = prev_char p run /\ g' = g
  | Grp r1 =>
      exists g1, matches ic r1 p s g p' s' g1
                 /\ g' = g1 ++ [firstn (length s - length s') s]
  | WordB => word_boundary p s = true /\ p' = p /\ s' = s /\ g' = g
  | NotAfter c => p <> Some c /\ p' = p /\ s' = s /\ g' = g
  end.

(** No capturing group occurs in the expression. *)
Fixpoint group_free (r : regex) : bool :=
  match r with
  | Grp _ => false
  | Seq r1 r2 | Alt r1 r2 => group_free r1 && group_free r2
  | Opt r1 | Rep _ r1 => group_free r1
  | Lit _ | Cls _ | Many _ | WordB | NotAfter _ => true
  end.

End ReSpec.
Import ReSpec.

(** ** The identifier extractor as the specification words it *)

Module Ident.

(** A hexadecimal digit, in either case. *)
Definition is_hex (c : ascii) : bool :=
  let n := code c in
  between 48 57 n || between 97 102 n || between 65 70 n.

(** A 32-hex-character token. *)
Definition hex_token (tok : pystr) : Prop :=
  length tok = 32 /\ forallb is_hex tok = true.

(** [tok] stands in [s] in the position the URL pattern recognizes: after
    [loom.com/], one of the three path segments and a slash, in any case. *)
Definition url_token (s tok : pystr) : Prop :=
  exists pre dom seg post,
    s = pre ++ dom ++ seg ++ "/"%char :: tok ++ post
    /\ str_lower dom = py "loom.com/"
    /\ In (str_lower seg) [py "share"; py "embed"; py "recording"]
    /\ hex_token tok.

Definition ends_with_word (pre : pystr) : bool :=
  match last (map Some pre) None with Some c => is_word c | None => false end.

Definition starts_with_word (post : pystr) : bool :=
  match post with c :: _ => is_word c | [] => false end.

(** [tok] stands alone in [s]: no word character touches it. *)
Definition standalone_token (s tok : pystr) : Prop :=
  exists pre post,
    s = pre ++ tok ++ post
    /\ hex_token tok
    /\ ends_with_word pre = false
    /\ starts_with_word post = false.

Definition not_space (c : ascii) : bool := negb (is_space c).

(** A lower-case hexadecimal digit. *)
Definition is_lower_hex (c : ascii) : bool :=
  let n := code c in
  between 48 57 n || between 97 102 n.

(** Two parts of the URL pattern: [(?:https?://)?] and
    [(?:share|embed|recording)]. *)
Definition URL_SCHEME : regex :=
  Opt (seq_of [Lit (py "http"); Opt (Lit (py "s")); Lit (py "://")]).

Definition URL_SEGMENT : regex :=
  Alt (Lit (py "share")) (Alt (Lit (py "embed")) (Lit (py "recording"))).

End Ident.
Import Ident.

(** ** The normalizer as the specification words it *)

Module Normal.

(** Step 1: CRLF and a lone CR become one LF.  A CR is written as LF at
    once; [after_cr] says that the LF of a CRLF is still to be dropped. *)
Fixpoint convert_line_endings (after_cr : bool) (s : pystr) : pystr :=
  match s with
  | [] => []
  | c :: s' =>
      if Ascii.eqb c CR then LF :: convert_line_endings true s'
      else if Ascii.eqb c LF then
             if after_cr then convert_line_endings false s'
             else LF :: convert_line_endings false s'
      else c :: convert_line_endings false s'
  end.

(** The lines of a text: the pieces between its LFs. *)
Fixpoint lines (s : pystr) : list pystr :=
  match s with
  | [] => [[]]
  | c :: s' =>
      if Ascii.eqb c LF then [] :: lines s'
      else match lines s' with
           | l :: rest => (c :: l) :: rest
           | [] => [[c]]
           end
  end.

(** Step 2: every line is stripped on its own. *)
Definition strip_each_line (s : pystr) : pystr :=
  str_join [LF] (map str_strip (lines s)).

(** Step 3: of a run of LFs at most two are kept.  [seen] counts the LFs of
    the run read so far. *)
Fixpoint collapse_newlines (seen : nat) (s : pystr) : pystr :=
  match s with
  | [] => []
  | c :: s' =>
      if Ascii.eqb c LF
      then if seen <? 2 then c :: collapse_newlines (S seen) s'
           else collapse_newlines (S seen) s'
      else c :: collapse_newlines 0 s'
  end.

(** Steps 1 to 4. *)
Definition normalize (raw : pystr) : pystr :=
  str_strip (collapse_newlines 0 (strip_each_line (convert_line_endings false raw))).

(** The length of the run of LFs at the head of a text. *)
Fixpoint newline_run (s : pystr) : nat :=
  match s with
  | c :: s' => if Ascii.eqb c LF then S (newline_run s') else 0
  | [] => 0
  end.

(** A text that no outer whitespace can be taken from. *)
Definition stripped (l : pystr) : Prop := str_strip l = l.

(** What the normalizer leaves: no CR, every line stripped, no run of three
    LFs, and the whole stripped. *)
Definition normal_form (s : pystr) : Prop :=
  ~ In CR s
  /\ Forall stripped (lines s)
  /\ collapse_newlines 0 s = s
  /\ stripped s.

(** The lines of a text whose first line continues the text [pre]. *)
Definition continue_line (pre : pystr) (ls : list pystr) : list pystr :=
  match ls with
  | l :: rest => (pre ++ l) :: rest
  | [] => [pre]
  end.

Definition is_nil (l : pystr) : bool :=
  match l with [] => true | _ :: _ => false end.

(** Empty lines dropped at the head, and at the end, of a list of lines;
    one line always stays. *)
Fixpoint drop_leading_empty (ls : list pystr) : list pystr :=
  match ls with
  | [] :: ((_ :: _) as rest) => drop_leading_empty rest
  | _ => ls
  end.

Fixpoint drop_trailing_empty (ls : list pystr) : list pystr :=
  match ls with
  | [] => []
  | l :: rest => if forallb is_nil rest then [l] else l :: drop_trailing_empty rest
  end.

End Normal.
Import Normal.

(** ** A mocked platform, to run the client on concrete exchanges *)

Module Mock.

(** The world counts the requests made so far; [table n url] is what the
    [n]-th request gets when it asks for [url]. *)
Definition platform
  (table : nat -> pystr -> response + request_exception)
  (loads : pystr -> option json)
  (scripts : pystr -> list pystr) : Platform :=
  {| World := nat;
     http_get := fun url n => (table n url, S n);
     json_loads := loads;
     py_repr := fun _ => [];
     bs_scripts := scripts;
     bs_strings := fun _ => [] |}.

Definition VIDEO : pystr := py "abcdef0123456789abcdef0123456789".

Definition API1 : pystr := py "https://www.loom.com/api/v1/captions/" ++ VIDEO.
Definition API2 : pystr := py "https://www.loom.com/api/captions/transcript/" ++ VIDEO.
Definition API3 : pystr := py "https://www.loom.com/api/v1/videos/" ++ VIDEO ++ py "/transcript".
Definition SHARE : pystr := py "https://www.loom.com/share/" ++ VIDEO.
Definition EMBED : pystr := py "https://www.loom.com/embed/" ++ VIDEO.

(** A parser that knows the bodies of [known] and rejects the rest. *)
Fixpoint loads_of (known : list (pystr * json)) (body : pystr) : option json :=
  match known with
  | [] => None
  | (b, j) :: rest => if str_eqb body b then Some j else loads_of rest body
  end.

Definition page (status : nat) (body : pystr) : response + request_exception :=
  inl (Response status body).

(** Every address answers [404]. *)
Definition all_404 : Platform :=
  platform (fun _ _ => page 404 []) (loads_of []) (fun _ => []).

(** The first endpoint has the transcript; so has the share page. *)
Definition api_and_share : Platform :=
  platform
    (fun _ url =>
       if str_eqb url API1 then page 200 (py "api")
       else if str_eqb url SHARE then page 200 (py "<html>")
       else page 404 [])
    (loads_of
       [(py "api", JDict [(py "transcript", JStr (py "from the api"))]);
        (py "{}", JDict [(py "transcript",
           JStr (py "from the share page, a text that is long enough to count"))])])
    (fun html => if str_eqb html (py "<html>") then [py "transcript {}"] else []).

(** The first endpoint answers [500], the second has the transcript. *)
Definition first_api_500 : Platform :=
  platform
    (fun _ url =>
       if str_eqb url API1 then page 500 []
       else if str_eqb url API2 then page 200 (py "api")
       else page 404 [])
    (loads_of [(py "api", JDict [(py "transcript", JStr (py "hello"))])])
    (fun _ => []).

(** The share page answers [403]; the embed page would have the text. *)
Definition share_403 : Platform :=
  platform
    (fun _ url =>
       if str_eqb url SHARE then page 403 []
       else if str_eqb url EMBED then page 200 (py "<html>")
       else page 404 [])
    (loads_of
       [(py "{}", JDict [(py "transcript",
           JStr (py "from the embed page, a text that is long enough to count"))])])
    (fun html => if str_eqb html (py "<html>") then [py "transcript {}"] else []).

(** The first four requests find nothing; from the fifth on the first
    endpoint has the transcript. *)
Definition late_api : Platform :=
  platform
    (fun n url =>
       if (4 <=? n) && str_eqb url API1 then page 200 (py "api") else page 404 [])
    (loads_of [(py "api", JDict [(py "transcript", JStr (py "hello"))])])
    (fun _ => []).

(** The first endpoint answers with captions that are not maps. *)
Definition odd_captions : Platform :=
  platform
    (fun _ url => if str_eqb url API1 then page 200 (py "api") else page 404 [])
    (loads_of [(py "api", JDict [(py "captions", JList [JInt 1])])])
    (fun _ => []).

(** Payloads. *)
Definition LONG_TEXT : pystr :=
  py "this is a sufficiently long transcript body exceeding forty chars".

Definition hello_world : json :=
  JDict [(py "captions",
          JList [JDict [(py "text", JStr (py "hello"))];
                 JDict [(py "caption", JStr (py "world"))]])].

Definition padded_caption : json :=
  JDict [(py "captions", JList [JDict [(py "text", JStr (py " hello "))]])].

Definition transcript_and_captions : json :=
  JDict [(py "transcript", JStr (py "t"));
         (py "captions", JList [JDict [(py "text", JStr (py "hello"))]])].

Definition nested_transcript : json :=
  JDict [(py "foo", JDict [(py "transcript", JStr LONG_TEXT)])].

Definition short_value : json := JDict [(py "x", JStr (py "short"))].

Definition long_caption : json := JDict [(py "text", JStr LONG_TEXT)].

Definition captions_with_long_text : json :=
  JDict [(py "captions", JList [long_caption])].

(** A parser that knows two blobs. *)
Definition two_blobs : Platform :=
  platform (fun _ _ => page 404 [])
           (loads_of [(py "nested", nested_transcript); (py "short", short_value)])
           (fun _ => []).

(** The network is down. *)
Definition offline : Platform :=
  platform (fun _ _ => inr TransportFailure) (loads_of []) (fun _ => []).

End Mock.

(** ** More of the normalizer's behaviour, in words *)

Module NormalMore.

(** Three LFs in a row occur nowhere in the text. *)
Definition no_triple_newline (s : pystr) : Prop :=
  forall pre post, s <> pre ++ [LF; LF; LF] ++ post.

(** A text of whitespace only. *)
Definition blank (s : pystr) : Prop := forallb is_space s = true.

End NormalMore.
Import NormalMore.

(** The prefixes of the two page URLs of [fetch_transcript_text]. *)
Definition PAGE_PREFIXES : list pystr :=
  [py "https://www.loom.com/share/"; py "https://www.loom.com/embed/"].

(** ** [is_probably_timestamp] of [src/extractor/utils.py] *)

Module Timestamp.

(** The greedy bounded repetition [r{m,n}]: [m] times [r], then up to
    [n - m] more, the longer alternative first. *)
Fixpoint upto (n : nat) (r : regex) : regex :=
  match n with
  | O => Lit []
  | S n' => Opt (Seq r (upto n' r))
  end.

Definition RepRange (m n : nat) (r : regex) : regex := Seq (Rep m r) (upto (n - m) r).

(** [\d] on the code points 0..255. *)
Definition DIGIT : list (ascii * ascii) := [("0"%char, "9"%char)].

(** [re.fullmatch]: a match at the start that ends at the end of the text. *)
Definition re_fullmatch (p : pattern) (s : pystr) : option (list pystr) :=
  run (re_ignorecase p) (re_ast p)
      (fun _ s' g => match s' with [] => Some g | _ :: _ => None end) None s [].

(** [r"(?:\d{1,2}:)?\d{1,2}:\d{2}(?:,\d{1,3})?"] *)
Definition TIMESTAMP_RE : pattern :=
  Pattern
    (seq_of [ Opt (Seq (RepRange 1 2 (Cls DIGIT)) (Lit (py ":")));
              RepRange 1 2 (Cls DIGIT);
              Lit (py ":");
              Rep 2 (Cls DIGIT);
              Opt (Seq (Lit (py ",")) (RepRange 1 3 (Cls DIGIT))) ])
    false.

Definition is_probably_timestamp (token : pystr) : bool :=
  match token with
  | [] => false
  | _ :: _ =>
      match re_fullmatch TIMESTAMP_RE token with
      | Some _ => true
      | None => false
      end
  end.

(** The shape of a timestamp, in words: an optional hours part, minutes,
    a colon, two digits of seconds, an optional fraction after a comma. *)
Definition is_digit (c : ascii) : bool := between 48 57 (code c).

Definition digit_run (lo hi : nat) (d : pystr) : Prop :=
  lo <= length d <= hi /\ forallb is_digit d = true.

Definition hours_part (h : pystr) : Prop :=
  h = [] \/ exists d, h = d ++ py ":" /\ digit_run 1 2 d.

Definition fraction_part (f : pystr) : Prop :=
  f = [] \/ exists d, f = py "," ++ d /\ digit_run 1 3 d.

Definition timestamp (token : pystr) : Prop :=
  exists h m sec f,
    token = h ++ m ++ py ":" ++ sec ++ f
    /\ hours_part h /\ digit_run 1 2 m /\ digit_run 2 2 sec /\ fraction_part f.

(** The expression [r] matches exactly the texts of [L], whatever stands
    around them, and closes no group. *)
Definition denotes (ic : bool) (r : regex) (L : pystr -> Prop) : Prop :=
  forall p s g p' s' g',
    matches ic r p s g p' s' g' <->
    exists tok, s = tok ++ s' /\ L tok /\ p' = prev_char p tok /\ g' = g.

End Timestamp.
Import Timestamp.

(** ** Brace blocks, for [_extract_json_like_strings] *)

Module Braces.

(** The scan of [_extract_json_like_strings] without indexes: [cur] holds,
    in reverse, the characters read since the opening brace of the block
    being read. *)
Fixpoint blobs (rest : pystr) (depth : nat) (cur : pystr) : list pystr :=
  match rest with
  | [] => []
  | ch :: rest' =>
      if Ascii.eqb ch "{"%char then
        blobs rest' (S depth) (match depth with O => [ch] | S _ => ch :: cur end)
      else if Ascii.eqb ch "}"%char then
        match depth with
        | O => blobs rest' 0 cur
        | S d =>
            match d with
            | O => rev (ch :: cur) :: blobs rest' 0 []
            | S _ => blobs rest' d (ch :: cur)
            end
        end
      else blobs rest' depth (ch :: cur)
  end.

(** The nesting depth after [s], starting at depth [d]; none if a closing
    brace comes with nothing open. *)
Fixpoint nest (d : nat) (s : pystr) : option nat :=
  match s with
  | [] => Some d
  | ch :: s' =>
      if Ascii.eqb ch "{"%char then nest (S d) s'
      else if Ascii.eqb ch "}"%char then
        match d with O => None | S d' => nest d' s' end
      else nest d s'
  end.

(** The braces of [s] are properly nested. *)
Definition balanced (s : pystr) : Prop := nest 0 s = Some 0.

Definition no_open (s : pystr) : Prop :=
  forallb (fun ch => negb (Ascii.eqb ch "{"%char)) s = true.

End Braces.
Import Braces.

(** ** Shapes of caption items, for the errors of the payload interpreter *)

Module PayloadShapes.

Definition is_dict (j : json) : bool :=
  match j with JDict _ => true | _ => false end.

Definition is_str (j : json) : bool :=
  match j with JStr _ => true | _ => false end.

(** [c.get("text") or c.get("caption") or ""] of a map. *)
Definition caption_value (c : json) : json :=
  match c with
  | JDict kvs =>
      py_or (dict_get_default (py "text") kvs)
            (py_or (dict_get_default (py "caption") kvs) (JStr []))
  | _ => JNull
  end.

(** The value picked from the item is kept and is not a string. *)
Definition odd_caption (c : json) : Prop :=
  truthy (caption_value c) = true /\ is_str (caption_value c) = false.

End PayloadShapes.
Import PayloadShapes.

(** ** The requests and the outcomes of a whole discovery call, in words *)

Module Budget.

(** The traces of successive passes, with the wait before each new pass;
    [attempt] numbers the pass that failed before the first wait. *)
Fixpoint with_waits (attempt : nat) (passes : list (list event)) : list event :=
  match passes with
  | [] => []
  | p :: rest =>
      match rest with
      | [] => p
      | _ :: _ => p ++ Sleep attempt :: with_waits (S attempt) rest
      end
  end.

Definition is_get (ev : event) : bool :=
  match ev with Get _ => true | Sleep _ => false end.

Definition is_sleep (ev : event) : bool :=
  match ev with Sleep _ => true | Get _ => false end.

(** The requests of one pass: the first [n] of the fixed order, at least
    the first one. *)
Definition pass_requests (video_id : pystr) (p : list event) : Prop :=
  exists n, 1 <= n <= 5 /\ p = firstn n (request_order video_id).

Definition UNAVAILABLE_STATUS : list nat := [401; 403; 404].

Section Outcomes.

Context {P : Platform}.

(** The exceptions a discovery call can end with: the two errors of the
    client, an exception that the transport raised, the error of a status
    that [raise_for_status] rejects, and the two failures of the payload
    heuristics. *)
Definition expected_failure (e : exn) : Prop :=
  e = NOT_FOUND
  \/ (exists st, In st UNAVAILABLE_STATUS
                 /\ e = LoomError (py "Unavailable: " ++ str_of_nat st))
  \/ (exists url w w' r, http_get url w = (inr r, w') /\ e = RequestException r)
  \/ (exists st, 400 <= st < 600 /\ ~ In st UNAVAILABLE_STATUS
                 /\ e = RequestException (HTTPError st))
  \/ e = AttributeError
  \/ e = TypeError.

Definition expected_outcome (r : outcome pystr) : Prop :=
  match r with
  | Ok t => nonempty t = true
  | Raise e => expected_failure e
  end.

End Outcomes.

End Budget.
Import Budget.

(** ** The texts a parsed blob holds, for the walk *)

Module Leaves.

(** The texts of the strings, numbers and booleans anywhere in [j]; the
    keys of maps are not among them. *)
Fixpoint scalar_texts (j : json) : list pystr :=
  match j with
  | JNull => []
  | JList items => flat_map scalar_texts items
  | JDict kvs => flat_map (fun kv => let '(_, v) := kv in scalar_texts v) kvs
  | JBool _ | JInt _ | JFloat _ | JStr _ => [scalar_str j]
  end.

(** All texts of [v] are among [T]. *)
Definition within (T : list pystr) (v : json) : Prop := incl (scalar_texts v) T.

(** The walk has only added texts of [T] to the fragments of [st0], and
    nodes within [T] to its queue. *)
Definition grown_within (T : list pystr) (st0 st : walk_state) : Prop :=
  (forall f, In f (fst st) -> In f (fst st0) \/ In f T)
  /\ (forall q, In q (snd st) -> In q (snd st0) \/ within T q).

End Leaves.
Import Leaves.

(** ** [src/main.py]: one input item *)

Module Main.

Local Open Scope comp_scope.

Section ProcessOne.

Context {P : Platform}.

(** [extractor.transcript_cleaner.clean_transcript]: it is not among the
    sources; what follows holds for any cleaner, whether it returns or
    raises. *)
Variable clean_transcript : pystr -> outcome pystr.

Definition EMPTY_AFTER_CLEANING : exn :=
  LoomError (py "Transcript extracted but empty after cleaning.").

Definition process_one (item : pystr) : M World (pystr * pystr) :=
  match extract_video_id item with
  | Some ((_ :: _) as vid) =>
      raw <- fetch_transcript_text vid ;;
      cleaned <- lift (clean_transcript raw) ;;
      match cleaned with
      | [] => raise EMPTY_AFTER_CLEANING
      | _ :: _ => ret (vid, cleaned)
      end
  | _ => raise ValueError
  end.

End ProcessOne.

End Main.
Import Main.

(** ** The quote repair and the word test of the page scraper, in words *)

Module Scraper.

(** The character before the position is a backslash. *)
Definition escaped (prev : option ascii) : bool :=
  match prev with Some x => Ascii.eqb x BACKSLASH | None => false end.

(** Every single quote that no backslash precedes becomes a double quote. *)
Fixpoint coerce_quotes (prev : option ascii) (s : pystr) : pystr :=
  match s with
  | [] => []
  | c :: s' =>
      (if negb (escaped prev) && Ascii.eqb SQUOTE c then DQUOTE else c)
      :: coerce_quotes (Some c) s'
  end.

(** The word [transcript], in any case, stands alone in [s]. *)
Definition standalone_word (s : pystr) : Prop :=
  exists pre w post,
    s = pre ++ w ++ post
    /\ str_lower w = py "transcript"
    /\ ends_with_word pre = false
    /\ starts_with_word post = false.

End Scraper.
Import Scraper.

(** ** Which token the extractor picks *)

Module Leftmost.

(** [tok] stands alone in [s] after [pre], and no token stands alone
    further to the left. *)
Definition first_standalone_token (s pre tok : pystr) : Prop :=
  (exists post,
      s = pre ++ tok ++ post /\ hex_token tok
      /\ ends_with_word pre = false /\ starts_with_word post = false)
  /\ (forall pre' tok' post',
        s = pre' ++ tok' ++ post' -> hex_token tok' ->
        ends_with_word pre' = false -> starts_with_word post' = false ->
        length pre <= length pre').

End Leftmost.
Import Leftmost.

(* ================================================================== *)
(** * Part II: properties *)
(* ================================================================== *)

(** ** The discovery engine *)

Section DiscoveryProperties.

Context {P : Platform}.

Local Open Scope comp_scope.

#[local] Arguments share_url : simpl never.
#[local] Arguments embed_url : simpl never.
#[local] Arguments api_urls : simpl never.
#[local] Arguments py : simpl never.

Lemma session_get_trace url w r w' tr :
  session_get url w = (r, w', tr) -> tr = [Get url].
Proof.
  unfold session_get. destruct (http_get url w) as [[resp|e] w1]; congruence.
Qed.

Lemma fetch_json_run url w :
  exists r w', fetch_json url w = (Ok r, w', [Get url]).
Proof.
  unfold fetch_json, catch, bind, session_get.
  destruct (http_get url w) as [[resp|e] w1]; cbn.
  - destruct (status_code resp =? 404); cbn; [eauto|].
    unfold raise_for_status.
    destruct ((400 <=? status_code resp) && (status_code resp <? 600)); cbn; [eauto|].
    unfold resp_json. destruct (json_loads (text resp)); cbn; eauto.
  - eauto.
Qed.

Lemma try_fetch_trace url w r w' tr :
  _try_fetch_json_transcript url w = (r, w', tr) -> tr = [Get url].
Proof.
  unfold _try_fetch_json_transcript, bind.
  destruct (fetch_json_run url w) as (j & w1 & ->).
  destruct j as [data|]; cbn.
  - unfold lift. intros H. inversion H. reflexivity.
  - intros H. inversion H. reflexivity.
Qed.

Lemma get_trace url w r w' tr :
  _get url w = (r, w', tr) -> tr = [Get url].
Proof.
  unfold _get, bind, session_get.
  destruct (http_get url w) as [[resp|e] w1]; cbn.
  - destruct ((status_code resp =? 401) || (status_code resp =? 403)
              || (status_code resp =? 404)); cbn.
    + intros H; inversion H; reflexivity.
    + unfold raise_for_status.
      destruct ((400 <=? status_code resp) && (status_code resp <? 600)); cbn;
        intros H; inversion H; reflexivity.
  - intros H; inversion H; reflexivity.
Qed.

Lemma bind_run {A B} (m : M World A) (f : A -> M World B) w :
  bind m f w =
  match m w with
  | (Ok a, w1, t1) => let '(r, w2, t2) := f a w1 in (r, w2, t1 ++ t2)
  | (Raise e, w1, t1) => (Raise e, w1, t1)
  end.
Proof. reflexivity. Qed.

(** The loop over the guessed endpoints is the chain over their
    strategies, continued by whatever comes after. *)
Lemma first_nonempty_apis apis rest w :
  first_nonempty (map _try_fetch_json_transcript apis ++ rest) w =
  bind (try_apis apis)
       (fun r => match r with
                 | Some t => ret (Some t)
                 | None => first_nonempty rest
                 end) w.
Proof.
  revert w. induction apis as [|url apis IH]; intros w; cbn [map app first_nonempty try_apis].
  - rewrite bind_run. cbn. destruct (first_nonempty rest w) as [[r w2] t2]. reflexivity.
  - rewrite !bind_run.
    destruct (_try_fetch_json_transcript url w) as [[[r|e] w1] t1]; [|reflexivity].
    destruct (has_text r) eqn:Hr.
    + cbn. destruct r as [t|]; [|discriminate]. cbn. rewrite !app_nil_r. reflexivity.
    + rewrite IH. rewrite !bind_run.
      destruct (try_apis apis w1) as [[[r'|e'] w2] t2]; cbn.
      * destruct r' as [t'|]; cbn.
        -- rewrite !app_nil_r. reflexivity.
        -- destruct (first_nonempty rest w2) as [[r3 w3] t3]. cbn.
           rewrite app_assoc. reflexivity.
      * reflexivity.
Qed.

Lemma has_text_cases (r : option pystr) :
  (exists c t, r = Some (c :: t) /\ has_text r = true)
  \/ ((r = None \/ r = Some []) /\ has_text r = false).
Proof. destruct r as [[|c t]|]; cbn; eauto. Qed.

(** One pass of the source is the chain of the five strategies. *)
Lemma fetch_once_is_chain video_id w :
  fetch_transcript_text_once video_id w = discover video_id w.
Proof.
  unfold discover, strategies, fetch_transcript_text_once.
  rewrite (bind_run (first_nonempty _)), first_nonempty_apis, !bind_run.
  destruct (try_apis (api_urls video_id) w) as [[[[t|]|e] w1] t1]; cbn;
    [rewrite ?app_nil_r; reflexivity| |reflexivity].
  unfold page_strategy. rewrite !bind_run.
  destruct (_get (share_url video_id) w1) as [[[html|e] w2] t2]; cbn; [|rewrite ?app_nil_r; reflexivity].
  destruct (has_text_cases (_parse_share_page_for_transcript html))
    as [(c & t & -> & _)|([-> | ->] & _)]; cbn; rewrite ?app_nil_r; try reflexivity.
  all: rewrite ?bind_run;
    destruct (_get (embed_url video_id) w2) as [[[html'|e'] w3] t3]; cbn;
    [|rewrite ?app_nil_r, ?app_assoc; reflexivity];
    destruct (has_text_cases (_parse_share_page_for_transcript html'))
      as [(c' & t' & -> & _)|([-> | ->] & _)]; cbn;
    rewrite ?app_nil_r, ?app_assoc; reflexivity.
Qed.

(** The chain returns the text of the first strategy whose result is not
    empty; the strategies before it ran, in order, to empty results. *)
Lemma first_nonempty_first strategies w t w' tr :
  first_nonempty strategies w = (Ok (Some t), w', tr) ->
  nonempty t = true /\
  exists pre s post w1 tr1 tr2,
    strategies = pre ++ s :: post /\
    all_empty pre w w1 tr1 /\
    s w1 = (Ok (Some t), w', tr2) /\
    tr = tr1 ++ tr2.
Proof.
  revert w tr. induction strategies as [|s rest IH]; intros w tr; cbn [first_nonempty].
  - unfold ret. discriminate.
  - rewrite bind_run. destruct (s w) as [[[r|e] w1] t1] eqn:Hs; [|discriminate].
    destruct (has_text r) eqn:Hr.
    + cbn. intros H. inversion H; subst. split.
      * exact Hr.
      * exists [], s, rest, w, [], t1. rewrite app_nil_r.
        repeat split; [constructor | assumption].
    + destruct (first_nonempty rest w1) as [[r2 w2] t2] eqn:Hrest.
      intros H. inversion H; subst.
      destruct (IH _ _ Hrest) as (Hne & pre & s' & post & w3 & tr1 & tr2 & -> & Hpre & Hs' & ->).
      split; [exact Hne|].
      exists (s :: pre), s', post, w3, (t1 ++ tr1), tr2.
      repeat split; [econstructor; eassumption | assumption | apply app_assoc].
Qed.

(** When each strategy sends exactly one request, the requests of the
    chain are an initial segment of theirs. *)
Lemma first_nonempty_requests strategies evs :
  Forall2 (fun (s : strategy) ev => forall w r w' tr, s w = (r, w', tr) -> tr = [ev])
          strategies evs ->
  forall w r w' tr,
    first_nonempty strategies w = (r, w', tr) -> exists n, tr = firstn n evs.
Proof.
  induction 1 as [|s ev strategies evs Hs _ IH]; intros w r w' tr; cbn [first_nonempty].
  - unfold ret. intros H; inversion H. exists 0. reflexivity.
  - rewrite bind_run. destruct (s w) as [[[a|e] w1] t1] eqn:Hsw.
    + rewrite (Hs _ _ _ _ Hsw). destruct (has_text a).
      * cbn. intros H; inversion H. exists 1. reflexivity.
      * destruct (first_nonempty strategies w1) as [[r2 w2] t2] eqn:Hrest.
        intros H; inversion H; subst.
        destruct (IH _ _ _ _ Hrest) as [n ->]. exists (S n). reflexivity.
    + rewrite (Hs _ _ _ _ Hsw). intros H; inversion H. exists 1. reflexivity.
Qed.

Lemma page_strategy_trace url w r w' tr :
  page_strategy url w = (r, w', tr) -> tr = [Get url].
Proof.
  unfold page_strategy. rewrite bind_run.
  destruct (_get url w) as [[[html|e] w1] t1] eqn:Hg; cbn;
    intros H; inversion H; subst; rewrite ?app_nil_r; eapply get_trace; eassumption.
Qed.

Lemma strategies_requests video_id :
  Forall2 (fun (s : strategy) ev => forall w r w' tr, s w = (r, w', tr) -> tr = [ev])
          (strategies video_id) (request_order video_id).
Proof.
  unfold strategies, request_order, api_urls. cbn [map app].
  repeat constructor; intros w r w' tr;
    first [apply try_fetch_trace | apply page_strategy_trace].
Qed.

Lemma discover_requests video_id w r w' tr :
  discover video_id w = (r, w', tr) -> exists n, tr = firstn n (request_order video_id).
Proof.
  unfold discover. rewrite bind_run.
  destruct (first_nonempty (strategies video_id) w) as [[[a|e] w1] t1] eqn:Hf.
  - destruct a as [t|]; cbn; intros H; inversion H; subst; rewrite app_nil_r;
      eapply first_nonempty_requests; eauto using strategies_requests.
  - intros H; inversion H; subst.
    eapply first_nonempty_requests; eauto using strategies_requests.
Qed.

(** C1.  One pass of the discovery engine is the chain of its five
    strategies in the fixed order: the three guessed endpoints in the listed
    order, the share page, the embed page.  Its requests are an initial
    segment of that order, the text it returns is non-empty and is the
    result of the first strategy that is not empty, and when the first
    guessed endpoint yields a transcript that text is returned, by the pass
    and by the retried call, after that single request: the share page is
    not fetched. *)
Theorem discovery_order_first_nonempty video_id w :
  fetch_transcript_text_once video_id w = discover video_id w
  /\ (exists n,
        snd (fetch_transcript_text_once video_id w) = firstn n (request_order video_id))
  /\ (forall t w' tr,
        fetch_transcript_text_once video_id w = (Ok t, w', tr) ->
        nonempty t = true /\
        exists pre s post w1 tr1 tr2,
          strategies video_id = pre ++ s :: post /\
          all_empty pre w w1 tr1 /\
          s w1 = (Ok (Some t), w', tr2) /\
          tr = tr1 ++ tr2)
  /\ (forall t w' tr,
        _try_fetch_json_transcript (hd [] (api_urls video_id)) w = (Ok (Some t), w', tr) ->
        nonempty t = true ->
        fetch_transcript_text_once video_id w = (Ok t, w', [Get (hd [] (api_urls video_id))])
        /\ fetch_transcript_text video_id w = (Ok t, w', [Get (hd [] (api_urls video_id))])
        /\ ~ In (Get (share_url video_id)) [Get (hd [] (api_urls video_id))]).
Proof.
  split; [apply fetch_once_is_chain|]. split; [|split].
  - rewrite fetch_once_is_chain.
    destruct (discover video_id w) as [[r w'] tr] eqn:Hd.
    eapply discover_requests; eassumption.
  - intros t w' tr. rewrite fetch_once_is_chain. unfold discover. rewrite bind_run.
    destruct (first_nonempty (strategies video_id) w) as [[[[t'|]|e] w1] t1] eqn:Hf;
      cbn; intros H; inversion H; subst.
    rewrite app_nil_r. eapply first_nonempty_first; eassumption.
  - intros t w' tr Hfirst Hne.
    assert (Hone : fetch_transcript_text_once video_id w
                   = (Ok t, w', [Get (hd [] (api_urls video_id))])).
    { pose proof (try_fetch_trace _ _ Hfirst) as ->.
      unfold fetch_transcript_text_once. unfold api_urls in *. cbn [hd] in *.
      cbn [try_apis]. rewrite !bind_run, Hfirst. cbn [has_text]. rewrite Hne.
      reflexivity. }
    split; [exact Hone|]. split.
    + unfold fetch_transcript_text. change (MAX_ATTEMPTS - 1) with 2.
      cbn [retry_call]. unfold catch. rewrite Hone. reflexivity.
    + unfold api_urls, share_url, py. cbn. intros [H|[]]. discriminate H.
Qed.

Lemma retry_call_run {A} retry left attempt (call : M World A) w :
  retry_call retry left attempt call w =
  match call w with
  | (Ok a, w1, t1) => (Ok a, w1, t1)
  | (Raise e, w1, t1) =>
      if retry e
      then match left with
           | O => (Raise e, w1, t1 ++ [])
           | S left' =>
               let '(r, w2, t2) := retry_call retry left' (S attempt) call w1 in
               (r, w2, t1 ++ Sleep attempt :: t2)
           end
      else (Raise e, w1, t1)
  end.
Proof.
  destruct left; cbn [retry_call]; unfold catch;
    destruct (call w) as [[[a|e] w1] t1]; try reflexivity;
    destruct (retry e); try reflexivity.
  rewrite bind_run. cbn.
  destruct (retry_call retry left (S attempt) call w1) as [[r w2] t2]. reflexivity.
Qed.

Lemma bind_trace_head {A B} (m : M World A) (f : A -> M World B) w r0 w0 ev t0 r w1 t1 :
  m w = (r0, w0, ev :: t0) ->
  bind m f w = (r, w1, t1) ->
  exists rest, t1 = ev :: rest.
Proof.
  intros Hm. rewrite bind_run, Hm. destruct r0 as [a|e].
  - destruct (f a w0) as [[r2 w2] t2]. intros H; inversion H. eexists. reflexivity.
  - intros H; inversion H. eexists. reflexivity.
Qed.

(** Every pass starts with a request to the first guessed endpoint. *)
Lemma fetch_once_starts_at_first video_id w r w1 t1 :
  fetch_transcript_text_once video_id w = (r, w1, t1) ->
  exists rest, t1 = Get (hd [] (api_urls video_id)) :: rest.
Proof.
  unfold fetch_transcript_text_once, api_urls. cbn [hd try_apis]. intros H.
  match type of H with
  | bind (bind ?m ?f) ?g w = _ =>
      destruct (bind m f w) as [[r1 w2] t2] eqn:Hapis;
      destruct (m w) as [[r0 w0] t0] eqn:H0
  end.
  pose proof (try_fetch_trace _ _ H0) as ->.
  destruct (bind_trace_head _ _ _ H0 Hapis) as [rest1 ->].
  eapply bind_trace_head; [exact Hapis|exact H].
Qed.

(** C2.  The call is made again exactly when the pass raised a transport
    error or a [LoomError], and at most three passes are made: a result or an
    exception of another type ends the call after the pass that gave it, a
    retried exception is followed by a wait and a new pass from the world the
    failed pass left, and whatever the third pass gives is the outcome.
    Every pass starts again at the first guessed endpoint. *)
Theorem retry_policy video_id w :
  (forall e, is_retried e = true <->
             (exists r, e = RequestException r) \/ (exists m, e = LoomError m))
  /\ (forall t w1 t1,
        fetch_transcript_text_once video_id w = (Ok t, w1, t1) ->
        fetch_transcript_text video_id w = (Ok t, w1, t1))
  /\ (forall e w1 t1,
        fetch_transcript_text_once video_id w = (Raise e, w1, t1) ->
        is_retried e = false ->
        fetch_transcript_text video_id w = (Raise e, w1, t1))
  /\ (forall e1 w1 t1,
        fetch_transcript_text_once video_id w = (Raise e1, w1, t1) ->
        is_retried e1 = true ->
        (forall t w2 t2,
           fetch_transcript_text_once video_id w1 = (Ok t, w2, t2) ->
           fetch_transcript_text video_id w = (Ok t, w2, t1 ++ Sleep 1 :: t2))
        /\ (forall e2 w2 t2,
              fetch_transcript_text_once video_id w1 = (Raise e2, w2, t2) ->
              is_retried e2 = false ->
              fetch_transcript_text video_id w = (Raise e2, w2, t1 ++ Sleep 1 :: t2))
        /\ (forall e2 w2 t2 r3 w3 t3,
              fetch_transcript_text_once video_id w1 = (Raise e2, w2, t2) ->
              is_retried e2 = true ->
              fetch_transcript_text_once video_id w2 = (r3, w3, t3) ->
              fetch_transcript_text video_id w
              = (r3, w3, t1 ++ Sleep 1 :: t2 ++ Sleep 2 :: t3)))
  /\ (forall w0 r w1 t1,
        fetch_transcript_text_once video_id w0 = (r, w1, t1) ->
        exists rest, t1 = Get (hd [] (api_urls video_id)) :: rest).
Proof.
  unfold fetch_transcript_text. change (MAX_ATTEMPTS - 1) with 2.
  split; [|split; [|split; [|split]]].
  - intros e. split.
    + destruct e; cbn; try discriminate; eauto.
    + intros [[r ->]|[m ->]]; reflexivity.
  - intros t w1 t1 H. rewrite retry_call_run, H. reflexivity.
  - intros e w1 t1 H He. rewrite retry_call_run, H, He. reflexivity.
  - intros e1 w1 t1 H1 He1. split; [|split].
    + intros t w2 t2 H2. rewrite retry_call_run, H1, He1, retry_call_run, H2.
      reflexivity.
    + intros e2 w2 t2 H2 He2. rewrite retry_call_run, H1, He1, retry_call_run, H2, He2.
      reflexivity.
    + intros e2 w2 t2 r3 w3 t3 H2 He2 H3.
      rewrite retry_call_run, H1, He1, retry_call_run, H2, He2, retry_call_run, H3.
      destruct r3 as [t|e3]; [reflexivity|].
      destruct (is_retried e3); rewrite ?app_nil_r; reflexivity.
  - intros w0 r w1 t1. apply fetch_once_starts_at_first.
Qed.

Lemma try_fetch_skips url w :
  (forall resp w',
      http_get url w = (inl resp, w') ->
      status_code resp = 404 \/ 400 <= status_code resp < 600 ->
      _try_fetch_json_transcript url w = (Ok None, w', [Get url]))
  /\ (forall e w',
        http_get url w = (inr e, w') ->
        _try_fetch_json_transcript url w = (Ok None, w', [Get url])).
Proof.
  unfold _try_fetch_json_transcript, fetch_json, catch, session_get.
  split.
  - intros resp w' Hget Hst. rewrite !bind_run, Hget.
    destruct (status_code resp =? 404) eqn:H404; [reflexivity|].
    apply Nat.eqb_neq in H404. destruct Hst as [Hst|[Hlo Hhi]]; [contradiction|].
    rewrite bind_run. unfold raise_for_status.
    apply Nat.leb_le in Hlo. apply Nat.ltb_lt in Hhi. rewrite Hlo, Hhi. reflexivity.
  - intros e w' Hget. rewrite !bind_run, Hget. reflexivity.
Qed.

Lemma interpret_payload_no_request_error data e :
  interpret_payload data <> Raise (RequestException e).
Proof.
  assert (Hcap : forall c, caption_text c <> Raise (RequestException e)).
  { intros [| | | | |items|kvs]; cbn; discriminate. }
  assert (Hcol : forall text_of items fragments,
             (forall c, text_of c <> Raise (RequestException e)) ->
             collect_fragments text_of items fragments <> Raise (RequestException e)).
  { intros text_of items. induction items as [|c rest IH]; intros fragments Ht; cbn.
    - discriminate.
    - specialize (Ht c) as Hc. destruct (text_of c) as [txt|e'].
      + apply IH. exact Ht.
      + congruence. }
  assert (Hres : forall r, r <> Raise (RequestException e) ->
                           fragments_result r <> Raise (RequestException e)).
  { intros [fragments|e'] Hr; cbn; [|congruence].
    destruct fragments as [|f rest]; cbn; [discriminate|].
    unfold join_fragments. destruct (as_strings (f :: rest)); discriminate. }
  destruct data as [| | | | |items|kvs]; cbn; try discriminate.
  - apply Hres, Hcol. intros [| | | | |l|d]; first [discriminate | apply Hcap].
  - destruct (dict_get (py "transcript") kvs) as [[| | | | | |]|];
      try discriminate.
    all: destruct (dict_get (py "captions") kvs) as [[| | | | |captions|]|];
      try (apply Hres, Hcol, Hcap).
    all: destruct (dict_get (py "data") kvs) as [[| | | | | |inner]|];
      try discriminate.
    all: destruct (dict_get (py "transcript") inner) as [[| | | | | |]|];
      discriminate.
Qed.

(** C3, as the code has it.  On a guessed endpoint a [404], any other HTTP
    error status and a failure of the transport all give an empty result:
    the loop moves on to the next endpoint, and no request error of a guessed
    endpoint leaves [_try_fetch_json_transcript]. *)
Theorem api_endpoint_errors_are_skipped url w :
  (forall resp w',
      http_get url w = (inl resp, w') ->
      status_code resp = 404 \/ 400 <= status_code resp < 600 ->
      _try_fetch_json_transcript url w = (Ok None, w', [Get url])
      /\ forall rest,
           try_apis (url :: rest) w =
           let '(r, w2, t2) := try_apis rest w' in (r, w2, Get url :: t2))
  /\ (forall e w',
        http_get url w = (inr e, w') ->
        _try_fetch_json_transcript url w = (Ok None, w', [Get url]))
  /\ (forall e w' tr,
        _try_fetch_json_transcript url w <> (Raise (RequestException e), w', tr)).
Proof.
  destruct (try_fetch_skips url w) as [Hst Herr].
  split; [|split].
  - intros resp w' Hget Hcode. split; [eauto|].
    intros rest. cbn [try_apis]. rewrite bind_run, (Hst _ _ Hget Hcode). reflexivity.
  - exact Herr.
  - intros e w' tr. unfold _try_fetch_json_transcript. rewrite bind_run.
    destruct (fetch_json_run url w) as (j & w1 & ->).
    destruct j as [data|]; cbn; [|discriminate].
    unfold lift. intros H. inversion H.
    eapply interpret_payload_no_request_error; eassumption.
Qed.

Lemma try_apis_requests apis w r w' tr :
  try_apis apis w = (r, w', tr) -> forall ev, In ev tr -> exists url, In url apis /\ ev = Get url.
Proof.
  revert w tr. induction apis as [|url rest IH]; intros w tr; cbn [try_apis].
  - unfold ret. intros H; inversion H. contradiction.
  - rewrite bind_run.
    destruct (_try_fetch_json_transcript url w) as [[[a|e] w1] t1] eqn:Hf;
      pose proof (try_fetch_trace _ _ Hf) as ->.
    + destruct (has_text a).
      * cbn. intros H; inversion H; subst. intros ev [<-|[]]. exists url. cbn. auto.
      * destruct (try_apis rest w1) as [[r2 w2] t2] eqn:Hrest.
        intros H; inversion H; subst. intros ev [<-|Hin].
        -- exists url. cbn. auto.
        -- destruct (IH _ _ Hrest _ Hin) as (u & Hu & ->). exists u. cbn. auto.
    + intros H; inversion H; subst. intros ev [<-|[]]. exists url. cbn. auto.
Qed.

Lemma embed_url_not_api video_id url :
  In url (api_urls video_id) -> url <> embed_url video_id.
Proof.
  unfold api_urls, embed_url, py. cbn.
  intros [<-|[<-|[<-|[]]]]; discriminate.
Qed.

(** C4, as the code has it.  When the guessed endpoints gave nothing and
    the share page answers [401], [403] or [404], the pass ends there with
    the [LoomError] of [_get]: the embed page is not requested in that pass.
    The error is of a retried kind. *)
Theorem share_page_unavailable_ends_pass video_id w w1 t1 resp w2 :
  try_apis (api_urls video_id) w = (Ok None, w1, t1) ->
  http_get (share_url video_id) w1 = (inl resp, w2) ->
  status_code resp = 401 \/ status_code resp = 403 \/ status_code resp = 404 ->
  fetch_transcript_text_once video_id w
  = (Raise (LoomError (py "Unavailable: " ++ str_of_nat (status_code resp))), w2,
     t1 ++ [Get (share_url video_id)])
  /\ ~ In (Get (embed_url video_id)) (t1 ++ [Get (share_url video_id)])
  /\ is_retried (LoomError (py "Unavailable: " ++ str_of_nat (status_code resp))) = true.
Proof.
  intros Hapis Hget Hst. split; [|split].
  - unfold fetch_transcript_text_once. rewrite bind_run, Hapis.
    unfold _get, session_get. rewrite !bind_run, Hget.
    assert ((status_code resp =? 401) || (status_code resp =? 403)
            || (status_code resp =? 404) = true) as ->.
    { destruct Hst as [ -> | [ -> | -> ] ]; reflexivity. }
    reflexivity.
  - intros Hin. apply in_app_or in Hin. destruct Hin as [Hin|[Hin|[]]].
    + destruct (try_apis_requests _ _ Hapis _ Hin) as (u & Hu & Heq).
      inversion Heq. eapply embed_url_not_api; eauto.
    + revert Hin. unfold share_url, embed_url, py. cbn. discriminate.
  - reflexivity.
Qed.

End DiscoveryProperties.

(** ** The matcher, one constructor at a time *)

Section MatcherEquations.

Variable ic : bool.
Variable R : Type.
Implicit Type k : cont R.

Lemma run_Lit l k prev s g :
  run ic (Lit l) k prev s g =
  match lit_match ic l prev s with
  | Some (p', s') => k p' s' g
  | None => None
  end.
Proof. reflexivity. Qed.

Lemma run_Cls rs k prev s g :
  run ic (Cls rs) k prev s g =
  match s with
  | x :: s' => if in_class ic rs x then k (Some x) s' g else None
  | [] => None
  end.
Proof. reflexivity. Qed.

Lemma run_Seq r1 r2 k prev s g :
  run ic (Seq r1 r2) k prev s g = run ic r1 (run ic r2 k) prev s g.
Proof. reflexivity. Qed.

Lemma run_Alt r1 r2 k prev s g :
  run ic (Alt r1 r2) k prev s g = or_else (run ic r1 k prev s g) (run ic r2 k prev s g).
Proof. reflexivity. Qed.

Lemma run_Opt r k prev s g :
  run ic (Opt r) k prev s g = or_else (run ic r k prev s g) (k prev s g).
Proof. reflexivity. Qed.

Lemma run_Rep_O r k prev s g : run ic (Rep 0 r) k prev s g = k prev s g.
Proof. reflexivity. Qed.

Lemma run_Rep_S n r k prev s g :
  run ic (Rep (S n) r) k prev s g = run ic r (run ic (Rep n r) k) prev s g.
Proof. reflexivity. Qed.

Lemma run_Many_nil rs k prev g : run ic (Many rs) k prev [] g = k prev [] g.
Proof. reflexivity. Qed.

Lemma run_Many_cons rs k prev x s g :
  run ic (Many rs) k prev (x :: s) g =
  if in_class ic rs x
  then or_else (run ic (Many rs) k (Some x) s g) (k prev (x :: s) g)
  else k prev (x :: s) g.
Proof. reflexivity. Qed.

Lemma run_Grp r k prev s g :
  run ic (Grp r) k prev s g =
  run ic r (fun p' s' g' => k p' s' (g' ++ [firstn (length s - length s') s])) prev s g.
Proof. reflexivity. Qed.

Lemma run_WordB k prev s g :
  run ic WordB k prev s g = if word_boundary prev s then k prev s g else None.
Proof. reflexivity. Qed.

End MatcherEquations.

(** ** The matcher finds what matches *)

Section MatcherCorrect.

Variable ic : bool.
Variable R : Type.
Implicit Type k : cont R.

Lemma matches_Rep_S n r p s g p' s' g' :
  matches ic (Rep (S n) r) p s g p' s' g' <->
  exists p1 s1 g1, matches ic r p s g p1 s1 g1 /\ matches ic (Rep n r) p1 s1 g1 p' s' g'.
Proof. reflexivity. Qed.

Lemma or_else_Some (a b : option R) v :
  or_else a b = Some v -> a = Some v \/ (a = None /\ b = Some v).
Proof. destruct a; cbn; intros H; [left|right]; auto. Qed.

Lemma or_else_not_None (a b : option R) :
  a <> None \/ b <> None -> or_else a b <> None.
Proof. destruct a; cbn; [discriminate|]. intros [H|H]; [congruence|exact H]. Qed.

Lemma last_cons {A} (l : list A) d p : last (d :: l) p = last l d.
Proof.
  revert d p. induction l as [|y l IH]; intros d p; [reflexivity|].
  change (last (d :: y :: l) p) with (last (y :: l) p).
  rewrite IH. symmetry. apply IH.
Qed.

Lemma prev_char_cons p x run : prev_char p (x :: run) = prev_char (Some x) run.
Proof. unfold prev_char. cbn [map]. apply last_cons. Qed.

Lemma prev_char_app p a b : prev_char p (a ++ b) = prev_char (prev_char p a) b.
Proof.
  revert p. induction a as [|x a IH]; intros p; [reflexivity|].
  cbn [app]. rewrite !prev_char_cons. apply IH.
Qed.

(** What the matcher returns comes from a match. *)
Lemma run_sound r :
  forall k p s g v,
    run ic r k p s g = Some v ->
    exists p' s' g', matches ic r p s g p' s' g' /\ k p' s' g' = Some v.
Proof.
  induction r as [l|rs|r1 IH1 r2 IH2|r1 IH1 r2 IH2|r1 IH1|n r1 IH1|rs|r1 IH1| |c];
    intros k p s g v.
  - rewrite run_Lit. destruct (lit_match ic l p s) as [[p' s']|] eqn:Hl; [|discriminate].
    intros H. exists p', s', g. cbn. auto.
  - rewrite run_Cls. destruct s as [|x s]; [discriminate|].
    destruct (in_class ic rs x) eqn:Hx; [|discriminate].
    intros H. exists (Some x), s, g. cbn. eauto 6.
  - rewrite run_Seq. intros H.
    destruct (IH1 _ _ _ _ _ H) as (p1 & s1 & g1 & H1 & Hk).
    destruct (IH2 _ _ _ _ _ Hk) as (p2 & s2 & g2 & H2 & Hk2).
    exists p2, s2, g2. split; [|exact Hk2]. cbn. eauto 6.
  - rewrite run_Alt. intros H. apply or_else_Some in H. destruct H as [H|[_ H]].
    + destruct (IH1 _ _ _ _ _ H) as (p1 & s1 & g1 & H1 & Hk).
      exists p1, s1, g1. cbn. auto.
    + destruct (IH2 _ _ _ _ _ H) as (p1 & s1 & g1 & H1 & Hk).
      exists p1, s1, g1. cbn. auto.
  - rewrite run_Opt. intros H. apply or_else_Some in H. destruct H as [H|[_ H]].
    + destruct (IH1 _ _ _ _ _ H) as (p1 & s1 & g1 & H1 & Hk).
      exists p1, s1, g1. cbn. auto.
    + exists p, s, g. cbn. auto.
  - revert k p s g v. induction n as [|n IHn]; intros k p s g v.
    + rewrite run_Rep_O. intros H. exists p, s, g. cbn. auto.
    + rewrite run_Rep_S. intros H.
      destruct (IH1 _ _ _ _ _ H) as (p1 & s1 & g1 & H1 & Hk).
      destruct (IHn _ _ _ _ _ Hk) as (p2 & s2 & g2 & H2 & Hk2).
      exists p2, s2, g2. split; [|exact Hk2]. apply matches_Rep_S. eauto 6.
  - revert p. induction s as [|x s IHs]; intros p.
    + rewrite run_Many_nil. intros H. exists p, [], g. split; [|exact H].
      exists []. cbn. auto.
    + rewrite run_Many_cons.
      assert (Hhere : k p (x :: s) g = Some v ->
                      exists p' s' g',
                        matches ic (Many rs) p (x :: s) g p' s' g' /\ k p' s' g' = Some v).
      { intros H. exists p, (x :: s), g. split; [|exact H]. exists []. cbn. auto. }
      destruct (in_class ic rs x) eqn:Hx; [|exact Hhere].
      intros H. apply or_else_Some in H. destruct H as [H|[_ H]]; [|auto].
      destruct (IHs _ H) as (p' & s' & g' & (run & -> & Hrun & -> & ->) & Hk).
      exists (prev_char (Some x) run), s', g. split; [|exact Hk].
      exists (x :: run). cbn [app forallb]. rewrite Hx, Hrun, prev_char_cons.
      repeat split.
  - rewrite run_Grp. intros H.
    destruct (IH1 _ _ _ _ _ H) as (p1 & s1 & g1 & H1 & Hk).
    exists p1, s1, (g1 ++ [firstn (length s - length s1) s]). split; [|exact Hk].
    exists g1. auto.
  - rewrite run_WordB. destruct (word_boundary p s) eqn:Hb; [|discriminate].
    intros H. exists p, s, g. cbn. auto.
  - cbn [run]. destruct p as [x|].
    + destruct (Ascii.eqb x c) eqn:Hx; [discriminate|].
      intros H. exists (Some x), s, g. split; [|exact H]. cbn.
      repeat split. intros Heq. inversion Heq; subst.
      rewrite Ascii.eqb_refl in Hx. discriminate.
    + intros H. exists None, s, g. split; [|exact H]. cbn. repeat split. discriminate.
Qed.

(** Where something matches and the continuation accepts, the matcher
    returns a result. *)
Lemma run_complete r :
  forall k p s g p' s' g',
    matches ic r p s g p' s' g' ->
    k p' s' g' <> None ->
    run ic r k p s g <> None.
Proof.
  induction r as [l|rs|r1 IH1 r2 IH2|r1 IH1 r2 IH2|r1 IH1|n r1 IH1|rs|r1 IH1| |c];
    intros k p s g p' s' g'.
  - cbn [matches]. intros [Hl ->] Hk. rewrite run_Lit, Hl. exact Hk.
  - cbn [matches]. intros (x & -> & Hx & -> & ->) Hk. rewrite run_Cls, Hx. exact Hk.
  - cbn [matches]. intros (p1 & s1 & g1 & H1 & H2) Hk. rewrite run_Seq.
    eapply IH1; [exact H1|]. eapply IH2; [exact H2|exact Hk].
  - cbn [matches]. intros [H|H] Hk; rewrite run_Alt; apply or_else_not_None.
    + left. eapply IH1; eauto.
    + right. eapply IH2; eauto.
  - cbn [matches]. intros [H|(-> & -> & ->)] Hk; rewrite run_Opt; apply or_else_not_None.
    + left. eapply IH1; eauto.
    + right. exact Hk.
  - revert k p s g. induction n as [|n IHn]; intros k p s g.
    + cbn [matches]. intros (-> & -> & ->) Hk. rewrite run_Rep_O. exact Hk.
    + intros H Hk. apply matches_Rep_S in H.
      destruct H as (p1 & s1 & g1 & H1 & H2). rewrite run_Rep_S.
      eapply IH1; [exact H1|]. eapply IHn; [exact H2|exact Hk].
  - cbn [matches]. intros (run & -> & Hrun & -> & ->) Hk.
    revert p Hk. induction run as [|x run IHrun]; intros p Hk.
    + cbn [app]. unfold prev_char in Hk. cbn in Hk.
      destruct s' as [|y s']; [rewrite run_Many_nil; exact Hk|].
      rewrite run_Many_cons. destruct (in_class ic rs y); [|exact Hk].
      apply or_else_not_None. right. exact Hk.
    + cbn [app forallb] in *. apply andb_true_iff in Hrun. destruct Hrun as [Hx Hrun].
      rewrite run_Many_cons, Hx. apply or_else_not_None. left.
      apply IHrun; [exact Hrun|]. rewrite prev_char_cons in Hk. exact Hk.
  - cbn [matches]. intros (g1 & H1 & ->) Hk. rewrite run_Grp.
    eapply IH1; [exact H1|]. exact Hk.
  - cbn [matches]. intros (Hb & -> & -> & ->) Hk. rewrite run_WordB, Hb. exact Hk.
  - cbn [matches]. intros (Hp & -> & -> & ->) Hk. cbn [run].
    destruct p as [x|]; [|exact Hk].
    destruct (Ascii.eqb x c) eqn:Hx; [|exact Hk].
    apply Ascii.eqb_eq in Hx. subst. congruence.
Qed.

End MatcherCorrect.

(** ** Searching *)

Section SearchCorrect.

Lemma match_here_sound p prev s s' g :
  match_here p prev s = Some (s', g) ->
  exists p', matches (re_ignorecase p) (re_ast p) prev s [] p' s' g.
Proof.
  unfold match_here. intros H. apply run_sound in H.
  destruct H as (p' & s1 & g1 & Hm & Hk). inversion Hk; subst. eauto.
Qed.

Lemma match_here_complete p prev s p' s' g :
  matches (re_ignorecase p) (re_ast p) prev s [] p' s' g ->
  match_here p prev s <> None.
Proof.
  unfold match_here. intros H. eapply run_complete; [exact H|discriminate].
Qed.

(** A match that the search returns starts somewhere in the text. *)
Lemma search_from_sound p s :
  forall prev i m,
    search_from p prev s i = Some m ->
    exists pre rest s',
      s = pre ++ rest
      /\ match_here p (prev_char prev pre) rest = Some (s', m_groups m).
Proof.
  induction s as [|x s IH]; intros prev i m; cbn [search_from].
  - destruct (match_here p prev []) as [[s' g]|] eqn:Hm; [|discriminate].
    intros H. inversion H; subst. exists [], [], s'. auto.
  - destruct (match_here p prev (x :: s)) as [[s' g]|] eqn:Hm.
    + intros H. inversion H; subst. exists [], (x :: s), s'. auto.
    + intros H. destruct (IH _ _ _ H) as (pre & rest & s' & -> & Hrest).
      exists (x :: pre), rest, s'. rewrite prev_char_cons. auto.
Qed.

(** The search finds a match wherever one starts. *)
Lemma search_from_complete p pre rest :
  forall prev i,
    match_here p (prev_char prev pre) rest <> None ->
    search_from p prev (pre ++ rest) i <> None.
Proof.
  induction pre as [|x pre IH]; intros prev i Hm.
  - cbn [app]. change (prev_char prev []) with prev in Hm.
    destruct rest as [|y rest]; cbn [search_from];
      destruct (match_here p prev _) as [[s' g]|]; congruence.
  - cbn [app search_from]. destruct (match_here p prev _) as [[s' g]|]; [discriminate|].
    apply IH. rewrite prev_char_cons in Hm. exact Hm.
Qed.

End SearchCorrect.

(** ** The normalizer *)

Section NormalizerProperties.

Lemma eqb_LF_sym c : Ascii.eqb LF c = Ascii.eqb c LF.
Proof. apply Ascii.eqb_sym. Qed.

(** *** Step 1 *)

Lemma replace_CR s :
  str_replace [CR] [LF] s = map (fun c => if Ascii.eqb c CR then LF else c) s.
Proof.
  unfold str_replace. induction s as [|c s IH]; [reflexivity|].
  cbn [replace_from starts_with map length Nat.sub app].
  rewrite (Ascii.eqb_sym CR c), andb_true_r.
  destruct (Ascii.eqb c CR); cbn [app].
  - destruct s as [|d s]; [reflexivity|].
    cbn [replace_from] in *. rewrite IH. reflexivity.
  - rewrite IH. reflexivity.
Qed.

Lemma convert_after_cr s :
  match s with c :: _ => Ascii.eqb c LF = false | [] => True end ->
  convert_line_endings true s = convert_line_endings false s.
Proof.
  destruct s as [|c s]; [reflexivity|]. intros Hc. cbn. rewrite Hc. reflexivity.
Qed.

Lemma replace_CRLF_then_CR n s :
  length s <= n ->
  map (fun c => if Ascii.eqb c CR then LF else c) (replace_from [CR; LF] [LF] s 0)
  = convert_line_endings false s.
Proof.
  revert s. induction n as [|n IH]; intros s Hlen.
  - destruct s; [reflexivity|cbn in Hlen; lia].
  - destruct s as [|c s]; [reflexivity|]. cbn [length] in Hlen.
    cbn [replace_from starts_with convert_line_endings length Nat.sub].
    rewrite (Ascii.eqb_sym CR c).
    destruct (Ascii.eqb c CR) eqn:Hc.
    + destruct s as [|d s].
      * cbn. rewrite Hc. reflexivity.
      * rewrite (Ascii.eqb_sym LF d). destruct (Ascii.eqb d LF) eqn:Hd.
        -- cbn [andb app map replace_from convert_line_endings].
           apply Ascii.eqb_eq in Hd. subst d.
           change (Ascii.eqb LF CR) with false. change (Ascii.eqb LF LF) with true.
           cbv iota. f_equal. apply IH. cbn [length] in Hlen. lia.
        -- cbn [andb map]. rewrite Hc. f_equal.
           rewrite convert_after_cr by exact Hd.
           apply IH. lia.
    + cbn [andb map]. rewrite Hc.
      destruct (Ascii.eqb c LF) eqn:Hl;
        [apply Ascii.eqb_eq in Hl; subst c|]; f_equal; apply IH; lia.
Qed.

Lemma step1_convert s :
  str_replace [CR] [LF] (str_replace [CR; LF] [LF] s) = convert_line_endings false s.
Proof.
  rewrite replace_CR. unfold str_replace. eapply replace_CRLF_then_CR. reflexivity.
Qed.

(** *** Step 2 *)

Lemma split_LF s : str_split [LF] s = lines s.
Proof.
  unfold str_split. induction s as [|c s IH]; [reflexivity|].
  cbn [split_from starts_with lines length Nat.sub].
  rewrite eqb_LF_sym, andb_true_r, IH. reflexivity.
Qed.

(** *** Step 3 *)

Lemma code_inj a b : code a = code b -> a = b.
Proof.
  unfold code. intros H.
  rewrite <- (ascii_nat_embedding a), <- (ascii_nat_embedding b), H. reflexivity.
Qed.

Lemma in_class_LF x : in_class false [(LF, LF)] x = Ascii.eqb x LF.
Proof.
  unfold in_class, in_ranges, between. cbn [existsb fst snd]. rewrite orb_false_r.
  destruct (Ascii.eqb x LF) eqn:Hx.
  - apply Ascii.eqb_eq in Hx. subst x. reflexivity.
  - apply andb_false_iff.
    destruct (Nat.leb_spec (code LF) (code x)); [|auto].
    destruct (Nat.leb_spec (code x) (code LF)); [|auto].
    apply Ascii.eqb_neq in Hx. exfalso. apply Hx, code_inj. lia.
Qed.

Lemma many_LF_run prev s :
  run false (Many [(LF, LF)]) (fun _ s' g => Some (s', g)) prev s []
  = Some (skipn (newline_run s) s, []).
Proof.
  revert prev. induction s as [|c s IH]; intros prev; [reflexivity|].
  rewrite run_Many_cons, in_class_LF. cbn [newline_run].
  destruct (Ascii.eqb c LF); [|reflexivity].
  rewrite IH. reflexivity.
Qed.

Lemma match_here_newlines3 prev s :
  match_here NEWLINES3_RE prev s =
  if 3 <=? newline_run s then Some (skipn (newline_run s) s, []) else None.
Proof.
  unfold match_here, NEWLINES3_RE, AtLeast. cbn [re_ast re_ignorecase].
  rewrite run_Seq, run_Rep_S, run_Cls.
  destruct s as [|c1 s]; [reflexivity|]. cbn [newline_run]. rewrite in_class_LF.
  destruct (Ascii.eqb c1 LF); [|reflexivity].
  rewrite run_Rep_S, run_Cls.
  destruct s as [|c2 s]; [reflexivity|]. cbn [newline_run]. rewrite in_class_LF.
  destruct (Ascii.eqb c2 LF); [|reflexivity].
  rewrite run_Rep_S, run_Cls.
  destruct s as [|c3 s]; [reflexivity|]. cbn [newline_run]. rewrite in_class_LF.
  destruct (Ascii.eqb c3 LF); [|reflexivity].
  rewrite run_Rep_O, many_LF_run. reflexivity.
Qed.

Lemma collapse_newlines_ge2 k k' s :
  2 <= k -> 2 <= k' -> collapse_newlines k s = collapse_newlines k' s.
Proof.
  revert k k'. induction s as [|c s IH]; intros k k' Hk Hk'; [reflexivity|].
  cbn [collapse_newlines]. destruct (Ascii.eqb c LF); [|reflexivity].
  destruct (Nat.ltb_spec k 2); [lia|]. destruct (Nat.ltb_spec k' 2); [lia|].
  apply IH; lia.
Qed.

Lemma newline_run_le s : newline_run s <= length s.
Proof.
  induction s as [|c s IH]; [reflexivity|]. cbn [newline_run length].
  destruct (Ascii.eqb c LF); lia.
Qed.

Lemma length_skipn_run s : length s - length (skipn (newline_run s) s) = newline_run s.
Proof. rewrite length_skipn. pose proof (newline_run_le s). lia. Qed.

Lemma sub_from_0 p repl prev c s :
  sub_from p repl prev (c :: s) 0 =
  match match_here p prev (c :: s) with
  | Some (rest, _) =>
      repl ++ match length (c :: s) - length rest with
              | O => c :: sub_from p repl (Some c) s 0
              | S n => sub_from p repl (Some c) s n
              end
  | None => c :: sub_from p repl (Some c) s 0
  end.
Proof. reflexivity. Qed.

Lemma sub_from_S p repl prev c s n :
  sub_from p repl prev (c :: s) (S n) = sub_from p repl (Some c) s n.
Proof. reflexivity. Qed.

(** The substitution and the counter agree: at the start of a run, inside
    a run too short to match, and while a matched run is dropped. *)
Lemma sub_newlines3_collapse s :
  forall prev k skip,
    (skip = 0 /\ (k = 0 \/ k + newline_run s <= 2))
    \/ (skip = newline_run s /\ 2 <= k) ->
    sub_from NEWLINES3_RE [LF; LF] prev s skip = collapse_newlines k s.
Proof.
  induction s as [|c s IH]; intros prev k skip Hst.
  - destruct skip; reflexivity.
  - destruct (Ascii.eqb c LF) eqn:Hc.
    + apply Ascii.eqb_eq in Hc. subst c.
      assert (Hrun : newline_run (LF :: s) = S (newline_run s)) by reflexivity.
      assert (Hcol : forall j, collapse_newlines j (LF :: s)
                               = if j <? 2 then LF :: collapse_newlines (S j) s
                                 else collapse_newlines (S j) s) by reflexivity.
      rewrite Hcol.
      destruct Hst as [[-> Hk] | [-> Hk]].
      * rewrite sub_from_0, match_here_newlines3.
        destruct (Nat.leb_spec 3 (newline_run (LF :: s))) as [Hlong|Hshort].
        -- rewrite length_skipn_run, Hrun. rewrite Hrun in Hlong.
           destruct Hk as [->|Hk]; [|lia]. cbn [app Nat.ltb Nat.leb].
           f_equal.
           rewrite (IH (Some LF) 2 (newline_run s)) by (right; lia).
           destruct s as [|d s]; [cbn in Hlong; lia|].
           cbn [newline_run] in Hlong. cbn [collapse_newlines].
           destruct (Ascii.eqb d LF) eqn:Hd; [|lia].
           apply Ascii.eqb_eq in Hd. subst d.
           cbn [Nat.ltb Nat.leb]. f_equal.
           apply collapse_newlines_ge2; lia.
        -- rewrite Hrun in Hshort.
           destruct (Nat.ltb_spec k 2) as [Hk2|Hk2]; [|lia].
           f_equal.
           destruct (Nat.eq_dec (newline_run s) 0) as [Hz|Hnz].
           ++ destruct (Nat.eq_dec k 0) as [->|Hk0].
              ** apply IH. left. split; [reflexivity|]. right. lia.
              ** apply IH. right. split; [symmetry; exact Hz | lia].
           ++ apply IH. left. split; [reflexivity|]. right. lia.
      * rewrite Hrun, sub_from_S.
        destruct (Nat.ltb_spec k 2) as [Hk2|Hk2]; [lia|].
        apply IH. right. split; [reflexivity|lia].
    + assert (Hrun : newline_run (c :: s) = 0) by (cbn; rewrite Hc; reflexivity).
      assert (Hcol : collapse_newlines k (c :: s) = c :: collapse_newlines 0 s)
        by (cbn; rewrite Hc; reflexivity).
      rewrite Hcol.
      assert (Hskip : skip = 0) by (destruct Hst as [[-> _]|[-> _]]; [reflexivity|exact Hrun]).
      subst skip. rewrite sub_from_0, match_here_newlines3, Hrun. cbn [Nat.leb].
      f_equal. apply IH. left. split; [reflexivity|]. left. reflexivity.
Qed.

Lemma step3_collapse s : re_sub NEWLINES3_RE [LF; LF] s = collapse_newlines 0 s.
Proof. apply sub_newlines3_collapse. left. auto. Qed.

Lemma normalize_whitespace_spec raw : normalize_whitespace raw = normalize raw.
Proof.
  unfold normalize_whitespace, normalize, strip_each_line.
  rewrite step1_convert, split_LF, step3_collapse. reflexivity.
Qed.

(** C6.  The normalizer of the source is the four steps of the
    specification: line endings are converted, every line is stripped, a run
    of three or more newlines becomes two, and the whole is stripped.  It is
    a function of its argument alone, defined on every string; the empty
    string gives the empty string, and [a CRLF CRLF CRLF b] gives
    [a LF LF b]. *)
Theorem normalize_whitespace_steps :
  (forall raw, normalize_whitespace raw = normalize raw)
  /\ normalize_whitespace [] = []
  /\ normalize_whitespace (py "a" ++ [CR; LF; CR; LF; CR; LF] ++ py "b")
     = py "a" ++ [LF; LF] ++ py "b".
Proof.
  split; [|split].
  - exact normalize_whitespace_spec.
  - reflexivity.
  - vm_compute. reflexivity.
Qed.

(** *** Stripping *)

Lemma lstrip_length s : length (lstrip s) <= length s.
Proof.
  induction s as [|c s IH]; [reflexivity|]. cbn [lstrip].
  destruct (is_space c); cbn [length]; lia.
Qed.

Lemma lstrip_fixed s :
  lstrip s = s <-> match s with c :: _ => is_space c = false | [] => True end.
Proof.
  destruct s as [|c s]; [tauto|]. cbn [lstrip].
  destruct (is_space c) eqn:Hc; split; intros H; try reflexivity; try discriminate.
  pose proof (lstrip_length s) as Hl. rewrite H in Hl. cbn [length] in Hl. lia.
Qed.

Lemma lstrip_idem s : lstrip (lstrip s) = lstrip s.
Proof.
  induction s as [|c s IH]; [reflexivity|]. cbn [lstrip].
  destruct (is_space c) eqn:Hc; [exact IH|]. cbn [lstrip]. rewrite Hc. reflexivity.
Qed.

Lemma lstrip_In c s : In c (lstrip s) -> In c s.
Proof.
  induction s as [|d s IH]; [tauto|]. cbn [lstrip].
  destruct (is_space d); [|tauto]. intros H. right. auto.
Qed.

Lemma lstrip_app a b :
  lstrip (a ++ b) = match lstrip a with [] => lstrip b | _ :: _ => lstrip a ++ b end.
Proof.
  induction a as [|c a IH]; [reflexivity|]. cbn [lstrip app].
  destruct (is_space c); [exact IH|reflexivity].
Qed.

Lemma rstrip_nil : rstrip [] = [].
Proof. reflexivity. Qed.

(** [rstrip], read from the left. *)
Lemma rstrip_cons c s :
  rstrip (c :: s) =
  match rstrip s with
  | [] => if is_space c then [] else [c]
  | _ :: _ => c :: rstrip s
  end.
Proof.
  unfold rstrip. cbn [rev]. rewrite lstrip_app.
  destruct (lstrip (rev s)) as [|d r] eqn:Hr.
  - cbn [rev lstrip]. destruct (is_space c); reflexivity.
  - destruct (rev (d :: r)) as [|x y] eqn:Hrev.
    + apply (f_equal (@length ascii)) in Hrev. rewrite length_rev in Hrev. discriminate.
    + rewrite rev_app_distr, Hrev. reflexivity.
Qed.

Lemma rstrip_length s : length (rstrip s) <= length s.
Proof.
  unfold rstrip. rewrite length_rev.
  pose proof (lstrip_length (rev s)) as H. rewrite length_rev in H. exact H.
Qed.

Lemma rstrip_In c s : In c (rstrip s) -> In c s.
Proof.
  unfold rstrip. intros H. apply in_rev in H. apply lstrip_In in H.
  apply in_rev. exact H.
Qed.

Lemma rstrip_idem s : rstrip (rstrip s) = rstrip s.
Proof. unfold rstrip. rewrite rev_involutive, lstrip_idem. reflexivity. Qed.

Lemma strip_In c s : In c (str_strip s) -> In c s.
Proof. unfold str_strip. intros H. apply lstrip_In, rstrip_In, H. Qed.

Lemma strip_length s : length (str_strip s) <= length s.
Proof.
  unfold str_strip. pose proof (rstrip_length (lstrip s)). pose proof (lstrip_length s). lia.
Qed.

(** The head of a right-stripped text is the head of the text. *)
Lemma lstrip_rstrip_fixed s : lstrip s = s -> lstrip (rstrip s) = rstrip s.
Proof.
  intros H. apply lstrip_fixed in H. apply lstrip_fixed.
  destruct s as [|c s]; [exact I|]. rewrite rstrip_cons.
  destruct (rstrip s); [rewrite H|]; cbn; auto.
Qed.

Lemma same_length_suffix (a b : pystr) : length (a ++ b) <= length b -> a = [].
Proof. destruct a; [reflexivity|]. rewrite length_app. cbn. lia. Qed.

Lemma stripped_iff l : stripped l <-> lstrip l = l /\ rstrip l = l.
Proof.
  unfold stripped, str_strip. split.
  - intros H.
    assert (Hl : lstrip l = l).
    { pose proof (rstrip_length (lstrip l)) as H1. rewrite H in H1.
      apply lstrip_fixed. destruct l as [|c l]; [exact I|].
      destruct (is_space c) eqn:Hc; [|reflexivity].
      cbn [lstrip] in H1. rewrite Hc in H1.
      pose proof (lstrip_length l). cbn [length] in H1. lia. }
    split; [exact Hl|]. rewrite Hl in H. exact H.
  - intros [Hl Hr]. rewrite Hl. exact Hr.
Qed.

Lemma strip_stripped s : stripped (str_strip s).
Proof.
  apply stripped_iff. unfold str_strip. split.
  - apply lstrip_rstrip_fixed, lstrip_idem.
  - apply rstrip_idem.
Qed.

Lemma stripped_nil : stripped [].
Proof. reflexivity. Qed.

(** *** Lines *)

Lemma lines_cons_LF s : lines (LF :: s) = [] :: lines s.
Proof. reflexivity. Qed.

Lemma lines_cons_other c s :
  Ascii.eqb c LF = false -> lines (c :: s) = continue_line [c] (lines s).
Proof.
  intros Hc. cbn [lines]. rewrite Hc. destruct (lines s); reflexivity.
Qed.

Lemma lines_nonempty s : lines s <> [].
Proof.
  destruct s as [|c s]; cbn [lines]; [discriminate|].
  destruct (Ascii.eqb c LF); [discriminate|]. destruct (lines s); discriminate.
Qed.

Lemma join_cons l l2 rest :
  str_join [LF] (l :: l2 :: rest) = l ++ LF :: str_join [LF] (l2 :: rest).
Proof. reflexivity. Qed.

Lemma join_continue c ls :
  ls <> [] -> str_join [LF] (continue_line [c] ls) = c :: str_join [LF] ls.
Proof.
  destruct ls as [|l [|l2 rest]]; [congruence| |]; intros _; reflexivity.
Qed.

Lemma join_lines s : str_join [LF] (lines s) = s.
Proof.
  induction s as [|c s IH]; [reflexivity|].
  destruct (Ascii.eqb c LF) eqn:Hc.
  - apply Ascii.eqb_eq in Hc. subst c. rewrite lines_cons_LF.
    destruct (lines s) as [|l rest] eqn:Hl; [destruct (lines_nonempty _ Hl)|].
    rewrite join_cons, IH. reflexivity.
  - rewrite lines_cons_other, join_continue, IH by auto using lines_nonempty.
    reflexivity.
Qed.

Lemma lines_no_LF s : Forall (fun l => ~ In LF l) (lines s).
Proof.
  induction s as [|c s IH]; [repeat constructor; tauto|].
  destruct (Ascii.eqb c LF) eqn:Hc.
  - apply Ascii.eqb_eq in Hc. subst c. rewrite lines_cons_LF. constructor; [tauto|exact IH].
  - rewrite lines_cons_other by exact Hc.
    apply Ascii.eqb_neq in Hc.
    destruct IH as [|l rest Hl Hrest]; cbn.
    + repeat constructor. intros [H|[]]. congruence.
    + constructor; [|exact Hrest]. intros [H|H]; [congruence|tauto].
Qed.

Lemma lines_app_no_LF l s :
  ~ In LF l -> lines (l ++ s) = continue_line l (lines s).
Proof.
  induction l as [|c l IH]; intros Hl.
  - cbn. destruct (lines s) eqn:H; [destruct (lines_nonempty _ H)|reflexivity].
  - cbn [app]. assert (Hc : Ascii.eqb c LF = false).
    { apply Ascii.eqb_neq. intros ->. apply Hl. left. reflexivity. }
    rewrite lines_cons_other, IH by (cbn in Hl; tauto).
    destruct (lines s); reflexivity.
Qed.

Lemma lines_join ls :
  ls <> [] -> Forall (fun l => ~ In LF l) ls -> lines (str_join [LF] ls) = ls.
Proof.
  induction ls as [|l rest IH]; [congruence|]. intros _ Hall.
  inversion Hall as [|? ? Hl Hrest]; subst.
  destruct rest as [|l2 rest].
  - cbn [str_join]. rewrite <- (app_nil_r l) at 1.
    rewrite lines_app_no_LF by exact Hl. cbn. rewrite app_nil_r. reflexivity.
  - rewrite join_cons. rewrite lines_app_no_LF by auto.
    rewrite lines_cons_LF. rewrite IH by (try discriminate; auto).
    cbn. rewrite app_nil_r. reflexivity.
Qed.

Lemma lines_In c l s : In l (lines s) -> In c l -> In c s.
Proof.
  revert l. induction s as [|d s IH]; intros l.
  - cbn. intros [<-|[]] [].
  - destruct (Ascii.eqb d LF) eqn:Hd.
    + apply Ascii.eqb_eq in Hd. subst d. rewrite lines_cons_LF.
      intros [<-|Hl] Hc; [destruct Hc|]. right. eauto.
    + rewrite lines_cons_other by exact Hd.
      destruct (lines s) as [|l0 rest].
      * cbn. intros [<-|[]] [<-|[]]. left. reflexivity.
      * cbn [continue_line app]. intros [<-|Hl] Hc.
        -- destruct Hc as [<-|Hc]; [left; reflexivity|]. right.
           apply (IH l0); [left; reflexivity|exact Hc].
        -- right. apply (IH l); [right; exact Hl|exact Hc].
Qed.

Lemma join_In c ls : In c (str_join [LF] ls) -> c = LF \/ exists l, In l ls /\ In c l.
Proof.
  induction ls as [|l rest IH]; [intros []|].
  destruct rest as [|l2 rest].
  - cbn. intros H. right. exists l. auto.
  - rewrite join_cons. intros H. apply in_app_or in H.
    destruct H as [H|[H|H]].
    + right. exists l. cbn. auto.
    + left. auto.
    + destruct (IH H) as [->|(l' & Hl' & Hc)]; [auto|].
      right. exists l'. split; [right; exact Hl'|exact Hc].
Qed.

(** *** Steps 1 and 2 on their fixed points *)

Lemma convert_no_CR b s : ~ In CR (convert_line_endings b s).
Proof.
  revert b. induction s as [|c s IH]; intros b; [tauto|].
  cbn [convert_line_endings].
  destruct (Ascii.eqb c CR) eqn:Hcr.
  - intros [H|H]; [discriminate H|exact (IH _ H)].
  - apply Ascii.eqb_neq in Hcr.
    destruct (Ascii.eqb c LF); [destruct b|]; try apply IH;
      intros [H|H]; try (exact (IH _ H)); try discriminate H; congruence.
Qed.

Lemma convert_fixed s : ~ In CR s -> convert_line_endings false s = s.
Proof.
  induction s as [|c s IH]; [reflexivity|]. intros Hno. cbn [convert_line_endings].
  assert (Hc : Ascii.eqb c CR = false).
  { apply Ascii.eqb_neq. intros ->. apply Hno. left. reflexivity. }
  rewrite Hc. rewrite IH by (cbn in Hno; tauto).
  destruct (Ascii.eqb c LF) eqn:Hl; [|reflexivity].
  apply Ascii.eqb_eq in Hl. subst c. reflexivity.
Qed.

Lemma map_strip_fixed ls : Forall stripped ls -> map str_strip ls = ls.
Proof. induction 1 as [|l rest Hl _ IH]; cbn; [reflexivity|]. rewrite Hl, IH. reflexivity. Qed.

Lemma strip_each_line_fixed s : Forall stripped (lines s) -> strip_each_line s = s.
Proof.
  intros H. unfold strip_each_line. rewrite (map_strip_fixed H). apply join_lines.
Qed.

Lemma strip_each_line_In c s : In c (strip_each_line s) -> c = LF \/ In c s.
Proof.
  unfold strip_each_line. intros H. apply join_In in H.
  destruct H as [->|(l & Hl & Hc)]; [auto|]. right.
  apply in_map_iff in Hl. destruct Hl as (l0 & <- & Hl0).
  eapply lines_In; [exact Hl0|]. apply strip_In, Hc.
Qed.

Lemma lines_strip_each_line s :
  lines (strip_each_line s) = map str_strip (lines s).
Proof.
  unfold strip_each_line. apply lines_join.
  - destruct (lines s) eqn:H; [destruct (lines_nonempty _ H)|discriminate].
  - apply Forall_map. eapply Forall_impl; [|apply lines_no_LF].
    intros l Hl Hin. apply Hl. apply strip_In, Hin.
Qed.

Lemma strip_each_line_stripped s : Forall stripped (lines (strip_each_line s)).
Proof.
  rewrite lines_strip_each_line. apply Forall_map, Forall_forall.
  intros l _. apply strip_stripped.
Qed.

(** *** Step 3 on stripped lines *)

Lemma collapse_In c k s : In c (collapse_newlines k s) -> In c s.
Proof.
  revert k. induction s as [|d s IH]; intros k; [tauto|]. cbn [collapse_newlines].
  destruct (Ascii.eqb d LF); [destruct (k <? 2)|]; cbn [In]; intros H;
    try (destruct H as [H|H]; [left; exact H|]); right; eapply IH; exact H.
Qed.

Lemma collapse_length k s : length (collapse_newlines k s) <= length s.
Proof.
  revert k. induction s as [|d s IH]; intros k; [reflexivity|]. cbn [collapse_newlines].
  destruct (Ascii.eqb d LF); [destruct (k <? 2)|]; cbn [length];
    pose proof (IH (S k)); pose proof (IH 0); lia.
Qed.

Lemma collapse_idem k s :
  collapse_newlines k (collapse_newlines k s) = collapse_newlines k s.
Proof.
  revert k. induction s as [|c s IH]; intros k; [reflexivity|]. cbn [collapse_newlines].
  destruct (Ascii.eqb c LF) eqn:Hc.
  - destruct (Nat.ltb_spec k 2) as [Hk|Hk].
    + cbn [collapse_newlines]. rewrite Hc.
      destruct (Nat.ltb_spec k 2) as [Hk'|Hk']; [|lia]. rewrite IH. reflexivity.
    + rewrite (@collapse_newlines_ge2 k (S k)) by lia. apply IH.
  - cbn [collapse_newlines]. rewrite Hc, IH. reflexivity.
Qed.

(** A text without a run of three LFs has none when read from a later
    point of a run. *)
Lemma collapse_fixed_mono j k s :
  j <= k -> collapse_newlines k s = s -> collapse_newlines j s = s.
Proof.
  revert j k. induction s as [|c s IH]; intros j k Hjk; [reflexivity|].
  cbn [collapse_newlines]. destruct (Ascii.eqb c LF).
  - destruct (Nat.ltb_spec k 2) as [Hk|Hk].
    + destruct (Nat.ltb_spec j 2) as [Hj|Hj]; [|lia]. intros H. inversion H as [H1].
      rewrite H1. f_equal. apply (IH (S j) (S k)); [lia|exact H1].
    + intros H. pose proof (collapse_length (S k) s) as Hl. rewrite H in Hl.
      cbn [length] in Hl. lia.
  - intros H. inversion H as [H1]. rewrite H1. f_equal. exact H1.
Qed.

Lemma collapse_fixed_tail k c s :
  collapse_newlines k (c :: s) = c :: s -> collapse_newlines 0 s = s.
Proof.
  cbn [collapse_newlines]. destruct (Ascii.eqb c LF).
  - destruct (Nat.ltb_spec k 2) as [Hk|Hk].
    + intros H. inversion H as [H1]. rewrite H1.
      apply (@collapse_fixed_mono 0 (S k)); [lia|exact H1].
    + intros H. pose proof (collapse_length (S k) s) as Hl. rewrite H in Hl.
      cbn [length] in Hl. lia.
  - intros H. inversion H as [H1]. rewrite H1. exact H1.
Qed.

Lemma collapse_fixed_lstrip s :
  collapse_newlines 0 s = s -> collapse_newlines 0 (lstrip s) = lstrip s.
Proof.
  induction s as [|c s IH]; [reflexivity|]. intros H. cbn [lstrip].
  destruct (is_space c); [|exact H]. apply IH. eapply collapse_fixed_tail. exact H.
Qed.

Lemma not_space_not_LF c : is_space c = false -> Ascii.eqb c LF = false.
Proof.
  intros H. apply Ascii.eqb_neq. intros ->. discriminate H.
Qed.

Lemma collapse_cons k c s :
  collapse_newlines k (c :: s) =
  if Ascii.eqb c LF
  then if k <? 2 then c :: collapse_newlines (S k) s else collapse_newlines (S k) s
  else c :: collapse_newlines 0 s.
Proof. reflexivity. Qed.

Lemma collapse_fixed_rstrip k s :
  collapse_newlines k s = s -> collapse_newlines k (rstrip s) = rstrip s.
Proof.
  revert k. induction s as [|c s IH]; intros k H; [reflexivity|].
  rewrite rstrip_cons. destruct (rstrip s) as [|d r] eqn:Hr.
  - destruct (is_space c) eqn:Hc; [reflexivity|].
    rewrite collapse_cons, (not_space_not_LF _ Hc). reflexivity.
  - rewrite collapse_cons in H |- *. destruct (Ascii.eqb c LF).
    + destruct (Nat.ltb_spec k 2) as [Hk|Hk].
      * inversion H as [H1]. f_equal. apply IH. exact H1.
      * pose proof (collapse_length (S k) s) as Hl. rewrite H in Hl.
        cbn [length] in Hl. lia.
    + inversion H as [H1]. f_equal. apply IH. exact H1.
Qed.

Lemma collapse_fixed_strip s :
  collapse_newlines 0 s = s -> collapse_newlines 0 (str_strip s) = str_strip s.
Proof.
  intros H. unfold str_strip. apply collapse_fixed_rstrip, collapse_fixed_lstrip, H.
Qed.

Lemma continue_line_cons c pre ls :
  continue_line pre (continue_line [c] ls) = continue_line (pre ++ [c]) ls.
Proof.
  destruct ls as [|l rest]; cbn; rewrite <- ?app_assoc; reflexivity.
Qed.

(** The lines of the collapsed text are lines of the text, or empty. *)
Lemma collapse_lines (Q : pystr -> Prop) s :
  Q [] ->
  forall k pre,
    k < 2 \/ pre = [] ->
    Forall Q (continue_line pre (lines s)) ->
    Forall Q (continue_line pre (lines (collapse_newlines k s))).
Proof.
  intros Hnil. induction s as [|c s IH]; intros k pre Hk Hall; [exact Hall|].
  cbn [collapse_newlines]. destruct (Ascii.eqb c LF) eqn:Hc.
  - apply Ascii.eqb_eq in Hc. subst c. rewrite lines_cons_LF in Hall.
    cbn [continue_line] in Hall. rewrite app_nil_r in Hall.
    inversion Hall as [|? ? Hpre Hrest]; subst.
    assert (Hrec : Forall Q (lines (collapse_newlines (S k) s))).
    { specialize (IH (S k) [] (or_intror eq_refl)).
      destruct (lines s) as [|l rest] eqn:Hl; [destruct (lines_nonempty _ Hl)|].
      cbn [continue_line app] in IH. specialize (IH Hrest).
      destruct (lines (collapse_newlines (S k) s)) as [|l' rest'] eqn:Hl';
        [constructor|exact IH]. }
    destruct (Nat.ltb_spec k 2) as [Hk2|Hk2].
    + rewrite lines_cons_LF. cbn [continue_line]. rewrite app_nil_r.
      constructor; assumption.
    + destruct Hk as [Hk| ->]; [lia|].
      destruct (lines (collapse_newlines (S k) s)) as [|l' rest'] eqn:Hl';
        [destruct (lines_nonempty _ Hl')|exact Hrec].
  - rewrite lines_cons_other in * by exact Hc.
    rewrite continue_line_cons in *. apply IH; [left; lia|exact Hall].
Qed.

Lemma collapse_lines_stripped k s :
  k < 2 ->
  Forall stripped (lines s) -> Forall stripped (lines (collapse_newlines k s)).
Proof.
  intros Hk H.
  pose proof (@collapse_lines stripped s stripped_nil k [] (or_introl Hk)) as Hc.
  destruct (lines s) as [|l rest] eqn:Hl; [destruct (lines_nonempty _ Hl)|].
  destruct (lines (collapse_newlines k s)) as [|l' rest'] eqn:Hl';
    [constructor|]. apply Hc. exact H.
Qed.

(** *** Step 4 on stripped lines *)

Lemma rstrip_app a b :
  rstrip (a ++ b) = match rstrip b with [] => rstrip a | _ :: _ => a ++ rstrip b end.
Proof.
  induction a as [|c a IH]; cbn [app].
  - destruct (rstrip b); reflexivity.
  - rewrite rstrip_cons, IH. destruct (rstrip b) as [|d r].
    + rewrite rstrip_cons. reflexivity.
    + destruct a; reflexivity.
Qed.

Lemma drop_leading_empty_Forall (Q : pystr -> Prop) ls :
  Forall Q ls -> Forall Q (drop_leading_empty ls).
Proof.
  induction 1 as [|l rest Hl Hrest IH]; [constructor|].
  cbn [drop_leading_empty]. destruct l; [|constructor; assumption].
  destruct rest; [constructor; assumption|exact IH].
Qed.

Lemma drop_leading_empty_nonempty ls : ls <> [] -> drop_leading_empty ls <> [].
Proof.
  induction ls as [|l rest IH]; [congruence|]. intros _. cbn [drop_leading_empty].
  destruct l; [|discriminate]. destruct rest; [discriminate|]. apply IH. discriminate.
Qed.

Lemma drop_trailing_empty_Forall (Q : pystr -> Prop) ls :
  Forall Q ls -> Forall Q (drop_trailing_empty ls).
Proof.
  induction 1 as [|l rest Hl Hrest IH]; [constructor|].
  cbn [drop_trailing_empty]. destruct (forallb is_nil rest); repeat constructor; assumption.
Qed.

Lemma drop_trailing_empty_nonempty ls : ls <> [] -> drop_trailing_empty ls <> [].
Proof.
  destruct ls as [|l rest]; [congruence|]. intros _. cbn [drop_trailing_empty].
  destruct (forallb is_nil rest); discriminate.
Qed.

Lemma lstrip_join ls :
  ls <> [] -> Forall stripped ls ->
  lstrip (str_join [LF] ls) = str_join [LF] (drop_leading_empty ls).
Proof.
  induction ls as [|l rest IH]; [congruence|]. intros _ Hall.
  inversion Hall as [|? ? Hl Hrest]; subst.
  apply stripped_iff in Hl. destruct Hl as [Hl _].
  destruct rest as [|l2 rest].
  - cbn [str_join drop_leading_empty]. destruct l; exact Hl.
  - destruct l as [|c l].
    + cbn [drop_leading_empty]. rewrite join_cons. cbn [app lstrip].
      change (is_space LF) with true. cbv iota. apply IH; [discriminate|exact Hrest].
    + cbn [drop_leading_empty]. rewrite join_cons. apply lstrip_fixed.
      apply lstrip_fixed in Hl. exact Hl.
Qed.

Lemma join_drop_trailing_nonempty ls :
  forallb is_nil ls = false -> str_join [LF] (drop_trailing_empty ls) <> [].
Proof.
  induction ls as [|l rest IH]; [discriminate|]. cbn [forallb drop_trailing_empty].
  destruct (forallb is_nil rest) eqn:Hrest.
  - rewrite andb_true_r. destruct l; [discriminate|]. cbn. discriminate.
  - intros _. pose proof (IH eq_refl) as Hne.
    destruct (drop_trailing_empty rest) as [|l2 rest'] eqn:Hd.
    + cbn in Hne. congruence.
    + rewrite join_cons. destruct l; discriminate.
Qed.

Lemma rstrip_join ls :
  ls <> [] -> Forall stripped ls ->
  rstrip (str_join [LF] ls) = str_join [LF] (drop_trailing_empty ls).
Proof.
  induction ls as [|l rest IH]; [congruence|]. intros _ Hall.
  inversion Hall as [|? ? Hl Hrest]; subst.
  apply stripped_iff in Hl. destruct Hl as [_ Hl].
  destruct rest as [|l2 rest].
  - cbn [str_join drop_trailing_empty forallb]. exact Hl.
  - specialize (IH ltac:(discriminate) Hrest).
    rewrite join_cons, rstrip_app, rstrip_cons, IH.
    cbn [drop_trailing_empty].
    destruct (forallb is_nil (l2 :: rest)) eqn:Hnil.
    + cbn [forallb] in Hnil. apply andb_true_iff in Hnil. destruct Hnil as [H2 Hr].
      rewrite Hr. destruct l2; [|discriminate]. cbn [str_join]. exact Hl.
    + pose proof (join_drop_trailing_nonempty _ Hnil) as Hne.
      cbn [drop_trailing_empty] in Hne.
      destruct (str_join [LF]
                  (if forallb is_nil rest then [l2] else l2 :: drop_trailing_empty rest))
        as [|d r] eqn:Hj; [congruence|].
      destruct (if forallb is_nil rest then [l2] else l2 :: drop_trailing_empty rest)
        as [|l3 rest3] eqn:Hd.
      * destruct (forallb is_nil rest); discriminate.
      * rewrite join_cons, Hj. reflexivity.
Qed.

Lemma strip_lines_stripped s :
  Forall stripped (lines s) -> Forall stripped (lines (str_strip s)).
Proof.
  intros Hall. unfold str_strip.
  rewrite <- (join_lines s) at 1.
  rewrite lstrip_join by (auto using lines_nonempty).
  rewrite rstrip_join
    by (auto using drop_leading_empty_nonempty, drop_leading_empty_Forall, lines_nonempty).
  rewrite lines_join.
  - apply drop_trailing_empty_Forall, drop_leading_empty_Forall, Hall.
  - apply drop_trailing_empty_nonempty, drop_leading_empty_nonempty, lines_nonempty.
  - apply drop_trailing_empty_Forall, drop_leading_empty_Forall, lines_no_LF.
Qed.

(** *** Normal forms *)

Lemma normalize_normal_form s : normal_form (normalize s).
Proof.
  unfold normal_form, normalize. repeat split.
  - intros H. apply strip_In, collapse_In, strip_each_line_In in H.
    destruct H as [H|H]; [discriminate H|]. exact (convert_no_CR _ _ H).
  - apply strip_lines_stripped, collapse_lines_stripped; [lia|].
    apply strip_each_line_stripped.
  - apply collapse_fixed_strip, collapse_idem.
  - apply strip_stripped.
Qed.

Lemma normal_form_fixed s : normal_form s -> normalize s = s.
Proof.
  intros (Hcr & Hlines & Hcol & Hstrip). unfold normalize.
  rewrite convert_fixed by exact Hcr.
  rewrite strip_each_line_fixed by exact Hlines.
  rewrite Hcol. exact Hstrip.
Qed.

(** C7.  Normalizing a normalized text changes nothing. *)
Theorem normalize_whitespace_idempotent x :
  normalize_whitespace (normalize_whitespace x) = normalize_whitespace x.
Proof.
  rewrite !normalize_whitespace_spec. apply normal_form_fixed, normalize_normal_form.
Qed.

End NormalizerProperties.

(** ** The identifier extractor *)

Section IdentProperties.

Ltac each_char c := destruct c as [[] [] [] [] [] [] [] []]; vm_compute; try reflexivity; try discriminate.

Lemma hex_class c : in_class true HEX c = is_hex c.
Proof. each_char c. Qed.

Lemma hex_is_word c : is_hex c = true -> is_word c = true.
Proof. each_char c. Qed.

Lemma hex_not_space c : is_hex c = true -> is_space c = false.
Proof. each_char c. Qed.

Lemma space_not_word c : is_space c = true -> is_word c = false.
Proof. each_char c. Qed.

Lemma lower_space c : is_space (lower c) = is_space c.
Proof. each_char c. Qed.

Lemma lower_hex c : is_hex c = true -> is_hex (lower c) = true /\ lower (lower c) = lower c.
Proof. each_char c; intros _; split; reflexivity. Qed.

Lemma lower_slash c : lower c = "/"%char -> c = "/"%char.
Proof. each_char c. Qed.

(** *** Literals, under [re.IGNORECASE] *)

Lemma lit_match_sound l :
  forall p s p' s',
    lit_match true l p s = Some (p', s') ->
    exists l', s = l' ++ s' /\ str_lower l' = str_lower l /\ p' = prev_char p l'.
Proof.
  induction l as [|c l IH]; intros p s p' s'; cbn [lit_match].
  - intros H. inversion H; subst. exists []. auto.
  - destruct s as [|x s]; [discriminate|].
    unfold chr_eq. destruct (Ascii.eqb (lower c) (lower x)) eqn:Hx; [|discriminate].
    apply Ascii.eqb_eq in Hx. intros H.
    destruct (IH _ _ _ _ H) as (l' & -> & Hl & ->).
    exists (x :: l'). cbn [app str_lower map]. unfold str_lower in Hl.
    rewrite Hl, Hx, prev_char_cons. auto.
Qed.

Lemma lit_match_complete l :
  forall l' p s',
    str_lower l' = str_lower l ->
    lit_match true l p (l' ++ s') = Some (prev_char p l', s').
Proof.
  induction l as [|c l IH]; intros l' p s' Hl.
  - destruct l'; [reflexivity|discriminate].
  - destruct l' as [|x l']; [discriminate|]. cbn [str_lower map] in Hl.
    inversion Hl as [[Hx Hrest]]. cbn [app lit_match]. unfold chr_eq.
    rewrite Hx, Ascii.eqb_refl, prev_char_cons. apply IH. exact Hrest.
Qed.

(** *** A run of [n] characters of a class *)

Lemma matches_Rep_Cls ic rs n :
  forall p s g p' s' g',
    matches ic (Rep n (Cls rs)) p s g p' s' g' <->
    exists tok,
      s = tok ++ s' /\ length tok = n /\ forallb (in_class ic rs) tok = true
      /\ p' = prev_char p tok /\ g' = g.
Proof.
  induction n as [|n IH]; intros p s g p' s' g'.
  - cbn [matches]. split.
    + intros (-> & -> & ->). exists []. auto.
    + intros (tok & -> & Hlen & _ & -> & ->).
      destruct tok; [auto|discriminate].
  - rewrite matches_Rep_S. split.
    + intros (p1 & s1 & g1 & (x & -> & Hx & -> & ->) & Hrest).
      apply IH in Hrest. destruct Hrest as (tok & -> & Hlen & Htok & -> & ->).
      exists (x :: tok). cbn [app length forallb]. rewrite Hx, Htok, Hlen, prev_char_cons.
      auto.
    + intros (tok & -> & Hlen & Htok & -> & ->).
      destruct tok as [|x tok]; [discriminate|].
      cbn [forallb] in Htok. apply andb_true_iff in Htok. destruct Htok as [Hx Htok].
      exists (Some x), (tok ++ s'), g. split.
      * exists x. auto.
      * apply IH. exists tok. cbn [length] in Hlen. rewrite prev_char_cons.
        repeat split; auto.
Qed.

Lemma firstn_consumed (tok s' : pystr) :
  firstn (length (tok ++ s') - length s') (tok ++ s') = tok.
Proof.
  rewrite length_app. replace (length tok + length s' - length s') with (length tok) by lia.
  rewrite firstn_app, Nat.sub_diag, firstn_all. cbn. apply app_nil_r.
Qed.

Lemma hex_forallb tok :
  forallb (in_class true HEX) tok = forallb is_hex tok.
Proof.
  induction tok as [|c tok IH]; cbn [forallb]; [reflexivity|].
  rewrite hex_class, IH. reflexivity.
Qed.

Lemma matches_Grp ic r p s g p' s' g' :
  matches ic (Grp r) p s g p' s' g' <->
  exists g1, matches ic r p s g p' s' g1
             /\ g' = g1 ++ [firstn (length s - length s') s].
Proof. reflexivity. Qed.

Lemma matches_Seq ic r1 r2 p s g p' s' g' :
  matches ic (Seq r1 r2) p s g p' s' g' <->
  exists p1 s1 g1, matches ic r1 p s g p1 s1 g1 /\ matches ic r2 p1 s1 g1 p' s' g'.
Proof. reflexivity. Qed.

(** The group of the two patterns: 32 hexadecimal digits. *)
Lemma matches_token p s g p' s' g' :
  matches true (Grp (Rep 32 (Cls HEX))) p s g p' s' g' <->
  exists tok, s = tok ++ s' /\ hex_token tok /\ p' = prev_char p tok /\ g' = g ++ [tok].
Proof.
  split.
  - intros H. apply matches_Grp in H. destruct H as (g1 & H & ->).
    apply matches_Rep_Cls in H.
    destruct H as (tok & -> & Hlen & Htok & -> & ->).
    exists tok. rewrite firstn_consumed. rewrite hex_forallb in Htok.
    unfold hex_token. auto.
  - intros (tok & -> & [Hlen Htok] & -> & ->). apply matches_Grp. exists g. split.
    + apply matches_Rep_Cls. exists tok. rewrite hex_forallb. auto.
    + rewrite firstn_consumed. reflexivity.
Qed.

(** Every match consumes a prefix of the text. *)
Lemma matches_consumes ic r :
  forall p s g p' s' g',
    matches ic r p s g p' s' g' -> exists consumed, s = consumed ++ s'.
Proof.
  induction r as [l|rs|r1 IH1 r2 IH2|r1 IH1 r2 IH2|r1 IH1|n r1 IH1|rs|r1 IH1| |c];
    intros p s g p' s' g'; cbn [matches].
  - intros [H _]. revert p s H. induction l as [|c l IHl]; intros p s; cbn [lit_match].
    + intros H. inversion H. exists []. reflexivity.
    + destruct s as [|x s]; [discriminate|]. destruct (chr_eq ic c x); [|discriminate].
      intros H. destruct (IHl _ _ H) as [consumed ->]. exists (x :: consumed). reflexivity.
  - intros (x & -> & _). exists [x]. reflexivity.
  - intros (p1 & s1 & g1 & H1 & H2).
    destruct (IH1 _ _ _ _ _ _ H1) as [c1 ->]. destruct (IH2 _ _ _ _ _ _ H2) as [c2 ->].
    exists (c1 ++ c2). apply app_assoc.
  - intros [H|H]; eauto.
  - intros [H|(_ & -> & _)]; [eauto|]. exists []. reflexivity.
  - revert p s g. induction n as [|n IHn]; intros p s g.
    + intros (_ & -> & _). exists []. reflexivity.
    + intros (p1 & s1 & g1 & H1 & H2).
      destruct (IH1 _ _ _ _ _ _ H1) as [c1 ->]. destruct (IHn _ _ _ H2) as [c2 ->].
      exists (c1 ++ c2). apply app_assoc.
  - intros (run & -> & _). eauto.
  - intros (g1 & H & _). eauto.
  - intros (_ & _ & -> & _). exists []. reflexivity.
  - intros (_ & _ & -> & _). exists []. reflexivity.
Qed.

Lemma matches_group_free ic r :
  group_free r = true ->
  forall p s g p' s' g', matches ic r p s g p' s' g' -> g' = g.
Proof.
  induction r as [l|rs|r1 IH1 r2 IH2|r1 IH1 r2 IH2|r1 IH1|n r1 IH1|rs|r1 IH1| |c];
    cbn [group_free]; intros Hfree p s g p' s' g'; cbn [matches].
  - intros [_ H]. exact H.
  - intros (x & _ & _ & _ & H). exact H.
  - apply andb_true_iff in Hfree. destruct Hfree as [H1 H2].
    intros (p1 & s1 & g1 & Hm1 & Hm2).
    rewrite (IH2 H2 _ _ _ _ _ _ Hm2). exact (IH1 H1 _ _ _ _ _ _ Hm1).
  - apply andb_true_iff in Hfree. destruct Hfree as [H1 H2].
    intros [H|H]; eauto.
  - intros [H|(_ & _ & H)]; eauto.
  - revert p s g. induction n as [|n IHn]; intros p s g.
    + intros (_ & _ & H). exact H.
    + intros (p1 & s1 & g1 & Hm1 & Hm2).
      rewrite (IHn _ _ _ Hm2). exact (IH1 Hfree _ _ _ _ _ _ Hm1).
  - intros (run & _ & _ & _ & H). exact H.
  - discriminate.
  - intros (_ & _ & _ & H). exact H.
  - intros (_ & _ & _ & H). exact H.
Qed.

(** *** The URL pattern *)

Lemma url_ast :
  re_ast _URL_ID_RE =
  Seq URL_SCHEME
    (Seq (Opt (Lit (py "www.")))
       (Seq (Lit (py "loom.com/"))
          (Seq URL_SEGMENT (Seq (Lit (py "/")) (Grp (Rep 32 (Cls HEX))))))).
Proof. reflexivity. Qed.

Lemma matches_Lit_sound l p s g p' s' g' :
  matches true (Lit l) p s g p' s' g' ->
  exists l', s = l' ++ s' /\ str_lower l' = str_lower l /\ p' = prev_char p l' /\ g' = g.
Proof.
  cbn [matches]. intros [H ->]. apply lit_match_sound in H.
  destruct H as (l' & -> & Hl & ->). eauto.
Qed.

Lemma matches_Lit_complete l l' p s' g :
  str_lower l' = str_lower l ->
  matches true (Lit l) p (l' ++ s') g (prev_char p l') s' g.
Proof. intros H. cbn [matches]. split; [apply lit_match_complete, H|reflexivity]. Qed.

Lemma segment_sound p s g p' s' g' :
  matches true URL_SEGMENT p s g p' s' g' ->
  exists seg, s = seg ++ s'
              /\ In (str_lower seg) [py "share"; py "embed"; py "recording"]
              /\ p' = prev_char p seg /\ g' = g.
Proof.
  unfold URL_SEGMENT. cbn [matches].
  intros [[H ->]|[[H ->]|[H ->]]]; apply lit_match_sound in H;
    destruct H as (seg & -> & Hl & ->); exists seg; cbn [In]; auto 6.
Qed.

Lemma segment_complete seg p s' g :
  In (str_lower seg) [py "share"; py "embed"; py "recording"] ->
  matches true URL_SEGMENT p (seg ++ s') g (prev_char p seg) s' g.
Proof.
  unfold URL_SEGMENT. cbn [In].
  intros [H|[H|[H|[]]]]; symmetry in H.
  - left. apply matches_Lit_complete. exact H.
  - right. left. apply matches_Lit_complete. exact H.
  - right. right. apply matches_Lit_complete. exact H.
Qed.

Lemma lower_is_slash l : str_lower l = py "/" -> l = py "/".
Proof.
  destruct l as [|x [|y l]]; try discriminate. cbn. intros H. inversion H as [Hx].
  rewrite Hx. apply lower_slash in Hx. subst x. reflexivity.
Qed.

(** A match of the URL pattern ends in a token in the recognized position. *)
Lemma url_match_sound p s p' s' g :
  matches true (re_ast _URL_ID_RE) p s [] p' s' g ->
  exists opt dom seg tok,
    s = opt ++ dom ++ seg ++ "/"%char :: tok ++ s'
    /\ str_lower dom = py "loom.com/"
    /\ In (str_lower seg) [py "share"; py "embed"; py "recording"]
    /\ hex_token tok
    /\ g = [tok].
Proof.
  rewrite url_ast. intros H.
  apply matches_Seq in H. destruct H as (p1 & s1 & g1 & H1 & H).
  pose proof (matches_group_free true URL_SCHEME eq_refl _ _ _ _ _ _ H1) as ->.
  apply matches_consumes in H1. destruct H1 as [c1 ->].
  apply matches_Seq in H. destruct H as (p2 & s2 & g2 & H2 & H).
  pose proof (matches_group_free true (Opt (Lit (py "www."))) eq_refl _ _ _ _ _ _ H2) as ->.
  apply matches_consumes in H2. destruct H2 as [c2 ->].
  apply matches_Seq in H. destruct H as (p3 & s3 & g3 & H3 & H).
  apply matches_Lit_sound in H3. destruct H3 as (dom & -> & Hdom & -> & ->).
  apply matches_Seq in H. destruct H as (p4 & s4 & g4 & H4 & H).
  apply segment_sound in H4. destruct H4 as (seg & -> & Hseg & -> & ->).
  apply matches_Seq in H. destruct H as (p5 & s5 & g5 & H5 & H).
  apply matches_Lit_sound in H5. destruct H5 as (sl & -> & Hsl & -> & ->).
  apply lower_is_slash in Hsl. subst sl.
  apply matches_token in H. destruct H as (tok & -> & Htok & -> & ->).
  exists (c1 ++ c2), dom, seg, tok. rewrite <- !app_assoc. cbn [app py list_ascii_of_string].
  split; [reflexivity|]. split; [exact Hdom|]. auto.
Qed.

(** Where a token stands in the recognized position, the URL pattern
    matches from [loom.com/] on. *)
Lemma url_match_complete p dom seg tok post :
  str_lower dom = py "loom.com/" ->
  In (str_lower seg) [py "share"; py "embed"; py "recording"] ->
  hex_token tok ->
  exists p',
    matches true (re_ast _URL_ID_RE) p (dom ++ seg ++ "/"%char :: tok ++ post) []
            p' post [tok].
Proof.
  intros Hdom Hseg Htok. rewrite url_ast. eexists.
  apply matches_Seq. do 3 eexists. split; [right; repeat split|].
  apply matches_Seq. do 3 eexists. split; [right; repeat split|].
  apply matches_Seq. do 3 eexists. split; [apply matches_Lit_complete; exact Hdom|].
  apply matches_Seq. do 3 eexists. split; [apply segment_complete; exact Hseg|].
  apply matches_Seq. do 3 eexists. split.
  - apply (matches_Lit_complete (py "/") (py "/")). reflexivity.
  - apply matches_token. exists tok. repeat split; auto; apply Htok.
Qed.

Lemma group_1 i text tok : group 1 (ReMatch i text [tok]) = tok.
Proof. reflexivity. Qed.

Lemma url_search_sound s m :
  re_search _URL_ID_RE s = Some m -> url_token s (group 1 m).
Proof.
  unfold re_search. intros H. apply search_from_sound in H.
  destruct H as (pre & rest & s' & -> & H). apply match_here_sound in H.
  destruct H as [p' H]. apply url_match_sound in H.
  destruct H as (opt & dom & seg & tok & -> & Hdom & Hseg & Htok & Hg).
  destruct m as [i text g]. cbn [m_groups] in Hg. subst g. rewrite group_1.
  exists (pre ++ opt), dom, seg, s'. rewrite <- app_assoc. auto.
Qed.

Lemma url_search_complete s tok :
  url_token s tok -> re_search _URL_ID_RE s <> None.
Proof.
  intros (pre & dom & seg & post & -> & Hdom & Hseg & Htok).
  unfold re_search. apply search_from_complete.
  destruct (url_match_complete (prev_char None pre) dom seg post Hdom Hseg Htok)
    as [p' H].
  eapply match_here_complete. exact H.
Qed.

(** *** The bare token pattern *)

Lemma id_ast :
  re_ast _LOOM_ID_RE = Seq WordB (Seq (Grp (Rep 32 (Cls HEX))) WordB).
Proof. reflexivity. Qed.

Lemma token_head tok : hex_token tok -> exists x rest, tok = x :: rest /\ is_hex x = true.
Proof.
  intros [Hlen Hhex]. destruct tok as [|x rest]; [discriminate|].
  cbn [forallb] in Hhex. apply andb_true_iff in Hhex. exists x, rest. tauto.
Qed.

Lemma token_last p tok :
  hex_token tok -> exists c, prev_char p tok = Some c /\ is_hex c = true.
Proof.
  intros [Hlen Hhex]. destruct tok as [|x tok]; [discriminate|]. clear Hlen.
  revert x p Hhex. induction tok as [|y tok IH]; intros x p Hhex.
  - cbn [forallb] in Hhex. rewrite andb_true_r in Hhex. exists x. auto.
  - rewrite prev_char_cons. cbn [forallb] in Hhex. apply andb_true_iff in Hhex.
    apply IH. tauto.
Qed.

Lemma id_match_sound p s p' s' g :
  matches true (re_ast _LOOM_ID_RE) p s [] p' s' g ->
  exists tok,
    s = tok ++ s' /\ hex_token tok /\ g = [tok]
    /\ match p with Some c => is_word c | None => false end = false
    /\ starts_with_word s' = false.
Proof.
  rewrite id_ast. intros H.
  apply matches_Seq in H. destruct H as (p1 & s1 & g1 & H1 & H).
  cbn [matches] in H1. destruct H1 as (Hb1 & -> & -> & ->).
  apply matches_Seq in H. destruct H as (p2 & s2 & g2 & H2 & H).
  apply matches_token in H2. destruct H2 as (tok & -> & Htok & -> & ->).
  cbn [matches] in H. destruct H as (Hb2 & -> & -> & ->).
  exists tok. repeat split; try apply Htok.
  - destruct (token_head Htok) as (x & rest & -> & Hx).
    unfold word_boundary in Hb1. cbn [app] in Hb1. rewrite (hex_is_word _ Hx) in Hb1.
    destruct (match p with Some c => is_word c | None => false end);
      [discriminate|reflexivity].
  - destruct (token_last p Htok) as (c & Hc & Hhex).
    unfold word_boundary in Hb2. rewrite Hc, (hex_is_word _ Hhex) in Hb2.
    unfold starts_with_word. destruct s2 as [|y s2]; [reflexivity|].
    destruct (is_word y); [discriminate|reflexivity].
Qed.

Lemma id_match_complete p tok post :
  hex_token tok ->
  match p with Some c => is_word c | None => false end = false ->
  starts_with_word post = false ->
  exists p', matches true (re_ast _LOOM_ID_RE) p (tok ++ post) [] p' post [tok].
Proof.
  intros Htok Hp Hpost. rewrite id_ast. eexists.
  apply matches_Seq. do 3 eexists. split.
  - cbn [matches]. repeat split.
    destruct (token_head Htok) as (x & rest & -> & Hx).
    unfold word_boundary. cbn [app]. rewrite Hp, (hex_is_word _ Hx). reflexivity.
  - apply matches_Seq. do 3 eexists. split.
    + apply matches_token. exists tok. repeat split; apply Htok.
    + cbn [matches app]. repeat split.
      destruct (token_last p Htok) as (c & Hc & Hhex).
      unfold word_boundary. rewrite Hc, (hex_is_word _ Hhex).
      unfold starts_with_word in Hpost. destruct post as [|y post]; [reflexivity|].
      rewrite Hpost. reflexivity.
Qed.

Lemma id_search_sound s m :
  re_search _LOOM_ID_RE s = Some m -> standalone_token s (group 1 m).
Proof.
  unfold re_search. intros H. apply search_from_sound in H.
  destruct H as (pre & rest & s' & -> & H). apply match_here_sound in H.
  destruct H as [p' H]. apply id_match_sound in H.
  destruct H as (tok & -> & Htok & Hg & Hpre & Hpost).
  destruct m as [i text g]. cbn [m_groups] in Hg. subst g. rewrite group_1.
  exists pre, s'. auto.
Qed.

Lemma id_search_complete s tok :
  standalone_token s tok -> re_search _LOOM_ID_RE s <> None.
Proof.
  intros (pre & post & -> & Htok & Hpre & Hpost).
  unfold re_search. apply search_from_complete.
  destruct (id_match_complete (prev_char None pre) post Htok Hpre Hpost) as [p' H].
  eapply match_here_complete. exact H.
Qed.

(** *** Outer whitespace does not matter *)

Lemma lstrip_decompose s : exists w, s = w ++ lstrip s /\ forallb is_space w = true.
Proof.
  induction s as [|c s IH]; [exists []; auto|]. cbn [lstrip].
  destruct (is_space c) eqn:Hc; [|exists []; auto].
  destruct IH as (w & Hs & Hw). exists (c :: w). cbn [app forallb].
  rewrite Hc, Hw, <- Hs. auto.
Qed.

Lemma rstrip_decompose s : exists w, s = rstrip s ++ w /\ forallb is_space w = true.
Proof.
  induction s as [|c s IH]; [exists []; auto|]. rewrite rstrip_cons.
  destruct IH as (w & Hs & Hw). destruct (rstrip s) as [|d r].
  - cbn [app] in Hs. subst s. destruct (is_space c) eqn:Hc.
    + exists (c :: w). cbn [app forallb]. rewrite Hc, Hw. auto.
    + exists w. auto.
  - exists w. cbn [app]. rewrite Hs at 1. auto.
Qed.

Lemma strip_decompose s :
  exists w1 w2,
    s = w1 ++ str_strip s ++ w2
    /\ forallb is_space w1 = true /\ forallb is_space w2 = true.
Proof.
  unfold str_strip.
  destruct (lstrip_decompose s) as (w1 & Hs & H1).
  destruct (rstrip_decompose (lstrip s)) as (w2 & Hl & H2).
  exists w1, w2. rewrite <- Hl, <- Hs. auto.
Qed.

Lemma rstrip_not_space X : forallb not_space X = true -> rstrip X = X.
Proof.
  induction X as [|c X IH]; [reflexivity|]. cbn [forallb]. intros H.
  apply andb_true_iff in H. destruct H as [Hc HX]. rewrite rstrip_cons, (IH HX).
  unfold not_space in Hc. apply negb_true_iff in Hc. rewrite Hc.
  destruct X; reflexivity.
Qed.

(** Stripping leaves a part without whitespace where it is. *)
Lemma strip_core pre X post :
  X <> [] -> forallb not_space X = true ->
  str_strip (pre ++ X ++ post) = lstrip pre ++ X ++ rstrip post.
Proof.
  intros Hne HX. unfold str_strip.
  assert (Hl : lstrip (pre ++ X ++ post) = lstrip pre ++ X ++ post).
  { rewrite lstrip_app. destruct X as [|x X]; [congruence|].
    cbn [forallb] in HX. apply andb_true_iff in HX. destruct HX as [Hx _].
    unfold not_space in Hx. apply negb_true_iff in Hx.
    destruct (lstrip pre); [|reflexivity]. cbn [app lstrip]. rewrite Hx. reflexivity. }
  rewrite Hl, app_assoc, rstrip_app.
  destruct (rstrip post) as [|d r] eqn:Hr.
  - rewrite rstrip_app, (rstrip_not_space _ HX), app_nil_r.
    destruct X; [congruence|reflexivity].
  - rewrite <- app_assoc. reflexivity.
Qed.

Lemma lower_not_space l l0 :
  str_lower l = l0 -> forallb not_space l0 = true -> forallb not_space l = true.
Proof.
  intros <-. induction l as [|c l IH]; [reflexivity|]. cbn [str_lower map forallb].
  unfold not_space at 1 3. rewrite lower_space. intros H.
  apply andb_true_iff in H. destruct H as [Hc Hl]. rewrite Hc. exact (IH Hl).
Qed.

Lemma token_not_space tok : hex_token tok -> forallb not_space tok = true.
Proof.
  intros [_ H]. induction tok as [|c tok IH]; [reflexivity|]. cbn [forallb] in *.
  apply andb_true_iff in H. destruct H as [Hc Htok].
  unfold not_space at 1. rewrite (hex_not_space _ Hc). exact (IH Htok).
Qed.

Lemma forallb_app_true {A} (f : A -> bool) a b :
  forallb f a = true -> forallb f b = true -> forallb f (a ++ b) = true.
Proof. intros Ha Hb. rewrite forallb_app, Ha, Hb. reflexivity. Qed.

Lemma url_token_strip s tok : url_token (str_strip s) tok <-> url_token s tok.
Proof.
  split.
  - intros (pre & dom & seg & post & Hs & Hdom & Hseg & Htok).
    destruct (strip_decompose s) as (w1 & w2 & Hdec & _). rewrite Hs in Hdec.
    exists (w1 ++ pre), dom, seg, (post ++ w2).
    split; [|auto]. rewrite Hdec, <- ?app_assoc. cbn [app]. rewrite <- ?app_assoc.
    reflexivity.
  - intros (pre & dom & seg & post & -> & Hdom & Hseg & Htok).
    exists (lstrip pre), dom, seg, (rstrip post). split; [|auto].
    replace (pre ++ dom ++ seg ++ "/"%char :: tok ++ post)
      with (pre ++ (dom ++ seg ++ "/"%char :: tok) ++ post)
      by (rewrite <- ?app_assoc; cbn [app]; rewrite <- ?app_assoc; reflexivity).
    rewrite strip_core.
    + rewrite <- ?app_assoc. cbn [app]. rewrite <- ?app_assoc. reflexivity.
    + destruct dom; [discriminate|discriminate].
    + apply forallb_app_true; [eapply lower_not_space; [exact Hdom|reflexivity]|].
      apply forallb_app_true.
      * cbn [In] in Hseg. destruct Hseg as [H|[H|[H|[]]]]; symmetry in H;
          (eapply lower_not_space; [exact H|reflexivity]).
      * cbn [forallb]. rewrite (token_not_space Htok). reflexivity.
Qed.

Lemma prev_char_nonempty p q b : b <> [] -> prev_char p b = prev_char q b.
Proof. destruct b as [|x b]; [congruence|]. intros _. rewrite !prev_char_cons. reflexivity. Qed.

Lemma ends_with_word_app a b :
  ends_with_word (a ++ b) = match b with [] => ends_with_word a | _ :: _ => ends_with_word b end.
Proof.
  destruct b as [|x b]; [rewrite app_nil_r; reflexivity|].
  unfold ends_with_word. change (last (map Some ?l) None) with (prev_char None l).
  rewrite prev_char_app. rewrite (@prev_char_nonempty _ None (x :: b)) by discriminate.
  reflexivity.
Qed.

Lemma spaces_end_no_word w : forallb is_space w = true -> ends_with_word w = false.
Proof.
  unfold ends_with_word. change (last (map Some w) None) with (prev_char None w).
  assert (H : forall p, forallb is_space w = true ->
              prev_char p w = p \/ exists c, prev_char p w = Some c /\ is_space c = true).
  { induction w as [|x w IH]; intros p Hw; [left; reflexivity|].
    cbn [forallb] in Hw. apply andb_true_iff in Hw. destruct Hw as [Hx Hw].
    rewrite prev_char_cons. destruct (IH (Some x) Hw) as [->|H]; eauto. }
  intros Hw. destruct (H None Hw) as [->|(c & -> & Hc)]; [reflexivity|].
  apply space_not_word, Hc.
Qed.

Lemma spaces_start_no_word w : forallb is_space w = true -> starts_with_word w = false.
Proof.
  destruct w as [|x w]; [reflexivity|]. cbn [forallb starts_with_word]. intros H.
  apply andb_true_iff in H. apply space_not_word, H.
Qed.

Lemma standalone_token_strip s tok :
  standalone_token (str_strip s) tok <-> standalone_token s tok.
Proof.
  split.
  - intros (pre & post & Hs & Htok & Hpre & Hpost).
    destruct (strip_decompose s) as (w1 & w2 & Hdec & H1 & H2). rewrite Hs in Hdec.
    exists (w1 ++ pre), (post ++ w2).
    split; [rewrite Hdec, <- !app_assoc; reflexivity|]. split; [exact Htok|]. split.
    + rewrite ends_with_word_app. destruct pre; [apply spaces_end_no_word, H1|exact Hpre].
    + destruct post as [|y post]; [apply spaces_start_no_word, H2|exact Hpost].
  - intros (pre & post & -> & Htok & Hpre & Hpost).
    exists (lstrip pre), (rstrip post). split; [|split; [exact Htok|split]].
    + apply strip_core; [|apply token_not_space, Htok].
      destruct (token_head Htok) as (x & rest & -> & _). discriminate.
    + destruct (lstrip_decompose pre) as (w & Hw & _).
      rewrite Hw, ends_with_word_app in Hpre.
      destruct (lstrip pre); [reflexivity|exact Hpre].
    + destruct post as [|y post]; [reflexivity|]. rewrite rstrip_cons.
      destruct (rstrip post); [destruct (is_space y)|]; try reflexivity; exact Hpost.
Qed.

(** *** The extractor *)

Lemma lower_hex_digit c : is_hex c = true -> is_lower_hex (lower c) = true.
Proof. each_char c. Qed.

Lemma lower_token tok :
  hex_token tok ->
  length (str_lower tok) = 32 /\ forallb is_lower_hex (str_lower tok) = true.
Proof.
  intros [Hlen Hhex]. unfold str_lower. rewrite length_map. split; [exact Hlen|].
  clear Hlen. induction tok as [|c tok IH]; [reflexivity|]. cbn [map forallb] in *.
  apply andb_true_iff in Hhex. destruct Hhex as [Hc Htok].
  rewrite (lower_hex_digit _ Hc). exact (IH Htok).
Qed.

Lemma extract_video_id_run item :
  extract_video_id item =
  match re_search _URL_ID_RE (str_strip item) with
  | Some m => Some (str_lower (group 1 m))
  | None =>
      match re_search _LOOM_ID_RE (str_strip item) with
      | Some m => Some (str_lower (group 1 m))
      | None => None
      end
  end.
Proof. destruct item; [vm_compute|]; reflexivity. Qed.

Lemma url_token_hex s tok : url_token s tok -> hex_token tok.
Proof. intros (pre & dom & seg & post & _ & _ & _ & H). exact H. Qed.

Lemma standalone_token_hex s tok : standalone_token s tok -> hex_token tok.
Proof. intros (pre & post & _ & H & _). exact H. Qed.

(** C5.  The extractor answers from the URL-shaped pattern whenever a token
    stands in the string after [loom.com/], one of the path segments
    [share], [embed], [recording] and a slash, in any case; failing that, it
    answers from a 32-hex token that stands alone anywhere in the string;
    the answer is the matched token in lower case, 32 lower-case hexadecimal
    digits; and it answers none exactly when the string has neither. *)
Theorem extract_video_id_spec item :
  ((exists tok, url_token item tok) ->
   exists tok, url_token item tok /\ extract_video_id item = Some (str_lower tok))
  /\ (~ (exists tok, url_token item tok) ->
      (exists tok, standalone_token item tok) ->
      exists tok,
        standalone_token item tok /\ extract_video_id item = Some (str_lower tok))
  /\ (extract_video_id item = None <->
      ~ (exists tok, url_token item tok) /\ ~ (exists tok, standalone_token item tok))
  /\ (forall id,
        extract_video_id item = Some id ->
        length id = 32 /\ forallb is_lower_hex id = true).
Proof.
  rewrite extract_video_id_run.
  destruct (re_search _URL_ID_RE (str_strip item)) as [m|] eqn:Hu.
  - pose proof (url_search_sound _ Hu) as Hm.
    apply (proj1 (url_token_strip _ _)) in Hm.
    split; [|split; [|split]].
    + intros _. exists (group 1 m). split; [exact Hm|reflexivity].
    + intros Hno. destruct Hno. eauto.
    + split; [discriminate|]. intros [Hno _]. destruct Hno. eauto.
    + intros id H. inversion H. apply lower_token. eapply url_token_hex. exact Hm.
  - assert (Hnourl : ~ (exists tok, url_token item tok)).
    { intros [tok Htok]. apply (proj2 (url_token_strip _ _)) in Htok.
      exact (url_search_complete Htok Hu). }
    destruct (re_search _LOOM_ID_RE (str_strip item)) as [m|] eqn:Hi.
    + pose proof (id_search_sound _ Hi) as Hm.
      apply (proj1 (standalone_token_strip _ _)) in Hm.
      split; [|split; [|split]].
      * intros H. destruct (Hnourl H).
      * intros _ _. exists (group 1 m). split; [exact Hm|reflexivity].
      * split; [discriminate|]. intros [_ Hno]. destruct Hno. eauto.
      * intros id H. inversion H. apply lower_token. eapply standalone_token_hex. exact Hm.
    + assert (Hnoid : ~ (exists tok, standalone_token item tok)).
      { intros [tok Htok]. apply (proj2 (standalone_token_strip _ _)) in Htok.
        exact (id_search_complete Htok Hi). }
      split; [|split; [|split]].
      * intros H. destruct (Hnourl H).
      * intros _ H. destruct (Hnoid H).
      * split; auto.
      * discriminate.
Qed.

End IdentProperties.

(** ** The payload interpreter *)

Section PayloadProperties.

Context {P : Platform}.

#[local] Arguments py : simpl never.

Lemma as_strings_map_JStr l : as_strings (map JStr l) = Some l.
Proof. induction l as [|s l IH]; cbn; [reflexivity|]. rewrite IH. reflexivity. Qed.

Lemma caption_text_item item :
  caption_item item ->
  caption_text item = Ok (match item_text item with s :: _ => JStr s | [] => JStr [] end)
  /\ (forall s, In s (item_text item) -> s <> []).
Proof.
  intros (kvs & -> & Ht & Hc). unfold caption_text, item_text, string_field, dict_get_default.
  destruct Ht as [->|[t ->]], Hc as [->|[c ->]]; cbn.
  - split; [reflexivity|]. intros s [].
  - destruct c as [|x c]; cbn; split; try reflexivity.
    + intros s [].
    + intros s [<-|[]]. discriminate.
  - destruct t as [|x t]; cbn; split; try reflexivity.
    + intros s [].
    + intros s [<-|[]]. discriminate.
  - destruct t as [|x t]; cbn.
    + destruct c as [|y c]; cbn; split; try reflexivity.
      * intros s [].
      * intros s [<-|[]]. discriminate.
    + split; [reflexivity|]. intros s [<-|[]]. discriminate.
Qed.

Lemma collect_caption_items items acc :
  Forall caption_item items ->
  collect_fragments caption_text items (map JStr acc)
  = Ok (map JStr (acc ++ caption_texts items)).
Proof.
  intros Hall. revert acc. induction Hall as [|item items Hitem _ IH]; intros acc.
  - cbn. rewrite app_nil_r. reflexivity.
  - cbn [collect_fragments caption_texts flat_map].
    destruct (caption_text_item Hitem) as [-> _].
    destruct Hitem as (kvs & -> & _).
    destruct (item_text (JDict kvs)) as [|s rest] eqn:Hit.
    + cbn [truthy app]. apply IH.
    + assert (rest = [] /\ s <> []) as [-> Hs].
      { revert Hit. unfold item_text.
        destruct (string_field (py "text") kvs) as [s1|] eqn:H1.
        - intros H; inversion H; subst. split; [reflexivity|].
          unfold string_field in H1.
          destruct (dict_get (py "text") kvs) as [[| | | |[|x t]| |]|];
            inversion H1; discriminate.
        - destruct (string_field (py "caption") kvs) as [s2|] eqn:H2; [|discriminate].
          intros H; inversion H; subst. split; [reflexivity|].
          unfold string_field in H2.
          destruct (dict_get (py "caption") kvs) as [[| | | |[|x t]| |]|];
            inversion H2; discriminate. }
      destruct s as [|x s]; [contradiction|]. cbn [truthy].
      replace (map JStr acc ++ [JStr (x :: s)]) with (map JStr (acc ++ [x :: s]))
        by (rewrite map_app; reflexivity).
      rewrite IH, <- app_assoc. reflexivity.
Qed.

(** C8, as the code has it.  For a map that has no string under
    ["transcript"] and a list under ["captions"] whose items are maps with
    string (or no) ["text"] and ["caption"] fields, the typed path takes of
    each item its ["text"], or else its ["caption"], skips the items where
    both are empty, joins the texts with newlines and strips the joined text;
    without any text the result is none. *)
Theorem captions_joined_and_stripped kvs items :
  (forall t, dict_get (py "transcript") kvs <> Some (JStr t)) ->
  dict_get (py "captions") kvs = Some (JList items) ->
  Forall caption_item items ->
  interpret_payload (JDict kvs)
  = Ok (match caption_texts items with
        | [] => None
        | _ :: _ => Some (str_strip (str_join [LF] (caption_texts items)))
        end).
Proof.
  intros Hnot Hcap Hitems. cbn [interpret_payload].
  assert (Hskip : forall (X : outcome (option pystr)),
             match dict_get (py "transcript") kvs with
             | Some (JStr t) => Ok (Some t)
             | _ => X
             end = X).
  { intros X. destruct (dict_get (py "transcript") kvs) as [[| | | |t| |]|];
      try reflexivity. destruct (Hnot t). reflexivity. }
  rewrite Hskip, Hcap.
  change (@nil json) with (map JStr []).
  rewrite (collect_caption_items [] Hitems). cbn [app fragments_result].
  destruct (caption_texts items) as [|s rest]; [reflexivity|].
  unfold joined_or_none, join_fragments.
  change (map JStr (s :: rest)) with (JStr s :: map JStr rest) at 1.
  cbv iota. rewrite as_strings_map_JStr. reflexivity.
Qed.

(** *** The walk over a script blob *)

Lemma visit_key_items_app items fr q :
  visit_key_items items (fr, q)
  = (fr ++ fst (visit_key_items items ([], [])),
     q ++ snd (visit_key_items items ([], []))).
Proof.
  revert fr q. induction items as [|item rest IH]; intros fr q; cbn [visit_key_items].
  - cbn. rewrite !app_nil_r. reflexivity.
  - destruct (is_text_item item).
    + rewrite IH, (IH ([] ++ _)). cbn [fst snd app]. rewrite <- !app_assoc. reflexivity.
    + rewrite IH, (IH _ ([] ++ _)). cbn [fst snd app]. rewrite <- !app_assoc. reflexivity.
Qed.

Lemma visit_key_app kvs key fr q :
  visit_key kvs (fr, q) key
  = (fr ++ fst (visit_key kvs ([], []) key), q ++ snd (visit_key kvs ([], []) key)).
Proof.
  unfold visit_key. destruct (dict_get key kvs) as [val|]; cbn [fst snd].
  - destruct val as [| | | |s|items|d]; cbn [fst snd]; rewrite ?app_nil_r; try reflexivity.
    + destruct (20 <? length s); cbn [fst snd app]; rewrite ?app_nil_r; reflexivity.
    + apply visit_key_items_app.
  - rewrite !app_nil_r. reflexivity.
Qed.

Lemma visit_keys_app kvs keys fr q :
  fold_left (visit_key kvs) keys (fr, q)
  = (fr ++ flat_map (fun key => fst (visit_key kvs ([], []) key)) keys,
     q ++ flat_map (fun key => snd (visit_key kvs ([], []) key)) keys).
Proof.
  revert fr q. induction keys as [|key rest IH]; intros fr q; cbn [fold_left flat_map].
  - rewrite !app_nil_r. reflexivity.
  - rewrite visit_key_app, IH, <- !app_assoc. reflexivity.
Qed.

Lemma visit_list_items_app items fr q :
  visit_list_items items (fr, q)
  = (fr ++ fst (visit_list_items items ([], [])),
     q ++ snd (visit_list_items items ([], []))).
Proof.
  revert fr q. induction items as [|v rest IH]; intros fr q; cbn [visit_list_items].
  - cbn. rewrite !app_nil_r. reflexivity.
  - destruct (is_container v); [|destruct (is_text_item v)].
    + rewrite IH, (IH _ ([] ++ _)). cbn [fst snd app]. rewrite <- !app_assoc. reflexivity.
    + rewrite IH, (IH ([] ++ _)). cbn [fst snd app]. rewrite <- !app_assoc. reflexivity.
    + apply IH.
Qed.

(** A visit only adds: fragments at the end of the fragments, nodes at the
    end of the queue. *)
Lemma visit_app node fr q :
  visit node (fr, q)
  = (fr ++ fst (visit node ([], [])), q ++ snd (visit node ([], []))).
Proof.
  destruct node as [| | | |s|items|kvs]; cbn [visit fst snd]; rewrite ?app_nil_r;
    try reflexivity.
  - apply visit_list_items_app.
  - unfold enqueue_children. rewrite visit_keys_app, (visit_keys_app _ _ [] []).
    cbn [fst snd app]. rewrite <- app_assoc. reflexivity.
Qed.

(** The fragments come out in the order in which they were found. *)
Lemma walk_discovery_order budget fr q :
  walk budget (fr, q) = fr ++ walk budget ([], q).
Proof.
  revert fr q. induction budget as [|budget IH]; intros fr q; cbn [walk fst snd].
  - rewrite app_nil_r. reflexivity.
  - destruct q as [|node q]; [rewrite app_nil_r; reflexivity|].
    rewrite visit_app, IH, (visit_app node [] q), (IH (_ ++ _)).
    cbn [app]. rewrite <- app_assoc. reflexivity.
Qed.

(** C9.  Whether the blob parses at once or after the repair of its quotes,
    the fragments of the walk, in the order in which they were found, are
    joined with newlines and the joined text is stripped; that text is
    returned exactly when it is longer than 40 characters, and none is
    returned otherwise.  A blob that parses to
    [{"foo": {"transcript": <a text of 65 characters>}}] gives that text; one that
    parses to [{"x": "short"}] gives none. *)
Theorem blob_text_threshold blob data :
  json_loads blob = Some data
  \/ (json_loads blob = None
      /\ json_loads (re_sub SINGLE_QUOTE_RE [DQUOTE] blob) = Some data) ->
  (forall budget fr q, walk budget (fr, q) = fr ++ walk budget ([], q))
  /\ (forall joined,
        joined = str_strip (str_join [LF] (walk MAX_SEEN ([], [data]))) ->
        (40 < length joined -> _extract_text_from_json_blob blob = Some joined)
        /\ (length joined <= 40 -> _extract_text_from_json_blob blob = None))
  /\ (data = Mock.nested_transcript ->
      _extract_text_from_json_blob blob = Some Mock.LONG_TEXT)
  /\ (data = Mock.short_value -> _extract_text_from_json_blob blob = None).
Proof.
  intros Hparse.
  assert (Hrun : _extract_text_from_json_blob blob = text_from_data data).
  { unfold _extract_text_from_json_blob.
    destruct Hparse as [-> | [-> ->]]; reflexivity. }
  rewrite Hrun. split; [exact walk_discovery_order|]. split; [|split].
  - intros joined ->. unfold text_from_data, long_enough. split; intros Hlen.
    + apply Nat.ltb_lt in Hlen. rewrite Hlen. reflexivity.
    + apply Nat.ltb_ge in Hlen. rewrite Hlen. reflexivity.
  - intros ->. vm_compute. reflexivity.
  - intros ->. vm_compute. reflexivity.
Qed.

Lemma dict_get_In key kvs v : dict_get key kvs = Some v -> In v (dict_values kvs).
Proof.
  induction kvs as [|[k v'] rest IH]; cbn; [discriminate|].
  destruct (str_eqb key k).
  - intros H; inversion H. auto.
  - auto.
Qed.

Lemma visit_key_items_handles items item :
  In item items ->
  if is_text_item item
  then In (scalar_str item) (fst (visit_key_items items ([], [])))
  else In item (snd (visit_key_items items ([], []))).
Proof.
  induction items as [|x rest IH]; [contradiction|].
  intros Hin. cbn [visit_key_items].
  destruct Hin as [->|Hin].
  - destruct (is_text_item item); rewrite visit_key_items_app; cbn [fst snd];
      apply in_or_app; left; left; reflexivity.
  - specialize (IH Hin).
    destruct (is_text_item x); rewrite visit_key_items_app; cbn [fst snd];
      destruct (is_text_item item); apply in_or_app; right; exact IH.
Qed.

(** C10, as the code has it.  Under a priority key a [dict] value is put on
    the queue twice, by the handling of the key and by the step that enqueues
    the children; a [list] value is put on the queue by the step that
    enqueues the children, while the handling of the key collects its text
    items and puts its other items on the queue themselves.  So the content
    of either is visited twice, and a map whose ["captions"] list holds a map
    with a long ["text"] gives that text twice. *)
Theorem priority_values_visited_twice :
  (forall kvs key d fr q,
      In key PRIORITY_KEYS ->
      dict_get key kvs = Some (JDict d) ->
      exists f1 q1,
        visit (JDict kvs) (fr, q)
        = (fr ++ f1, q ++ q1 ++ filter is_container (dict_values kvs))
        /\ In (JDict d) q1
        /\ In (JDict d) (filter is_container (dict_values kvs)))
  /\ (forall kvs key items fr q,
        In key PRIORITY_KEYS ->
        dict_get key kvs = Some (JList items) ->
        exists f1 q1,
          visit (JDict kvs) (fr, q)
          = (fr ++ f1, q ++ q1 ++ filter is_container (dict_values kvs))
          /\ In (JList items) (filter is_container (dict_values kvs))
          /\ forall item, In item items ->
               if is_text_item item then In (scalar_str item) f1 else In item q1)
  /\ text_from_data Mock.captions_with_long_text
     = Some (Mock.LONG_TEXT ++ [LF] ++ Mock.LONG_TEXT).
Proof.
  assert (Hvisit : forall kvs fr q,
             visit (JDict kvs) (fr, q)
             = (fr ++ flat_map (fun key => fst (visit_key kvs ([], []) key)) PRIORITY_KEYS,
                q ++ flat_map (fun key => snd (visit_key kvs ([], []) key)) PRIORITY_KEYS
                  ++ filter is_container (dict_values kvs))).
  { intros kvs fr q. cbn [visit]. unfold enqueue_children.
    rewrite visit_keys_app. cbn [fst snd]. rewrite <- app_assoc. reflexivity. }
  split; [|split].
  - intros kvs key d fr q Hkey Hget. eexists. eexists.
    split; [apply Hvisit|]. split.
    + apply in_flat_map. exists key. split; [exact Hkey|].
      unfold visit_key. rewrite Hget. cbn. auto.
    + apply filter_In. split; [eapply dict_get_In; eassumption | reflexivity].
  - intros kvs key items fr q Hkey Hget. eexists. eexists.
    split; [apply Hvisit|]. split.
    + apply filter_In. split; [eapply dict_get_In; eassumption | reflexivity].
    + intros item Hin. pose proof (visit_key_items_handles items item Hin) as H.
      destruct (is_text_item item); apply in_flat_map; exists key;
        (split; [exact Hkey|]); unfold visit_key; rewrite Hget; exact H.
  - vm_compute. reflexivity.
Qed.

End PayloadProperties.

(** ** More on the normalizer *)

Section NormalizerMore.

Lemma collapse_fixed_no_triple k s :
  collapse_newlines k s = s -> no_triple_newline s.
Proof.
  intros H pre. revert k s H. induction pre as [|c pre IH]; intros k s H post Hs.
  - subst s. cbn [app] in H.
    apply (@collapse_fixed_mono 0 k) in H; [|lia].
    rewrite collapse_cons in H. change (Ascii.eqb LF LF) with true in H.
    change (0 <? 2) with true in H. cbv iota in H. inversion H as [H1].
    pose proof (collapse_length 3 post) as Hl. rewrite H1 in Hl.
    cbn [length] in Hl. lia.
  - subst s. cbn [app] in H. apply collapse_fixed_tail in H.
    exact (IH _ _ H post eq_refl).
Qed.

Lemma no_triple_tail c s : no_triple_newline (c :: s) -> no_triple_newline s.
Proof. intros H pre post ->. exact (H (c :: pre) post eq_refl). Qed.

Lemma no_triple_collapse_fixed s :
  forall k,
    k <= 2 ->
    no_triple_newline (repeat LF k ++ s) ->
    collapse_newlines k s = s.
Proof.
  induction s as [|c s IH]; intros k Hk Hno; [reflexivity|].
  rewrite collapse_cons. destruct (Ascii.eqb c LF) eqn:Hc.
  - apply Ascii.eqb_eq in Hc. subst c.
    destruct (Nat.ltb_spec k 2) as [Hk2|Hk2].
    + f_equal. apply IH; [lia|].
      replace (repeat LF (S k) ++ s) with (repeat LF k ++ LF :: s); [exact Hno|].
      change (repeat LF (S k)) with (LF :: repeat LF k).
      rewrite (repeat_cons k LF), <- app_assoc. reflexivity.
    + assert (k = 2) as -> by lia. destruct (Hno [] s). reflexivity.
  - f_equal. apply (IH 0); [lia|]. cbn [repeat app].
    clear -Hno. induction k as [|k IHk]; cbn [repeat app] in Hno.
    + eapply no_triple_tail. exact Hno.
    + apply IHk. eapply no_triple_tail. exact Hno.
Qed.

(** X1.  Whatever the input, the normalized text has no CR, each of its
    lines is stripped, three LFs in a row occur nowhere in it, and it is
    stripped as a whole. *)
Theorem normalize_whitespace_output x :
  ~ In CR (normalize_whitespace x)
  /\ Forall stripped (lines (normalize_whitespace x))
  /\ no_triple_newline (normalize_whitespace x)
  /\ stripped (normalize_whitespace x).
Proof.
  rewrite normalize_whitespace_spec.
  destruct (normalize_normal_form x) as (Hcr & Hlines & Hcol & Hstrip).
  repeat split; try assumption. eapply collapse_fixed_no_triple. exact Hcol.
Qed.

(** X2.  The texts the normalizer leaves as they are, are exactly the texts
    of that form: a text without CR, with stripped lines, without three LFs
    in a row and stripped as a whole is returned unchanged, and no other
    text is. *)
Theorem normalize_whitespace_fixed_points x :
  normalize_whitespace x = x <->
  ~ In CR x /\ Forall stripped (lines x) /\ no_triple_newline x /\ stripped x.
Proof.
  rewrite normalize_whitespace_spec. split.
  - intros H. destruct (normalize_normal_form x) as (Hcr & Hlines & Hcol & Hstrip).
    rewrite H in *. repeat split; try assumption.
    eapply collapse_fixed_no_triple. exact Hcol.
  - intros (Hcr & Hlines & Hno & Hstrip). apply normal_form_fixed.
    repeat split; try assumption. apply no_triple_collapse_fixed; [lia|exact Hno].
Qed.

Lemma convert_length b s : length (convert_line_endings b s) <= length s.
Proof.
  revert b. induction s as [|c s IH]; intros b; [reflexivity|].
  cbn [convert_line_endings length].
  destruct (Ascii.eqb c CR); [pose proof (IH true); cbn [length]; lia|].
  destruct (Ascii.eqb c LF); [destruct b|]; cbn [length];
    pose proof (IH false); lia.
Qed.

Lemma join_strip_length ls :
  length (str_join [LF] (map str_strip ls)) <= length (str_join [LF] ls).
Proof.
  induction ls as [|l rest IH]; [reflexivity|].
  destruct rest as [|l2 rest].
  - cbn. apply strip_length.
  - cbn [map] in *. rewrite !join_cons, !length_app. cbn [length].
    pose proof (strip_length l). lia.
Qed.

Lemma strip_each_line_length s : length (strip_each_line s) <= length s.
Proof.
  unfold strip_each_line. rewrite <- (join_lines s) at 2. apply join_strip_length.
Qed.

(** X3.  The normalizer never makes a text longer. *)
Theorem normalize_whitespace_length x :
  length (normalize_whitespace x) <= length x.
Proof.
  rewrite normalize_whitespace_spec. unfold normalize.
  pose proof (strip_length
                (collapse_newlines 0 (strip_each_line (convert_line_endings false x)))).
  pose proof (collapse_length 0 (strip_each_line (convert_line_endings false x))).
  pose proof (strip_each_line_length (convert_line_endings false x)).
  pose proof (convert_length false x). lia.
Qed.

Lemma convert_In c b s : In c (convert_line_endings b s) -> c = LF \/ In c s.
Proof.
  revert b. induction s as [|d s IH]; intros b; [tauto|].
  cbn [convert_line_endings].
  destruct (Ascii.eqb d CR); [intros [H|H]; [auto|destruct (IH _ H); cbn; auto]|].
  destruct (Ascii.eqb d LF) eqn:Hd.
  - apply Ascii.eqb_eq in Hd. subst d.
    destruct b; [intros H|intros [H|H]]; auto; destruct (IH _ H); cbn; auto.
  - intros [H|H]; [cbn; auto|]. destruct (IH _ H); cbn; auto.
Qed.

Lemma lstrip_blank s : blank s -> lstrip s = [].
Proof.
  unfold blank. induction s as [|c s IH]; [reflexivity|]. cbn [forallb lstrip].
  intros H. apply andb_true_iff in H. destruct H as [Hc Hs]. rewrite Hc. exact (IH Hs).
Qed.

Lemma blank_forall s : blank s <-> forall c, In c s -> is_space c = true.
Proof. unfold blank. apply forallb_forall. Qed.

Lemma lstrip_keeps c s : In c s -> is_space c = false -> In c (lstrip s).
Proof.
  induction s as [|d s IH]; [tauto|]. cbn [lstrip]. intros Hin Hc.
  destruct (is_space d) eqn:Hd; [|exact Hin].
  destruct Hin as [->|Hin]; [congruence|]. exact (IH Hin Hc).
Qed.

Lemma strip_keeps c s : In c s -> is_space c = false -> In c (str_strip s).
Proof.
  intros Hin Hc. unfold str_strip, rstrip. apply -> in_rev.
  apply lstrip_keeps; [|exact Hc]. apply -> in_rev. apply lstrip_keeps; assumption.
Qed.

Lemma convert_keeps c b s :
  In c s -> is_space c = false -> In c (convert_line_endings b s).
Proof.
  revert b. induction s as [|d s IH]; intros b; [tauto|].
  intros Hin Hc. cbn [convert_line_endings].
  destruct (Ascii.eqb d CR) eqn:Hcr.
  - apply Ascii.eqb_eq in Hcr. subst d.
    destruct Hin as [Heq|Hin]; [subst c; discriminate Hc|]. right. auto.
  - destruct (Ascii.eqb d LF) eqn:Hlf.
    + apply Ascii.eqb_eq in Hlf. subst d.
      destruct Hin as [Heq|Hin]; [subst c; discriminate Hc|].
      destruct b; [|right]; auto.
    + destruct Hin as [Heq|Hin]; [subst c; left; reflexivity|right; auto].
Qed.

Lemma lines_has c s : In c s -> c <> LF -> exists l, In l (lines s) /\ In c l.
Proof.
  induction s as [|d s IH]; [intros []|]. intros Hin Hc.
  destruct (Ascii.eqb d LF) eqn:Hd.
  - apply Ascii.eqb_eq in Hd. subst d. rewrite lines_cons_LF.
    destruct Hin as [Heq|Hin]; [congruence|].
    destruct (IH Hin Hc) as (l & Hl & Hcl). exists l. cbn. auto.
  - rewrite lines_cons_other by exact Hd.
    destruct (lines s) as [|l0 rest] eqn:Hl; [destruct (lines_nonempty _ Hl)|].
    cbn [continue_line app]. destruct Hin as [->|Hin].
    + exists (c :: l0). cbn. auto.
    + destruct (IH Hin Hc) as (l & [Heq|Hl'] & Hcl).
      * subst l. exists (d :: l0). cbn. auto.
      * exists l. cbn. auto.
Qed.

Lemma join_has c l ls : In l ls -> In c l -> In c (str_join [LF] ls).
Proof.
  induction ls as [|l0 rest IH]; [tauto|]. intros Hl Hc.
  destruct rest as [|l2 rest].
  - destruct Hl as [->|[]]. exact Hc.
  - rewrite join_cons. apply in_or_app. destruct Hl as [->|Hl]; [left; exact Hc|].
    right. right. exact (IH Hl Hc).
Qed.

Lemma strip_each_line_keeps c s :
  In c s -> is_space c = false -> In c (strip_each_line s).
Proof.
  intros Hin Hc. assert (Hlf : c <> LF) by (intros ->; discriminate Hc).
  edestruct lines_has as (l & Hl & Hcl); [exact Hin|exact Hlf|].
  unfold strip_each_line. eapply join_has.
  - apply in_map. exact Hl.
  - apply strip_keeps; assumption.
Qed.

Lemma collapse_keeps c k s : In c s -> c <> LF -> In c (collapse_newlines k s).
Proof.
  revert k. induction s as [|d s IH]; intros k; [tauto|]. intros Hin Hc.
  rewrite collapse_cons. destruct (Ascii.eqb d LF) eqn:Hd.
  - apply Ascii.eqb_eq in Hd. subst d. destruct Hin as [Heq|Hin]; [congruence|].
    destruct (k <? 2); [right|]; auto.
  - destruct Hin as [->|Hin]; [left; reflexivity|right; auto].
Qed.

(** X4.  The normalized text is empty exactly when the input holds nothing
    but whitespace: every character that is not whitespace is kept. *)
Theorem normalize_whitespace_empty x :
  (normalize_whitespace x = [] <-> blank x)
  /\ (forall c, In c x -> is_space c = false -> In c (normalize_whitespace x)).
Proof.
  rewrite normalize_whitespace_spec.
  assert (Hkeep : forall c, In c x -> is_space c = false -> In c (normalize x)).
  { intros c Hin Hc. unfold normalize.
    apply strip_keeps; [|exact Hc].
    apply collapse_keeps; [|intros ->; discriminate Hc].
    apply strip_each_line_keeps; [|exact Hc].
    apply convert_keeps; assumption. }
  split; [|exact Hkeep]. split.
  - intros Hnil. apply blank_forall. intros c Hin.
    destruct (is_space c) eqn:Hc; [reflexivity|].
    pose proof (Hkeep c Hin Hc) as H. rewrite Hnil in H. destruct H.
  - intros Hblank. unfold normalize, str_strip.
    rewrite lstrip_blank; [reflexivity|].
    apply blank_forall. intros c Hin.
    apply collapse_In, strip_each_line_In in Hin.
    destruct Hin as [->|Hin]; [reflexivity|].
    apply convert_In in Hin. destruct Hin as [->|Hin]; [reflexivity|].
    apply (proj1 (blank_forall x) Hblank). exact Hin.
Qed.

End NormalizerMore.

(** ** More on the identifier extractor *)

Section IdentMore.

Context {P : Platform}.

Ltac all_chars c :=
  destruct c as [[] [] [] [] [] [] [] []]; vm_compute; try reflexivity; try discriminate.

Lemma rstrip_blank w : blank w -> rstrip w = [].
Proof.
  intros H. unfold rstrip. rewrite lstrip_blank; [reflexivity|].
  apply blank_forall. intros c Hc. apply in_rev in Hc.
  exact (proj1 (blank_forall w) H c Hc).
Qed.

Lemma strip_padding w1 s w2 :
  blank w1 -> blank w2 -> str_strip (w1 ++ s ++ w2) = str_strip s.
Proof.
  intros H1 H2. unfold str_strip.
  rewrite lstrip_app, (lstrip_blank H1), lstrip_app.
  destruct (lstrip s) as [|c r].
  - rewrite (lstrip_blank H2). reflexivity.
  - rewrite rstrip_app, (rstrip_blank H2). reflexivity.
Qed.

(** X5.  Whitespace around the input does not change the answer. *)
Theorem extract_video_id_padding w1 item w2 :
  blank w1 -> blank w2 ->
  extract_video_id (w1 ++ item ++ w2) = extract_video_id item.
Proof.
  intros H1 H2. rewrite !extract_video_id_run, (strip_padding item H1 H2). reflexivity.
Qed.

Lemma url_token_long s tok : url_token s tok -> 47 <= length s.
Proof.
  intros (pre & dom & seg & post & -> & Hdom & Hseg & Hlen & _).
  apply (f_equal (@length ascii)) in Hdom. unfold str_lower in Hdom.
  rewrite length_map in Hdom. cbn in Hdom.
  assert (Hs : 5 <= length seg).
  { cbn [In] in Hseg.
    destruct Hseg as [H|[H|[H|[]]]]; apply (f_equal (@length ascii)) in H;
      unfold str_lower in H; rewrite length_map in H; cbn in H; lia. }
  rewrite !length_app. cbn [length]. rewrite length_app. lia.
Qed.

Lemma token_strip tok : hex_token tok -> str_strip tok = tok.
Proof.
  intros Htok. pose proof (token_not_space Htok) as Hns.
  destruct (token_head Htok) as (x & rest & Heq & _).
  pose proof (@strip_core [] tok []) as H. cbn [app lstrip] in H.
  rewrite rstrip_nil, !app_nil_r in H. apply H; [subst tok; discriminate|exact Hns].
Qed.

Lemma standalone_whole tok t :
  standalone_token tok t -> length tok = 32 -> t = tok.
Proof.
  intros (pre & post & Heq & [Hlen _] & _) Htok.
  pose proof (f_equal (@length ascii) Heq) as Hl. rewrite !length_app in Hl.
  assert (pre = []) by (destruct pre; [reflexivity|cbn in Hl; lia]).
  assert (post = []) by (destruct post; [reflexivity|cbn in Hl; lia]).
  subst pre post. cbn [app] in Heq. rewrite app_nil_r in Heq. auto.
Qed.

Lemma extract_token tok :
  hex_token tok -> extract_video_id tok = Some (str_lower tok).
Proof.
  intros Htok. rewrite extract_video_id_run, (token_strip Htok).
  destruct (re_search _URL_ID_RE tok) as [m|] eqn:Hu.
  - apply url_search_sound, url_token_long in Hu. destruct Htok as [Hlen _]. lia.
  - destruct (re_search _LOOM_ID_RE tok) as [m|] eqn:Hi.
    + apply id_search_sound in Hi.
      rewrite (standalone_whole Hi (proj1 Htok)). reflexivity.
    + exfalso. eapply id_search_complete; [|exact Hi].
      exists [], []. rewrite app_nil_r. repeat split; apply Htok.
Qed.

Lemma lower_hex_is_hex c : is_lower_hex c = true -> is_hex c = true /\ lower c = c.
Proof. all_chars c; intros _; split; reflexivity. Qed.

Lemma canonical_token id :
  length id = 32 -> forallb is_lower_hex id = true -> hex_token id /\ str_lower id = id.
Proof.
  intros Hlen Hhex. unfold hex_token. split; [split; [exact Hlen|]|]; clear Hlen.
  - induction id as [|c id IH]; [reflexivity|]. cbn [forallb] in *.
    apply andb_true_iff in Hhex. destruct Hhex as [Hc Hid].
    rewrite (proj1 (lower_hex_is_hex _ Hc)). exact (IH Hid).
  - induction id as [|c id IH]; [reflexivity|]. cbn [forallb str_lower map] in *.
    apply andb_true_iff in Hhex. destruct Hhex as [Hc Hid].
    rewrite (proj2 (lower_hex_is_hex _ Hc)). f_equal. exact (IH Hid).
Qed.

Lemma extract_video_id_shape item id :
  extract_video_id item = Some id -> length id = 32 /\ forallb is_lower_hex id = true.
Proof.
  rewrite extract_video_id_run.
  destruct (re_search _URL_ID_RE (str_strip item)) as [m|] eqn:Hu.
  - intros H. inversion H. apply lower_token.
    eapply url_token_hex, url_search_sound. exact Hu.
  - destruct (re_search _LOOM_ID_RE (str_strip item)) as [m|] eqn:Hi; [|discriminate].
    intros H. inversion H. apply lower_token.
    eapply standalone_token_hex, id_search_sound. exact Hi.
Qed.

(** X6.  A bare 32-hex token, in any case, is read as itself in lower
    case; so an identifier the extractor has returned is read back as
    itself. *)
Theorem extract_video_id_raw_token :
  (forall tok, hex_token tok -> extract_video_id tok = Some (str_lower tok))
  /\ (forall item id,
        extract_video_id item = Some id -> extract_video_id id = Some id).
Proof.
  split; [exact extract_token|].
  intros item id H. apply extract_video_id_shape in H. destruct H as [Hlen Hhex].
  destruct (canonical_token id Hlen Hhex) as [Htok Hlow].
  rewrite (extract_token Htok), Hlow. reflexivity.
Qed.

End IdentMore.

(** ** The extractor on the URLs the client builds *)

Section PageUrls.

Context {P : Platform}.

Lemma run_hex_rep R (k : cont R) post n :
  forall tok p g,
    length tok = n -> forallb is_hex tok = true ->
    run true (Rep n (Cls HEX)) k p (tok ++ post) g = k (prev_char p tok) post g.
Proof.
  induction n as [|n IH]; intros tok p g Hlen Hhex.
  - destruct tok; [reflexivity|discriminate].
  - destruct tok as [|c tok]; [discriminate|].
    cbn [forallb] in Hhex. apply andb_true_iff in Hhex. destruct Hhex as [Hc Htok].
    rewrite run_Rep_S, run_Cls. cbn [app]. rewrite hex_class, Hc, prev_char_cons.
    apply IH; [cbn in Hlen; lia|exact Htok].
Qed.

Lemma run_token R (k : cont R) tok post p g :
  hex_token tok ->
  run true (Grp (Rep 32 (Cls HEX))) k p (tok ++ post) g
  = k (prev_char p tok) post (g ++ [tok]).
Proof.
  intros [Hlen Hhex]. rewrite run_Grp. erewrite run_hex_rep; [|exact Hlen|exact Hhex]. rewrite firstn_consumed.
  reflexivity.
Qed.

Lemma run_lit_exact R (k : cont R) l p rest g :
  run true (Lit l) k p (l ++ rest) g = k (prev_char p l) rest g.
Proof. rewrite run_Lit, (@lit_match_complete l l p rest eq_refl). reflexivity. Qed.

Lemma run_lit_mismatch R (k : cont R) c l c' s p g :
  chr_eq true c c' = false -> run true (Lit (c :: l)) k p (c' :: s) g = None.
Proof. intros H. rewrite run_Lit. cbn [lit_match]. rewrite H. reflexivity. Qed.

Lemma run_page_prefix R (k : cont R) pfx s g v :
  In pfx PAGE_PREFIXES ->
  k (Some "/"%char) s g = Some v ->
  run true URL_SCHEME
    (run true (Opt (Lit (py "www.")))
       (run true (Lit (py "loom.com/"))
          (run true URL_SEGMENT (run true (Lit (py "/")) k))))
    None (pfx ++ s) g = Some v.
Proof.
  intros Hin Hk. unfold URL_SCHEME, URL_SEGMENT. cbn [seq_of].
  destruct Hin as [<-|[<-|[]]].
  - change (py "https://www.loom.com/share/" ++ s)
      with (py "http" ++ py "s" ++ py "://" ++ py "www." ++ py "loom.com/"
              ++ py "share" ++ py "/" ++ s).
    repeat first [rewrite run_Seq | rewrite run_Opt | rewrite run_Alt
                 | rewrite run_lit_exact].
    change (prev_char _ (py "/")) with (Some "/"%char). rewrite Hk. reflexivity.
  - change (py "https://www.loom.com/embed/" ++ s)
      with (py "http" ++ py "s" ++ py "://" ++ py "www." ++ py "loom.com/"
              ++ py "embed" ++ py "/" ++ s).
    repeat first [rewrite run_Seq | rewrite run_Opt | rewrite run_Alt
                 | rewrite run_lit_exact].
    change (prev_char _ (py "/")) with (Some "/"%char). rewrite Hk. reflexivity.
Qed.

Lemma match_page_url pfx tok post :
  In pfx PAGE_PREFIXES -> hex_token tok ->
  match_here _URL_ID_RE None (pfx ++ tok ++ post) = Some (post, [tok]).
Proof.
  intros Hin Htok. unfold match_here. rewrite url_ast. cbn [re_ignorecase _URL_ID_RE].
  rewrite !run_Seq.
  pose proof (@run_token _ (fun _ s' g => Some (s', g)) tok post (Some "/"%char) [] Htok)
    as H.
  exact (@run_page_prefix _ _ pfx (tok ++ post) [] (post, [tok]) Hin H).
Qed.

Lemma search_page_url pfx tok post :
  In pfx PAGE_PREFIXES -> hex_token tok ->
  exists m, re_search _URL_ID_RE (pfx ++ tok ++ post) = Some m /\ group 1 m = tok.
Proof.
  intros Hin Htok. unfold re_search.
  destruct (pfx ++ tok ++ post) as [|x s] eqn:Hs; cbn [search_from];
    rewrite <- Hs; (erewrite match_page_url; [|exact Hin|exact Htok]); eexists; split; reflexivity.
Qed.

Lemma page_prefix_not_space pfx :
  In pfx PAGE_PREFIXES -> pfx <> [] /\ forallb not_space pfx = true.
Proof. intros [<-|[<-|[]]]; split; (discriminate || reflexivity). Qed.

Lemma extract_page_url pfx tok rest :
  In pfx PAGE_PREFIXES -> hex_token tok ->
  extract_video_id (pfx ++ tok ++ rest) = Some (str_lower tok).
Proof.
  intros Hin Htok. rewrite extract_video_id_run.
  destruct (@page_prefix_not_space pfx Hin) as [Hne Hns].
  pose proof (@strip_core [] (pfx ++ tok) rest) as Hstrip.
  cbn [app lstrip] in Hstrip. rewrite <- app_assoc in Hstrip. rewrite Hstrip.
  - edestruct (@search_page_url pfx tok (rstrip rest)) as (m & Hm & Hg); [exact Hin|exact Htok|].
    rewrite <- app_assoc, Hm, Hg. reflexivity.
  - destruct pfx; [congruence|discriminate].
  - apply forallb_app_true; [exact Hns|exact (token_not_space Htok)].
Qed.

(** X7.  The share and embed URLs that the client builds for an identifier
    lead back to that identifier, whatever text follows the URL. *)
Theorem extract_video_id_of_page_urls id rest :
  hex_token id ->
  extract_video_id (share_url id ++ rest) = Some (str_lower id)
  /\ extract_video_id (embed_url id ++ rest) = Some (str_lower id).
Proof.
  intros Hid. unfold share_url, embed_url. rewrite <- !app_assoc.
  split; apply extract_page_url; try exact Hid; cbn; auto.
Qed.

End PageUrls.

(** ** The timestamp test *)

Section TimestampProperties.

Lemma denotes_ext ic r (L L' : pystr -> Prop) :
  denotes ic r L -> (forall t, L t <-> L' t) -> denotes ic r L'.
Proof.
  intros H Hext p s g p' s' g'. rewrite (H p s g p' s' g').
  split; intros (tok & Hs & Ht & Hp & Hg); exists tok; repeat split; auto;
    apply Hext; exact Ht.
Qed.

Lemma denotes_Seq ic r1 r2 (L1 L2 : pystr -> Prop) :
  denotes ic r1 L1 -> denotes ic r2 L2 ->
  denotes ic (Seq r1 r2) (fun t => exists a b, t = a ++ b /\ L1 a /\ L2 b).
Proof.
  intros H1 H2 p s g p' s' g'. rewrite matches_Seq. split.
  - intros (p1 & s1 & g1 & Hm1 & Hm2).
    apply H1 in Hm1. destruct Hm1 as (a & Hs & Ha & Hp1 & Hg1).
    apply H2 in Hm2. destruct Hm2 as (b & Hs1 & Hb & Hp' & Hg').
    subst. exists (a ++ b). rewrite <- app_assoc, prev_char_app.
    repeat split; auto. exists a, b. auto.
  - intros (tok & Hs & (a & b & Htok & Ha & Hb) & Hp & Hg). subst.
    exists (prev_char p a), (b ++ s'), g. split.
    + apply H1. exists a. rewrite <- app_assoc. auto.
    + apply H2. exists b. rewrite prev_char_app. auto.
Qed.

Lemma denotes_Opt ic r (L : pystr -> Prop) :
  denotes ic r L -> denotes ic (Opt r) (fun t => L t \/ t = []).
Proof.
  intros H p s g p' s' g'. cbn [matches]. split.
  - intros [Hm|(Hp & Hs & Hg)].
    + apply H in Hm. destruct Hm as (tok & Hs & Ht & Hp & Hg). exists tok. auto.
    + subst. exists []. auto.
  - intros (tok & Hs & [Ht|Ht] & Hp & Hg).
    + left. apply H. exists tok. auto.
    + right. subst. auto.
Qed.

Lemma lit_match_exact l :
  forall p s p' s',
    lit_match false l p s = Some (p', s') <-> s = l ++ s' /\ p' = prev_char p l.
Proof.
  induction l as [|c l IH]; intros p s p' s'; cbn [lit_match app].
  - split.
    + intros H. inversion H. auto.
    + intros [Hs Hp]. subst. reflexivity.
  - destruct s as [|x s].
    + split; [discriminate|]. intros [H _]. discriminate H.
    + unfold chr_eq. rewrite prev_char_cons. destruct (Ascii.eqb c x) eqn:Hcx.
      * apply Ascii.eqb_eq in Hcx. subst x. rewrite IH. split.
        -- intros [Hs Hp]. subst. auto.
        -- intros [Hs Hp]. inversion Hs. auto.
      * split; [discriminate|]. intros [Hs _]. inversion Hs. subst.
        rewrite Ascii.eqb_refl in Hcx. discriminate.
Qed.

Lemma denotes_Lit l : denotes false (Lit l) (fun t => t = l).
Proof.
  intros p s g p' s' g'. cbn [matches]. rewrite lit_match_exact. split.
  - intros [[Hs Hp] Hg]. exists l. auto.
  - intros (tok & Hs & Ht & Hp & Hg). subst. auto.
Qed.

Lemma denotes_Rep_Cls ic rs n :
  denotes ic (Rep n (Cls rs))
          (fun t => length t = n /\ forallb (in_class ic rs) t = true).
Proof.
  intros p s g p' s' g'. rewrite matches_Rep_Cls. split;
    intros (tok & Hs & H); exists tok; tauto.
Qed.

Lemma denotes_upto_Cls ic rs n :
  denotes ic (upto n (Cls rs))
          (fun t => length t <= n /\ forallb (in_class ic rs) t = true).
Proof.
  induction n as [|n IH]; intros p s g p' s' g'; cbn [upto].
  - cbn [matches lit_match]. split.
    + intros [H Hg]. inversion H. subst. exists []. auto.
    + intros (tok & Hs & [Hlen _] & Hp & Hg).
      destruct tok; [|cbn in Hlen; lia]. subst. auto.
  - cbn [matches]. split.
    + intros [(p1 & s1 & g1 & (x & Hs & Hx & Hp1 & Hg1) & Hm)|(Hp & Hs & Hg)].
      * apply IH in Hm. destruct Hm as (tok & Hs1 & [Hlen Htok] & Hp & Hg). subst.
        exists (x :: tok). cbn [app length forallb]. rewrite Hx, Htok, prev_char_cons.
        repeat split; auto. lia.
      * subst. exists []. cbn. repeat split; auto. lia.
    + intros (tok & Hs & [Hlen Htok] & Hp & Hg). destruct tok as [|x tok].
      * right. subst. auto.
      * left. cbn [forallb] in Htok. apply andb_true_iff in Htok.
        destruct Htok as [Hx Htok]. cbn [length] in Hlen. subst.
        exists (Some x), (tok ++ s'), g. split.
        -- exists x. auto.
        -- apply IH. exists tok. rewrite prev_char_cons. repeat split; auto. lia.
Qed.

Lemma digit_class c : in_class false DIGIT c = is_digit c.
Proof. unfold in_class, in_ranges, DIGIT, is_digit. cbn. apply orb_false_r. Qed.

Lemma digit_forallb t : forallb (in_class false DIGIT) t = forallb is_digit t.
Proof.
  induction t as [|c t IH]; cbn [forallb]; [reflexivity|].
  rewrite digit_class, IH. reflexivity.
Qed.

Lemma denotes_digits m n :
  m <= n -> denotes false (RepRange m n (Cls DIGIT)) (digit_run m n).
Proof.
  intros Hmn. unfold RepRange.
  eapply denotes_ext; [exact (denotes_Seq (denotes_Rep_Cls false DIGIT m)
                                          (denotes_upto_Cls false DIGIT (n - m)))|].
  intros t. unfold digit_run. split.
  - intros (a & b & Ht & [Ha Hda] & [Hb Hdb]). subst t.
    rewrite length_app, forallb_app, <- !digit_forallb, Hda, Hdb. split; [lia|reflexivity].
  - intros [Hlen Hd]. exists (firstn m t), (skipn m t).
    rewrite firstn_skipn, length_firstn, length_skipn, !digit_forallb.
    rewrite <- (firstn_skipn m t), forallb_app in Hd. apply andb_true_iff in Hd.
    repeat split; try tauto; lia.
Qed.

Lemma denotes_exact_digits n :
  denotes false (Rep n (Cls DIGIT)) (digit_run n n).
Proof.
  eapply denotes_ext; [exact (denotes_Rep_Cls false DIGIT n)|].
  intros t. unfold digit_run. rewrite digit_forallb. split; intros [H1 H2]; split; auto; lia.
Qed.

Lemma timestamp_ast : denotes false (re_ast TIMESTAMP_RE) timestamp.
Proof.
  assert (H12 : 1 <= 2) by lia. assert (H13 : 1 <= 3) by lia.
  cbn [re_ast TIMESTAMP_RE seq_of].
  eapply denotes_ext.
  - apply denotes_Seq; [apply denotes_Opt, denotes_Seq;
                          [exact (denotes_digits H12)|apply denotes_Lit]|].
    apply denotes_Seq; [exact (denotes_digits H12)|].
    apply denotes_Seq; [apply denotes_Lit|].
    apply denotes_Seq; [apply denotes_exact_digits|].
    apply denotes_Opt, denotes_Seq; [apply denotes_Lit|exact (denotes_digits H13)].
  - intros t. unfold timestamp, hours_part, fraction_part. split.
    + intros (h & t1 & -> & Hh & m & t2 & -> & Hm & c & t3 & -> & -> & sec & f & -> & Hsec & Hf).
      exists h, m, sec, f. split; [reflexivity|]. split; [|split; [exact Hm|split; [exact Hsec|]]].
      * destruct Hh as [(d & c & -> & Hd & ->)| ->]; [right; exists d; auto|left; reflexivity].
      * destruct Hf as [(c & d & -> & -> & Hd)| ->]; [right; exists d; auto|left; reflexivity].
    + intros (h & m & sec & f & -> & Hh & Hm & Hsec & Hf).
      exists h, (m ++ py ":" ++ sec ++ f). split; [reflexivity|]. split.
      * destruct Hh as [->|(d & -> & Hd)]; [right; reflexivity|].
        left. exists d, (py ":"). auto.
      * exists m, (py ":" ++ sec ++ f). split; [reflexivity|]. split; [exact Hm|].
        exists (py ":"), (sec ++ f). split; [reflexivity|]. split; [reflexivity|].
        exists sec, f. split; [reflexivity|]. split; [exact Hsec|].
        destruct Hf as [->|(d & -> & Hd)]; [right; reflexivity|].
        left. exists (py ","), d. auto.
Qed.

Lemma fullmatch_denotes p (L : pystr -> Prop) s :
  denotes (re_ignorecase p) (re_ast p) L ->
  re_fullmatch p s <> None <-> L s.
Proof.
  intros HL. unfold re_fullmatch. split.
  - intros H.
    destruct (run (re_ignorecase p) (re_ast p)
                  (fun _ s' g => match s' with [] => Some g | _ :: _ => None end)
                  None s []) as [v|] eqn:Hrun; [|congruence].
    apply run_sound in Hrun. destruct Hrun as (p' & s' & g' & Hm & Hk).
    destruct s' as [|x s']; [|discriminate].
    apply HL in Hm. destruct Hm as (tok & Hs & Ht & _). rewrite app_nil_r in Hs.
    subst. exact Ht.
  - intros Hs. eapply run_complete with (p' := prev_char None s) (s' := []) (g' := []).
    + apply HL. exists s. rewrite app_nil_r. auto.
    + discriminate.
Qed.

Lemma timestamp_nonempty token : timestamp token -> token <> [].
Proof.
  intros (h & m & sec & f & -> & _ & [[Hm _] _] & _). destruct m; [cbn in Hm; lia|].
  destruct h; discriminate.
Qed.

(** X8.  A token passes the timestamp test exactly when it is an optional
    hours part (one or two digits and a colon), one or two digits of
    minutes, a colon, exactly two digits of seconds, and an optional
    fraction (a comma and one to three digits), with nothing before or
    after. *)
Theorem is_probably_timestamp_spec token :
  is_probably_timestamp token = true <-> timestamp token.
Proof.
  pose proof (@fullmatch_denotes TIMESTAMP_RE timestamp token timestamp_ast) as H.
  unfold is_probably_timestamp. split.
  - destruct token as [|c token]; [discriminate|].
    destruct (re_fullmatch TIMESTAMP_RE (c :: token)); [|discriminate].
    intros _. apply H. discriminate.
  - intros Ht. pose proof (timestamp_nonempty Ht) as Hne.
    destruct token as [|c token]; [congruence|].
    apply H in Ht. destruct (re_fullmatch TIMESTAMP_RE (c :: token)); [reflexivity|congruence].
Qed.

Lemma digit_run_chars lo hi d c :
  digit_run lo hi d -> In c d -> is_digit c = true.
Proof. intros [_ H] Hin. rewrite forallb_forall in H. exact (H c Hin). Qed.

(** X9.  What passes the timestamp test has between 4 and 12 characters,
    all of them digits, colons or commas: no sign, no dot, no whitespace
    around the token is accepted. *)
Theorem is_probably_timestamp_shape token :
  is_probably_timestamp token = true ->
  4 <= length token <= 12
  /\ (forall c, In c token -> is_digit c = true \/ c = ":"%char \/ c = ","%char).
Proof.
  intros H. apply is_probably_timestamp_spec in H.
  destruct H as (h & m & sec & f & -> & Hh & Hm & Hsec & Hf). split.
  - rewrite !length_app. cbn [py list_ascii_of_string length].
    destruct Hm as [Hm _], Hsec as [Hsec _].
    assert (length h <= 3).
    { destruct Hh as [->|(d & -> & [Hd _])]; [cbn; lia|rewrite length_app; cbn; lia]. }
    assert (length f <= 4).
    { destruct Hf as [->|(d & -> & [Hd _])]; [cbn; lia|cbn; lia]. }
    lia.
  - intros c Hc. rewrite !in_app_iff in Hc.
    destruct Hc as [Hc|[Hc|[Hc|[Hc|Hc]]]].
    + destruct Hh as [->|(d & -> & Hd)]; [destruct Hc|].
      apply in_app_iff in Hc. destruct Hc as [Hc|[Hc|[]]].
      * left. exact (@digit_run_chars _ _ _ c Hd Hc).
      * right. left. auto.
    + left. exact (@digit_run_chars _ _ _ c Hm Hc).
    + destruct Hc as [Hc|[]]. right. left. auto.
    + left. exact (@digit_run_chars _ _ _ c Hsec Hc).
    + destruct Hf as [->|(d & -> & Hd)]; [destruct Hc|].
      destruct Hc as [Hc|Hc]; [right; right; auto|].
      left. exact (@digit_run_chars _ _ _ c Hd Hc).
Qed.

End TimestampProperties.

(** ** The brace scan of the share page scripts *)

Section BraceProperties.

Context {P : Platform}.

Lemma skipn_snoc (st : nat) (done : pystr) ch :
  st <= length done -> skipn st (done ++ [ch]) = skipn st done ++ [ch].
Proof.
  intros H. rewrite skipn_app. replace (st - length done) with 0 by lia. reflexivity.
Qed.

Lemma json_like_blobs rest :
  forall done depth start cur,
    (depth <> 0 ->
     exists st, start = Some st /\ st <= length done /\ rev cur = skipn st done) ->
    json_like_from (done ++ rest) rest (length done) depth start = blobs rest depth cur.
Proof.
  induction rest as [|ch rest IH]; intros done depth start cur Hinv; [reflexivity|].
  assert (E1 : done ++ ch :: rest = (done ++ [ch]) ++ rest)
    by (rewrite <- app_assoc; reflexivity).
  assert (E2 : S (length done) = length (done ++ [ch]))
    by (rewrite length_app; cbn; lia).
  assert (Hkeep : forall st, st <= length done -> rev cur = skipn st done ->
                             st <= length (done ++ [ch])
                             /\ rev (ch :: cur) = skipn st (done ++ [ch])).
  { intros st Hst Hcur. split; [rewrite <- E2; lia|].
    cbn [rev]. rewrite Hcur, skipn_snoc by exact Hst. reflexivity. }
  cbn [json_like_from blobs].
  destruct (Ascii.eqb ch "{"%char) eqn:Ho.
  - rewrite E1, E2. apply IH. intros _. destruct depth as [|d].
    + exists (length done). split; [reflexivity|]. split; [rewrite <- E2; lia|].
      rewrite skipn_app, skipn_all, Nat.sub_diag. reflexivity.
    + destruct Hinv as (st & -> & Hst & Hcur); [discriminate|].
      exists st. split; [reflexivity|]. exact (Hkeep st Hst Hcur).
  - destruct (Ascii.eqb ch "}"%char) eqn:Hc.
    + destruct depth as [|d].
      * rewrite E1, E2. apply IH. intros Hne. exfalso. apply Hne. reflexivity.
      * destruct Hinv as (st & -> & Hst & Hcur); [discriminate|]. destruct d as [|d].
        -- f_equal.
           ++ rewrite skipn_app. replace (st - length done) with 0 by lia.
              cbn [skipn]. rewrite <- Hcur, firstn_app.
              assert (Hlen : length (rev cur) = length done - st)
                by (rewrite Hcur; apply length_skipn).
              rewrite firstn_all2 by lia.
              replace (S (length done) - st - length (rev cur)) with 1 by lia.
              reflexivity.
           ++ rewrite E1, E2. apply IH. intros Hne. exfalso. apply Hne. reflexivity.
        -- rewrite E1, E2. apply IH. intros _. exists st. split; [reflexivity|].
           exact (Hkeep st Hst Hcur).
    + rewrite E1, E2. apply IH. intros Hne.
      destruct (Hinv Hne) as (st & -> & Hst & Hcur).
      exists st. split; [reflexivity|]. exact (Hkeep st Hst Hcur).
Qed.

Lemma extract_blobs s : _extract_json_like_strings s = blobs s 0 [].
Proof.
  unfold _extract_json_like_strings.
  apply (@json_like_blobs s [] 0 None []). intros H. exfalso. apply H. reflexivity.
Qed.

Lemma blobs_sound rest :
  forall depth cur b,
    In b (blobs rest depth cur) ->
    (exists pre body post,
        rest = pre ++ "{"%char :: body ++ "}"%char :: post
        /\ b = "{"%char :: body ++ ["}"%char] /\ balanced body)
    \/ (exists d x post,
           depth = S d /\ rest = x ++ "}"%char :: post
           /\ nest d x = Some 0 /\ b = rev cur ++ x ++ ["}"%char]).
Proof.
  induction rest as [|ch rest IH]; intros depth cur b; cbn [blobs]; [intros []|].
  assert (Hleft : forall dp cr, In b (blobs rest dp cr) ->
            (exists pre body post,
                rest = pre ++ "{"%char :: body ++ "}"%char :: post
                /\ b = "{"%char :: body ++ ["}"%char] /\ balanced body) ->
            exists pre body post,
              ch :: rest = pre ++ "{"%char :: body ++ "}"%char :: post
              /\ b = "{"%char :: body ++ ["}"%char] /\ balanced body).
  { intros _ _ _ (pre & body & post & Hr & Hb & Hbal).
    exists (ch :: pre), body, post. rewrite Hr. auto. }
  destruct (Ascii.eqb ch "{"%char) eqn:Ho.
  - apply Ascii.eqb_eq in Ho. subst ch. intros Hin.
    destruct (IH _ _ _ Hin) as [H|(d & x & post & Hd & Hr & Hn & Hb)];
      [left; exact (Hleft _ _ Hin H)|].
    inversion Hd; subst d. destruct depth as [|d].
    + left. exists [], x, post. rewrite Hr. auto.
    + right. exists d, ("{"%char :: x), post. rewrite Hr.
      cbn [nest rev Ascii.eqb Bool.eqb] in Hb |- *. rewrite <- !app_assoc in Hb. auto.
  - destruct (Ascii.eqb ch "}"%char) eqn:Hc.
    + apply Ascii.eqb_eq in Hc. subst ch. destruct depth as [|[|d]].
      * intros Hin.
        destruct (IH _ _ _ Hin) as [H|(d & x & post & Hd & _)];
          [left; exact (Hleft _ _ Hin H)|discriminate].
      * intros [Hb|Hin].
        -- right. exists 0, [], rest. cbn [rev] in Hb. subst b. auto.
        -- destruct (IH _ _ _ Hin) as [H|(d & x & post & Hd & _)];
             [left; exact (Hleft _ _ Hin H)|discriminate].
      * intros Hin.
        destruct (IH _ _ _ Hin) as [H|(d' & x & post & Hd & Hr & Hn & Hb)];
          [left; exact (Hleft _ _ Hin H)|].
        inversion Hd; subst d'.
        right. exists (S d), ("}"%char :: x), post. rewrite Hr.
        cbn [nest rev Ascii.eqb Bool.eqb] in Hb |- *. rewrite <- !app_assoc in Hb. auto.
    + intros Hin.
      destruct (IH _ _ _ Hin) as [H|(d & x & post & Hd & Hr & Hn & Hb)];
        [left; exact (Hleft _ _ Hin H)|].
      right. exists d, (ch :: x), post. rewrite Hr. cbn [nest rev] in Hb |- *.
      rewrite Ho, Hc. rewrite <- !app_assoc in Hb. auto.
Qed.

(** X10.  Every candidate that the brace scan yields is a piece of the
    scanned text that opens with a brace, closes with the matching brace,
    and has properly nested braces in between. *)
Theorem json_like_strings_are_blocks s b :
  In b (_extract_json_like_strings s) ->
  exists pre body post,
    s = pre ++ b ++ post
    /\ b = "{"%char :: body ++ ["}"%char]
    /\ balanced body.
Proof.
  rewrite extract_blobs. intros Hin.
  destruct (blobs_sound _ _ _ _ Hin) as [(pre & body & post & Hs & Hb & Hbal)
                                        |(d & x & post & Hd & _)]; [|discriminate].
  exists pre, body, post. subst. cbn [app]. rewrite <- app_assoc. auto.
Qed.

Lemma blobs_cur rest : forall cur cur', blobs rest 0 cur = blobs rest 0 cur'.
Proof.
  induction rest as [|ch rest IH]; intros cur cur'; cbn [blobs]; [reflexivity|].
  destruct (Ascii.eqb ch "{"%char); [reflexivity|].
  destruct (Ascii.eqb ch "}"%char); apply IH.
Qed.

Lemma blobs_skip pre :
  no_open pre -> forall rest cur, blobs (pre ++ rest) 0 cur = blobs rest 0 [].
Proof.
  unfold no_open. induction pre as [|ch pre IH]; intros Hpre rest cur; cbn [app].
  - apply blobs_cur.
  - cbn [forallb] in Hpre. apply andb_true_iff in Hpre. destruct Hpre as [Hch Hpre].
    apply negb_true_iff in Hch. cbn [blobs]. rewrite Hch.
    destruct (Ascii.eqb ch "}"%char); apply (IH Hpre).
Qed.

Lemma blobs_body body :
  forall d d' cur rest,
    nest d body = Some d' ->
    blobs (body ++ rest) (S d) cur = blobs rest (S d') (rev body ++ cur).
Proof.
  induction body as [|ch body IH]; intros d d' cur rest; cbn [nest app blobs rev].
  - intros H. inversion H. reflexivity.
  - destruct (Ascii.eqb ch "{"%char).
    + intros H. rewrite (IH _ _ _ _ H), <- app_assoc. reflexivity.
    + destruct (Ascii.eqb ch "}"%char).
      * destruct d as [|d]; [discriminate|].
        intros H. rewrite (IH _ _ _ _ H), <- app_assoc. reflexivity.
      * intros H. rewrite (IH _ _ _ _ H), <- app_assoc. reflexivity.
Qed.

Lemma blobs_open_end body :
  forall d d' cur, nest d body = Some d' -> blobs body (S d) cur = [].
Proof.
  intros d d' cur H. pose proof (@blobs_body body d d' cur [] H) as E.
  rewrite app_nil_r in E. exact E.
Qed.

(** X11.  The brace scan block by block: text before the first opening
    brace is skipped; a block with properly nested braces is yielded whole
    and the scan goes on after it; a block that is never closed yields
    nothing. *)
Theorem json_like_strings_scan pre body post :
  no_open pre ->
  _extract_json_like_strings pre = []
  /\ (balanced body ->
      _extract_json_like_strings (pre ++ "{"%char :: body ++ "}"%char :: post)
      = ("{"%char :: body ++ ["}"%char]) :: _extract_json_like_strings post)
  /\ (forall d, nest 0 body = Some d ->
                _extract_json_like_strings (pre ++ "{"%char :: body) = []).
Proof.
  intros Hpre. rewrite !extract_blobs. split; [|split].
  - pose proof (@blobs_skip pre Hpre [] []) as E. rewrite app_nil_r in E. exact E.
  - intros Hbal. rewrite (blobs_skip Hpre). cbn [blobs Ascii.eqb Bool.eqb].
    rewrite (@blobs_body body 0 0 ["{"%char] ("}"%char :: post) Hbal).
    cbn [blobs Ascii.eqb Bool.eqb rev]. rewrite rev_app_distr, rev_involutive.
    reflexivity.
  - intros d Hd. rewrite (blobs_skip Hpre). cbn [blobs Ascii.eqb Bool.eqb].
    exact (@blobs_open_end body 0 d ["{"%char] Hd).
Qed.

End BraceProperties.

(** ** Errors of the payload interpreter *)

Section PayloadErrors.

Context {P : Platform}.

#[local] Arguments api_urls : simpl never.
#[local] Arguments py : simpl never.

Lemma caption_text_dict c :
  is_dict c = true -> caption_text c = Ok (caption_value c).
Proof. destruct c; cbn; try discriminate. reflexivity. Qed.

Lemma caption_text_other c :
  is_dict c = false -> caption_text c = Raise AttributeError.
Proof. destruct c; cbn; try discriminate; reflexivity. Qed.

Lemma collect_captions_ok items :
  Forall (fun c => is_dict c = true) items ->
  forall acc,
    collect_fragments caption_text items acc
    = Ok (acc ++ filter truthy (map caption_value items)).
Proof.
  induction 1 as [|c items Hc _ IH]; intros acc; cbn [collect_fragments map filter].
  - rewrite app_nil_r. reflexivity.
  - rewrite (caption_text_dict _ Hc), IH. destruct (truthy (caption_value c)).
    + rewrite <- app_assoc. reflexivity.
    + reflexivity.
Qed.

Lemma collect_captions_attr items :
  Exists (fun c => is_dict c = false) items ->
  forall acc, collect_fragments caption_text items acc = Raise AttributeError.
Proof.
  induction items as [|c items IH]; intros Hex acc; [inversion Hex|].
  cbn [collect_fragments]. destruct (is_dict c) eqn:Hc.
  - rewrite (caption_text_dict _ Hc). apply IH.
    inversion Hex as [? ? Hc'|]; [congruence|assumption].
  - rewrite (caption_text_other _ Hc). reflexivity.
Qed.

Lemma dicts_or_not (items : list json) :
  Forall (fun c => is_dict c = true) items \/ Exists (fun c => is_dict c = false) items.
Proof.
  induction items as [|c items [IH|IH]]; [left; constructor| |right; constructor 2; exact IH].
  destruct (is_dict c) eqn:Hc; [left; constructor; assumption|right; constructor; exact Hc].
Qed.

Lemma dicts_and_not (items : list json) :
  Forall (fun c => is_dict c = true) items ->
  Exists (fun c => is_dict c = false) items -> False.
Proof.
  intros Hall Hex. apply Exists_exists in Hex. destruct Hex as (c & Hin & Hc).
  rewrite Forall_forall in Hall. specialize (Hall c Hin). congruence.
Qed.

Lemma as_strings_none fragments :
  as_strings fragments = None <-> Exists (fun j => is_str j = false) fragments.
Proof.
  induction fragments as [|j rest IH]; cbn [as_strings].
  - split; [discriminate|]. intros H. inversion H.
  - destruct j as [| | | |s| |]; try (split; [intros _; constructor; reflexivity|reflexivity]).
    destruct (as_strings rest) as [l|].
    + split; [discriminate|]. intros H. inversion H as [? ? Hj|? ? Hrest]; [discriminate|].
      apply IH in Hrest. discriminate.
    + split; [intros _; constructor 2; apply IH; reflexivity|reflexivity].
Qed.

Lemma joined_or_none_outcome fragments :
  (as_strings fragments = None /\ joined_or_none fragments = Raise TypeError)
  \/ (as_strings fragments <> None /\ exists r, joined_or_none fragments = Ok r).
Proof.
  unfold joined_or_none, join_fragments. destruct fragments as [|j rest].
  - right. split; [discriminate|]. eauto.
  - destruct (as_strings (j :: rest)) as [l|].
    + right. split; [discriminate|]. eauto.
    + left. auto.
Qed.

Lemma odd_fragments items :
  Exists (fun j => is_str j = false) (filter truthy (map caption_value items))
  <-> Exists odd_caption items.
Proof.
  rewrite !Exists_exists. split.
  - intros (j & Hin & Hj). apply filter_In in Hin. destruct Hin as [Hin Htr].
    apply in_map_iff in Hin. destruct Hin as (c & <- & Hc). exists c. split; [exact Hc|].
    split; assumption.
  - intros (c & Hc & Htr & Hs). exists (caption_value c). split; [|exact Hs].
    apply filter_In. split; [apply in_map; exact Hc|exact Htr].
Qed.

Lemma captions_outcome items :
  (Exists (fun c => is_dict c = false) items
   /\ fragments_result (collect_fragments caption_text items []) = Raise AttributeError)
  \/ (Forall (fun c => is_dict c = true) items /\ Exists odd_caption items
      /\ fragments_result (collect_fragments caption_text items []) = Raise TypeError)
  \/ (Forall (fun c => is_dict c = true) items /\ ~ Exists odd_caption items
      /\ exists r, fragments_result (collect_fragments caption_text items []) = Ok r).
Proof.
  destruct (dicts_or_not items) as [Hall|Hex].
  - right. rewrite (collect_captions_ok Hall). cbn [app fragments_result].
    destruct (joined_or_none_outcome (filter truthy (map caption_value items)))
      as [[Hnone Hr]|[Hsome Hr]].
    + left. split; [exact Hall|]. split; [|exact Hr].
      apply odd_fragments, as_strings_none. exact Hnone.
    + right. split; [exact Hall|]. split; [|exact Hr].
      intros Hodd. apply Hsome, as_strings_none, odd_fragments. exact Hodd.
  - left. split; [exact Hex|]. rewrite (collect_captions_attr Hex). reflexivity.
Qed.

(** X12.  A [captions] list in an API body makes the interpreter fail in
    exactly two ways: with an [AttributeError] when some item is not a map,
    and, when all items are maps, with a [TypeError] when the value picked
    from some item is truthy and not a string. *)
Theorem captions_payload_errors kvs items :
  (forall t, dict_get (py "transcript") kvs <> Some (JStr t)) ->
  dict_get (py "captions") kvs = Some (JList items) ->
  (interpret_payload (JDict kvs) = Raise AttributeError
   <-> Exists (fun c => is_dict c = false) items)
  /\ (interpret_payload (JDict kvs) = Raise TypeError
      <-> Forall (fun c => is_dict c = true) items /\ Exists odd_caption items)
  /\ (forall e, interpret_payload (JDict kvs) = Raise e ->
                e = AttributeError \/ e = TypeError).
Proof.
  intros Htr Hcap.
  assert (E : interpret_payload (JDict kvs)
              = fragments_result (collect_fragments caption_text items [])).
  { cbn [interpret_payload]. rewrite Hcap.
    destruct (dict_get (py "transcript") kvs) as [[| | | |t| |]|] eqn:Ht; try reflexivity.
    exfalso. exact (Htr t eq_refl). }
  rewrite E.
  destruct (captions_outcome items)
    as [[Hex Hr]|[(Hall & Hodd & Hr)|(Hall & Hodd & r & Hr)]]; rewrite Hr.
  - split; [tauto|]. split; [|intros e He; inversion He; auto].
    split; [discriminate|]. intros [Hall _]. exfalso. exact (dicts_and_not Hall Hex).
  - split; [|split; [tauto|intros e He; inversion He; auto]].
    split; [discriminate|]. intros Hex. exfalso. exact (dicts_and_not Hall Hex).
  - split; [|split; [|discriminate]].
    + split; [discriminate|]. intros Hex. exfalso. exact (dicts_and_not Hall Hex).
    + split; [discriminate|]. intros [_ H]. contradiction.
Qed.

Lemma collect_raise text_of (Q : exn -> Prop) items :
  (forall c e, text_of c = Raise e -> Q e) ->
  forall acc e, collect_fragments text_of items acc = Raise e -> Q e.
Proof.
  intros Ht. induction items as [|c items IH]; intros acc e; cbn [collect_fragments].
  - discriminate.
  - destruct (text_of c) as [txt|e'] eqn:Hc.
    + apply IH.
    + intros H. inversion H. subst. exact (Ht _ _ Hc).
Qed.

Lemma fragments_result_raise r e :
  fragments_result r = Raise e -> r = Raise e \/ e = TypeError.
Proof.
  destruct r as [fragments|e']; cbn [fragments_result].
  - destruct (joined_or_none_outcome fragments) as [[_ Hr]|[_ [x Hr]]]; rewrite Hr.
    + intros H. inversion H. auto.
    + discriminate.
  - intros H. inversion H. auto.
Qed.

Lemma interpret_payload_errors data e :
  interpret_payload data = Raise e -> e = AttributeError \/ e = TypeError.
Proof.
  assert (Hcap : forall c e0, caption_text c = Raise e0 -> e0 = AttributeError \/ e0 = TypeError).
  { intros c e0. destruct c; cbn; intros H; inversion H; auto. }
  destruct data as [| | | | |items|kvs]; cbn [interpret_payload]; try discriminate.
  - intros H. apply fragments_result_raise in H. destruct H as [H|H]; [|auto].
    refine (@collect_raise _ (fun e0 => e0 = AttributeError \/ e0 = TypeError)
                           items _ [] e H).
    intros c e0. destruct c; discriminate.
  - destruct (dict_get (py "transcript") kvs) as [[| | | |t| |]|]; try discriminate.
    all: destruct (dict_get (py "captions") kvs) as [[| | | | |captions|]|];
      try (destruct (dict_get (py "data") kvs) as [[| | | | | |inner]|]; try discriminate;
           destruct (dict_get (py "transcript") inner) as [[| | | |t'| |]|]; discriminate).
    all: intros H; apply fragments_result_raise in H; destruct H as [H|H]; [|auto];
      exact (@collect_raise _ (fun e0 => e0 = AttributeError \/ e0 = TypeError)
                            captions Hcap [] e H).
Qed.

Lemma try_fetch_body url w resp w' data :
  http_get url w = (inl resp, w') ->
  status_code resp < 400 \/ 600 <= status_code resp ->
  json_loads (text resp) = Some data ->
  _try_fetch_json_transcript url w = (interpret_payload data, w', [Get url]).
Proof.
  intros Hget Hst Hjson.
  unfold _try_fetch_json_transcript, fetch_json, catch, session_get.
  rewrite !bind_run, Hget.
  assert (H404 : (status_code resp =? 404) = false) by (apply Nat.eqb_neq; lia).
  rewrite H404, bind_run. unfold raise_for_status.
  assert (Hok : (400 <=? status_code resp) && (status_code resp <? 600) = false).
  { apply andb_false_iff. destruct Hst as [H|H];
      [left; apply Nat.leb_gt; lia|right; apply Nat.ltb_ge; lia]. }
  rewrite Hok. cbn. unfold resp_json. rewrite Hjson. cbn. unfold lift.
  destruct (interpret_payload data); reflexivity.
Qed.

(** X13.  An exception of the payload interpreter is not caught: when the
    first guessed endpoint answers with a body on which the interpreter
    fails, the whole discovery call fails with that exception after this one
    request; no other endpoint or page is tried and nothing is retried. *)
Theorem payload_error_aborts_discovery video_id w resp w' data e :
  http_get (hd [] (api_urls video_id)) w = (inl resp, w') ->
  status_code resp < 400 \/ 600 <= status_code resp ->
  json_loads (text resp) = Some data ->
  interpret_payload data = Raise e ->
  fetch_transcript_text video_id w
  = (Raise e, w', [Get (hd [] (api_urls video_id))]).
Proof.
  intros Hget Hst Hjson He.
  pose proof (try_fetch_body _ _ Hget Hst Hjson) as Htry. rewrite He in Htry.
  assert (Hone : fetch_transcript_text_once video_id w
                 = (Raise e, w', [Get (hd [] (api_urls video_id))])).
  { unfold fetch_transcript_text_once. unfold api_urls in *. cbn [hd] in *.
    cbn [try_apis]. rewrite !bind_run, Htry. reflexivity. }
  unfold fetch_transcript_text. rewrite retry_call_run, Hone.
  destruct (interpret_payload_errors _ He) as [-> | ->]; reflexivity.
Qed.

End PayloadErrors.

(** ** The whole discovery call: its requests and its outcomes *)

Section CallProperties.

Context {P : Platform}.

#[local] Arguments api_urls : simpl never.
#[local] Arguments share_url : simpl never.
#[local] Arguments embed_url : simpl never.
#[local] Arguments py : simpl never.

Lemma request_order_length video_id : length (request_order video_id) = 5.
Proof. reflexivity. Qed.

Lemma pass_trace video_id w :
  pass_requests video_id (snd (fetch_transcript_text_once video_id w)).
Proof.
  destruct (fetch_transcript_text_once video_id w) as [[r w'] tr] eqn:H. cbn [snd].
  destruct (fetch_once_starts_at_first _ _ H) as [rest Hrest].
  rewrite fetch_once_is_chain in H. apply discover_requests in H. destruct H as [n Hn].
  exists (Nat.min n 5). split.
  - destruct n as [|n]; [subst tr; discriminate|]. lia.
  - rewrite Hn. rewrite <- (firstn_all (request_order video_id)) at 1.
    rewrite request_order_length, firstn_firstn. reflexivity.
Qed.

Lemma retry_call_passes {A} retry (call : M World A) left :
  forall attempt w,
    exists passes,
      snd (retry_call retry left attempt call w) = with_waits attempt passes
      /\ 1 <= length passes <= S left
      /\ Forall (fun p => exists w0, p = snd (call w0)) passes.
Proof.
  induction left as [|left IH]; intros attempt w; rewrite retry_call_run;
    destruct (call w) as [[[a|e] w1] t1] eqn:Hc.
  1, 3: exists [t1]; cbn; split; [reflexivity|]; split; [lia|];
    constructor; [exists w; rewrite Hc; reflexivity|constructor].
  - exists [t1]. destruct (retry e); cbn; rewrite ?app_nil_r;
      (split; [reflexivity|]; split; [lia|];
       constructor; [exists w; rewrite Hc; reflexivity|constructor]).
  - destruct (retry e).
    + destruct (IH (S attempt) w1) as (passes & Htr & Hlen & Hall).
      destruct (retry_call retry left (S attempt) call w1) as [[r w2] t2].
      cbn [snd] in *. exists (t1 :: passes). subst t2.
      destruct passes as [|p passes]; [cbn in Hlen; lia|].
      split; [reflexivity|]. split; [cbn [length] in *; lia|].
      constructor; [exists w; rewrite Hc; reflexivity|exact Hall].
    + exists [t1]. cbn. split; [reflexivity|]. split; [lia|].
      constructor; [exists w; rewrite Hc; reflexivity|constructor].
Qed.

Lemma pass_gets video_id p :
  pass_requests video_id p ->
  length (filter is_get p) <= 5 /\ filter is_sleep p = [].
Proof.
  intros (n & Hn & ->). split.
  - etransitivity; [apply filter_length_le|]. rewrite length_firstn, request_order_length. lia.
  - unfold request_order.
    assert (H : forall urls k, filter is_sleep (firstn k (map Get urls)) = []).
    { induction urls as [|u urls IH]; intros [|k]; cbn; auto. }
    apply H.
Qed.

Lemma with_waits_counts video_id passes :
  Forall (pass_requests video_id) passes ->
  forall attempt,
    length (filter is_get (with_waits attempt passes)) <= 5 * length passes
    /\ length (filter is_sleep (with_waits attempt passes)) <= length passes - 1.
Proof.
  induction 1 as [|p passes Hp Hall IH]; intros attempt; [cbn; lia|].
  destruct (pass_gets Hp) as [Hg Hs]. cbn [with_waits].
  destruct passes as [|q passes].
  - rewrite Hs. cbn. lia.
  - destruct (IH (S attempt)) as [IHg IHs].
    rewrite !filter_app, !length_app, Hs. cbn [filter is_get is_sleep length app] in *.
    lia.
Qed.

(** X14.  The requests of a whole discovery call: one, two or three
    passes, separated by the waits numbered 1 and 2, each pass asking for
    the first one to five addresses of the fixed order; so a call makes at
    most fifteen requests and waits at most twice. *)
Theorem fetch_transcript_text_requests video_id w :
  exists passes,
    snd (fetch_transcript_text video_id w) = with_waits 1 passes
    /\ 1 <= length passes <= MAX_ATTEMPTS
    /\ Forall (pass_requests video_id) passes
    /\ length (filter is_get (snd (fetch_transcript_text video_id w))) <= 15
    /\ length (filter is_sleep (snd (fetch_transcript_text video_id w))) <= 2.
Proof.
  unfold fetch_transcript_text. change (MAX_ATTEMPTS - 1) with 2.
  destruct (retry_call_passes is_retried (fetch_transcript_text_once video_id) 2 1 w)
    as (passes & Htr & Hlen & Hall).
  assert (Hpasses : Forall (pass_requests video_id) passes).
  { eapply Forall_impl; [|exact Hall]. intros p [w0 ->]. apply pass_trace. }
  exists passes. rewrite Htr. split; [reflexivity|]. split; [exact Hlen|].
  split; [exact Hpasses|].
  destruct (with_waits_counts Hpasses 1) as [Hg Hs]. change MAX_ATTEMPTS with 3 in Hlen.
  lia.
Qed.

Lemma retry_call_outcome {A} retry (call : M World A) left :
  forall attempt w,
    exists w0, fst (fst (retry_call retry left attempt call w)) = fst (fst (call w0)).
Proof.
  induction left as [|left IH]; intros attempt w; rewrite retry_call_run;
    destruct (call w) as [[[a|e] w1] t1] eqn:Hc.
  1, 3: exists w; rewrite Hc; reflexivity.
  - exists w. rewrite Hc. destruct (retry e); reflexivity.
  - destruct (retry e).
    + destruct (IH (S attempt) w1) as [w0 H0].
      destruct (retry_call retry left (S attempt) call w1) as [[r w2] t2].
      exists w0. exact H0.
    + exists w. rewrite Hc. reflexivity.
Qed.

Lemma try_fetch_outcome url w e w' tr :
  _try_fetch_json_transcript url w = (Raise e, w', tr) ->
  e = AttributeError \/ e = TypeError.
Proof.
  unfold _try_fetch_json_transcript. rewrite bind_run.
  destruct (fetch_json_run url w) as (j & w1 & ->).
  destruct j as [data|]; cbn.
  - unfold lift. destruct (interpret_payload data) as [r|e0] eqn:Hd; [discriminate|].
    intros H. inversion H. subst. exact (interpret_payload_errors _ Hd).
  - discriminate.
Qed.

Lemma try_apis_outcome apis :
  forall w r w' tr,
    try_apis apis w = (r, w', tr) ->
    match r with
    | Ok (Some t) => nonempty t = true
    | Ok None => True
    | Raise e => e = AttributeError \/ e = TypeError
    end.
Proof.
  induction apis as [|url apis IH]; intros w r w' tr; cbn [try_apis].
  - unfold ret. intros H. inversion H. exact I.
  - rewrite bind_run.
    destruct (_try_fetch_json_transcript url w) as [[[a|e] w1] t1] eqn:Hf.
    + destruct (has_text a) eqn:Ha.
      * cbn. intros H. inversion H. subst. destruct a as [t|]; [exact Ha|exact I].
      * destruct (try_apis apis w1) as [[r2 w2] t2] eqn:Hrest.
        intros H. inversion H. subst. exact (IH _ _ _ _ Hrest).
    + intros H. inversion H. subst. exact (try_fetch_outcome _ _ Hf).
Qed.

Lemma get_outcome url w e w' tr :
  _get url w = (Raise e, w', tr) -> expected_failure e.
Proof.
  unfold _get, session_get. rewrite bind_run.
  destruct (http_get url w) as [[resp|e0] w1] eqn:Hget.
  - destruct (status_code resp =? 401) eqn:H401;
      [|destruct (status_code resp =? 403) eqn:H403;
        [|destruct (status_code resp =? 404) eqn:H404]]; cbn.
    1, 2, 3: intros H; inversion H; right; left; exists (status_code resp);
      split; [|reflexivity]; unfold UNAVAILABLE_STATUS; cbn [In].
    + apply Nat.eqb_eq in H401. auto.
    + apply Nat.eqb_eq in H403. auto.
    + apply Nat.eqb_eq in H404. auto.
    + unfold raise_for_status.
      destruct ((400 <=? status_code resp) && (status_code resp <? 600)) eqn:Hst; cbn;
        [|discriminate].
      intros H. inversion H. right. right. right. left. exists (status_code resp).
      apply andb_true_iff in Hst. destruct Hst as [Hlo Hhi].
      apply Nat.leb_le in Hlo. apply Nat.ltb_lt in Hhi.
      apply Nat.eqb_neq in H401, H403, H404.
      split; [lia|]. split; [|reflexivity].
      unfold UNAVAILABLE_STATUS. cbn [In]. intros [Hx|[Hx|[Hx|[]]]]; congruence.
  - intros H. inversion H. right. right. left. exists url, w, w1, e0. auto.
Qed.

Lemma pass_outcome video_id w :
  expected_outcome (fst (fst (fetch_transcript_text_once video_id w))).
Proof.
  unfold fetch_transcript_text_once. rewrite bind_run.
  destruct (try_apis (api_urls video_id) w) as [[[[t|]|e] w1] t1] eqn:Hapis;
    pose proof (try_apis_outcome _ _ Hapis) as Ho; cbn [fst].
  - cbn. exact Ho.
  - rewrite bind_run.
    destruct (_get (share_url video_id) w1) as [[[html|e] w2] t2] eqn:Hshare;
      [|exact (get_outcome _ _ Hshare)].
    destruct (_parse_share_page_for_transcript html) as [[|c t]|]; cbn [fst];
      try reflexivity.
    all: rewrite bind_run;
      destruct (_get (embed_url video_id) w2) as [[[html'|e'] w3] t3] eqn:Hembed;
      [|exact (get_outcome _ _ Hembed)];
      destruct (_parse_share_page_for_transcript html') as [[|c' t']|]; cbn;
      first [reflexivity | left; reflexivity].
  - cbn. destruct Ho as [-> | ->]; unfold expected_failure; auto 10.
Qed.

(** X15.  How a discovery call can end: with a non-empty text, or with the
    not-found error, the unavailable error of a page that answered 401, 403
    or 404, an exception of the transport, the error of another status from
    400 to 599 of a page, or one of the two failures of the payload
    heuristics.  A body that is not JSON never surfaces as an error. *)
Theorem fetch_transcript_text_outcomes video_id w :
  expected_outcome (fst (fst (fetch_transcript_text video_id w)))
  /\ fst (fst (fetch_transcript_text video_id w)) <> Raise ValueError.
Proof.
  unfold fetch_transcript_text.
  destruct (retry_call_outcome is_retried (fetch_transcript_text_once video_id)
                               (MAX_ATTEMPTS - 1) 1 w) as [w0 ->].
  pose proof (pass_outcome video_id w0) as H. split; [exact H|].
  destruct (fst (fst (fetch_transcript_text_once video_id w0))) as [t|e];
    [discriminate|].
  intros He. inversion He. subst e. cbn in H. unfold expected_failure in H.
  destruct H as [H|[(st & _ & H)|[(url & w1 & w2 & r & _ & H)|[(st & _ & _ & H)|[H|H]]]]];
    discriminate H.
Qed.

Lemma first_text_some f l t :
  first_text f l = Some t -> exists x, In x l /\ f x = Some t /\ nonempty t = true.
Proof.
  induction l as [|x l IH]; cbn [first_text]; [discriminate|].
  destruct (has_text (f x)) eqn:Hx.
  - intros H. exists x. rewrite H in Hx. cbn in Hx. cbn [In]. auto.
  - intros H. destruct (IH H) as (y & Hy & Hf & Hne). exists y. cbn [In]. auto.
Qed.

Lemma text_from_data_long data t :
  text_from_data data = Some t -> 40 < length t /\ stripped t.
Proof.
  unfold text_from_data.
  pose proof (strip_stripped (str_join [LF] (walk MAX_SEEN ([], [data])))) as Hs.
  remember (str_strip (str_join [LF] (walk MAX_SEEN ([], [data])))) as x eqn:Hx.
  clear Hx. unfold long_enough. destruct (40 <? length x) eqn:Hlen; [|discriminate].
  intros H. injection H as <-. apply Nat.ltb_lt in Hlen. auto.
Qed.

Lemma blob_text_long blob t :
  _extract_text_from_json_blob blob = Some t -> 40 < length t /\ stripped t.
Proof.
  unfold _extract_text_from_json_blob. destruct (json_loads blob) as [data|].
  - apply text_from_data_long.
  - destruct (json_loads (re_sub SINGLE_QUOTE_RE [DQUOTE] blob)) as [data|];
      [apply text_from_data_long|discriminate].
Qed.

(** X16.  A text that the page scraper returns has more than forty
    characters, and it is either the stripped text found in a brace block of
    a script that mentions the word, or a text node of the page in which the
    word stands alone.  So the scraper never returns an empty text. *)
Theorem share_page_text html t :
  _parse_share_page_for_transcript html = Some t ->
  40 < length t
  /\ nonempty t = true
  /\ ((exists script blob,
          In script (bs_scripts html) /\ mentions_transcript script = true
          /\ In blob (_extract_json_like_strings script)
          /\ _extract_text_from_json_blob blob = Some t /\ stripped t)
      \/ (In t (bs_strings html) /\ re_search TRANSCRIPT_WORD_RE t <> None)).
Proof.
  unfold _parse_share_page_for_transcript.
  assert (Hne : 40 < length t -> nonempty t = true).
  { destruct t; cbn; [lia|reflexivity]. }
  destruct (first_text _extract_text_from_json_blob (script_blobs html)) as [txt|] eqn:Hft.
  - intros H. inversion H. subst txt. apply first_text_some in Hft.
    destruct Hft as (blob & Hin & Hblob & _).
    destruct (blob_text_long _ Hblob) as [Hlen Hstr].
    split; [exact Hlen|]. split; [exact (Hne Hlen)|]. left.
    unfold script_blobs in Hin. apply in_flat_map in Hin.
    destruct Hin as (script & Hscript & Hb). apply filter_In in Hscript.
    exists script, blob. tauto.
  - intros H. apply find_some in H. destruct H as [Hin Hlen].
    apply Nat.ltb_lt in Hlen. split; [exact Hlen|]. split; [exact (Hne Hlen)|]. right.
    unfold matching_text_nodes in Hin. apply filter_In in Hin. destruct Hin as [Hin Hm].
    split; [exact Hin|]. destruct (re_search TRANSCRIPT_WORD_RE t); [discriminate|discriminate].
Qed.

End CallProperties.

(** ** Where the fragments of the walk come from *)

Section WalkOrigin.

Lemma scalar_within T v :
  is_scalar v = true -> within T v -> In (scalar_str v) T.
Proof.
  unfold within. destruct v; cbn [is_scalar scalar_texts]; try discriminate;
    intros _ H; apply H; left; reflexivity.
Qed.

Lemma text_item_scalar item : is_text_item item = true -> is_scalar item = true.
Proof. unfold is_text_item. intros H. apply andb_true_iff in H. tauto. Qed.

Lemma within_items T items :
  within T (JList items) -> Forall (within T) items.
Proof.
  unfold within. cbn [scalar_texts]. intros H. apply Forall_forall. intros v Hv f Hf.
  apply H, in_flat_map. exists v. auto.
Qed.

Lemma within_values T kvs :
  within T (JDict kvs) -> Forall (within T) (dict_values kvs).
Proof.
  unfold within, dict_values. cbn [scalar_texts]. intros H. apply Forall_forall.
  intros v Hv f Hf. apply in_map_iff in Hv. destruct Hv as ([k v'] & Hsnd & Hkv).
  cbn in Hsnd. subst v'. apply H, in_flat_map. exists (k, v). auto.
Qed.

Lemma grown_refl T st : grown_within T st st.
Proof. split; auto. Qed.

Lemma grown_fragment T st0 frs queue f :
  grown_within T st0 (frs, queue) -> In f T -> grown_within T st0 (frs ++ [f], queue).
Proof.
  intros [Hf Hq] Hin. split; cbn [fst snd] in *; [|exact Hq].
  intros x Hx. apply in_app_iff in Hx. destruct Hx as [Hx|[<-|[]]]; auto.
Qed.

Lemma grown_node T st0 frs queue v :
  grown_within T st0 (frs, queue) -> within T v -> grown_within T st0 (frs, queue ++ [v]).
Proof.
  intros [Hf Hq] Hin. split; cbn [fst snd] in *; [exact Hf|].
  intros x Hx. apply in_app_iff in Hx. destruct Hx as [Hx|[<-|[]]]; auto.
Qed.

Lemma visit_key_items_grown T st0 items :
  Forall (within T) items ->
  forall st, grown_within T st0 st -> grown_within T st0 (visit_key_items items st).
Proof.
  induction 1 as [|item items Hitem _ IH]; intros [frs queue] Hst; cbn [visit_key_items];
    [exact Hst|].
  apply IH. destruct (is_text_item item) eqn:Ht.
  - apply grown_fragment; [exact Hst|].
    apply scalar_within; [exact (@text_item_scalar item Ht)|exact Hitem].
  - apply grown_node; assumption.
Qed.

Lemma visit_key_grown T st0 kvs key :
  Forall (within T) (dict_values kvs) ->
  forall st, grown_within T st0 st -> grown_within T st0 (visit_key kvs st key).
Proof.
  intros Hvals [frs queue] Hst. unfold visit_key.
  destruct (dict_get key kvs) as [val|] eqn:Hget; [|exact Hst].
  apply dict_get_In in Hget. rewrite Forall_forall in Hvals.
  specialize (Hvals val Hget).
  destruct val as [| | | |s|items|inner]; try exact Hst.
  - destruct (20 <? length s); [|exact Hst].
    apply grown_fragment; [exact Hst|]. exact (@scalar_within T (JStr s) eq_refl Hvals).
  - apply visit_key_items_grown; [apply within_items; exact Hvals|exact Hst].
  - apply grown_node; assumption.
Qed.

Lemma visit_keys_grown T st0 kvs keys :
  Forall (within T) (dict_values kvs) ->
  forall st, grown_within T st0 st ->
             grown_within T st0 (fold_left (visit_key kvs) keys st).
Proof.
  intros Hvals. induction keys as [|key keys IH]; intros st Hst; cbn [fold_left];
    [exact Hst|].
  apply IH, visit_key_grown; assumption.
Qed.

Lemma enqueue_children_grown T st0 vs st :
  Forall (within T) vs -> grown_within T st0 st ->
  grown_within T st0 (enqueue_children vs st).
Proof.
  intros Hvs [Hf Hq]. unfold enqueue_children. split; cbn [fst snd]; [exact Hf|].
  intros q Hin. apply in_app_iff in Hin. destruct Hin as [Hin|Hin]; [auto|].
  apply filter_In in Hin. rewrite Forall_forall in Hvs. right. apply Hvs. tauto.
Qed.

Lemma visit_list_items_grown T st0 items :
  Forall (within T) items ->
  forall st, grown_within T st0 st -> grown_within T st0 (visit_list_items items st).
Proof.
  induction 1 as [|v items Hv _ IH]; intros [frs queue] Hst; cbn [visit_list_items];
    [exact Hst|].
  apply IH. destruct (is_container v).
  - apply grown_node; assumption.
  - destruct (is_text_item v) eqn:Ht; [|exact Hst].
    apply grown_fragment; [exact Hst|].
    apply scalar_within; [exact (@text_item_scalar v Ht)|exact Hv].
Qed.

Lemma visit_grown node st :
  grown_within (scalar_texts node) st (visit node st).
Proof.
  assert (Hself : within (scalar_texts node) node) by (intros f Hf; exact Hf).
  destruct node as [| | | | |items|kvs]; cbn [visit]; try apply grown_refl.
  - apply visit_list_items_grown; [apply within_items; exact Hself|apply grown_refl].
  - apply within_values in Hself.
    apply enqueue_children_grown; [exact Hself|].
    apply visit_keys_grown; [exact Hself|apply grown_refl].
Qed.

Lemma walk_origin budget :
  forall st f,
    In f (walk budget st) ->
    In f (fst st) \/ exists node, In node (snd st) /\ In f (scalar_texts node).
Proof.
  induction budget as [|budget IH]; intros [frs queue] f; cbn [walk fst snd]; [auto|].
  destruct queue as [|node queue]; [auto|].
  intros Hin. apply IH in Hin.
  destruct (visit_grown node (frs, queue)) as [Hf Hq]. cbn [fst snd] in *.
  destruct Hin as [Hin|(q & Hq' & Hin)].
  - destruct (Hf _ Hin) as [H|H]; [left; exact H|].
    right. exists node. split; [left; reflexivity|exact H].
  - destruct (Hq _ Hq') as [H|H].
    + right. exists q. split; [right; exact H|exact Hin].
    + right. exists node. split; [left; reflexivity|]. apply H. exact Hin.
Qed.

(** X17.  The text found in a parsed blob is made of texts that the blob
    holds: it is the stripped join, line by line, of fragments each of which
    is the text of a string, a number or a boolean occurring somewhere in
    the data.  Keys of maps never enter the text. *)
Theorem blob_text_from_leaves data t :
  text_from_data data = Some t ->
  exists fragments,
    t = str_strip (str_join [LF] fragments)
    /\ Forall (fun f => In f (scalar_texts data)) fragments.
Proof.
  unfold text_from_data.
  assert (Hall : Forall (fun f => In f (scalar_texts data)) (walk MAX_SEEN ([], [data]))).
  { apply Forall_forall. intros f Hin. apply walk_origin in Hin.
    destruct Hin as [[]|(node & [<-|[]] & Hin)]. exact Hin. }
  remember (walk MAX_SEEN ([], [data])) as fragments eqn:Hfr. clear Hfr.
  unfold long_enough. destruct (40 <? length (str_strip (str_join [LF] fragments)));
    [|discriminate].
  intros H. injection H as <-. exists fragments. auto.
Qed.

End WalkOrigin.

(** ** One input item *)

Section ProcessOneProperties.

Context {P : Platform}.

Variable clean_transcript : pystr -> outcome pystr.

Lemma process_one_run item vid w :
  extract_video_id item = Some vid ->
  process_one clean_transcript item w =
  match fetch_transcript_text vid w with
  | (Ok raw, w', tr) =>
      match clean_transcript raw with
      | Ok [] => (Raise EMPTY_AFTER_CLEANING, w', tr)
      | Ok cleaned => (Ok (vid, cleaned), w', tr)
      | Raise e => (Raise e, w', tr)
      end
  | (Raise e, w', tr) => (Raise e, w', tr)
  end.
Proof.
  intros Hid. unfold process_one. rewrite Hid.
  destruct (extract_video_id_shape _ Hid) as [Hlen _].
  destruct vid as [|c vid]; [discriminate|]. rewrite bind_run.
  destruct (fetch_transcript_text (c :: vid) w) as [[[raw|e] w'] tr]; [|reflexivity].
  rewrite bind_run. unfold lift.
  destruct (clean_transcript raw) as [[|x cleaned]|e]; cbn; rewrite ?app_nil_r; reflexivity.
Qed.

(** X18.  An item in which no identifier is found fails with a
    [ValueError] before any request is made.  When an item succeeds, the
    identifier returned is the one found in the item, 32 lower-case
    hexadecimal digits; the transcript returned is not empty and is the
    cleaned form of the non-empty text that the discovery call gave for that
    identifier. *)
Theorem process_one_result item w :
  (extract_video_id item = None ->
   process_one clean_transcript item w = (Raise ValueError, w, []))
  /\ (forall vid cleaned w' tr,
        process_one clean_transcript item w = (Ok (vid, cleaned), w', tr) ->
        extract_video_id item = Some vid
        /\ length vid = 32 /\ forallb is_lower_hex vid = true
        /\ nonempty cleaned = true
        /\ exists raw,
             fetch_transcript_text vid w = (Ok raw, w', tr)
             /\ nonempty raw = true
             /\ clean_transcript raw = Ok cleaned).
Proof.
  split.
  - intros Hnone. unfold process_one. rewrite Hnone. reflexivity.
  - intros vid cleaned w' tr.
    destruct (extract_video_id item) as [id|] eqn:Hid;
      [|unfold process_one; rewrite Hid; discriminate].
    rewrite (@process_one_run item id w Hid).
    pose proof (proj1 (fetch_transcript_text_outcomes id w)) as Hout.
    destruct (fetch_transcript_text id w) as [[[raw|e] w1] t1] eqn:Hfetch; [|discriminate].
    cbn in Hout.
    destruct (clean_transcript raw) as [[|x cl]|e] eqn:Hclean; try discriminate.
    intros H. inversion H. subst.
    destruct (extract_video_id_shape _ Hid) as [Hlen Hhex].
    split; [reflexivity|]. split; [exact Hlen|]. split; [exact Hhex|].
    split; [reflexivity|]. exists raw. auto.
Qed.

(** X19.  Handling an item adds no request and no retry to the discovery
    call for its identifier: the requests are those of that one call, at
    most fifteen; an exception of the discovery call or of the cleaner is
    passed on as it is; and a transcript that is empty after cleaning fails
    the item at once, although its error is of a type that the discovery
    call retries. *)
Theorem process_one_requests item vid w :
  extract_video_id item = Some vid ->
  snd (process_one clean_transcript item w) = snd (fetch_transcript_text vid w)
  /\ length (filter is_get (snd (process_one clean_transcript item w))) <= 15
  /\ (forall e w' tr,
        fetch_transcript_text vid w = (Raise e, w', tr) ->
        process_one clean_transcript item w = (Raise e, w', tr))
  /\ (forall raw w' tr,
        fetch_transcript_text vid w = (Ok raw, w', tr) ->
        (forall e, clean_transcript raw = Raise e ->
                   process_one clean_transcript item w = (Raise e, w', tr))
        /\ (clean_transcript raw = Ok [] ->
            process_one clean_transcript item w = (Raise EMPTY_AFTER_CLEANING, w', tr)
            /\ is_retried EMPTY_AFTER_CLEANING = true)).
Proof.
  intros Hid. rewrite (@process_one_run item vid w Hid).
  assert (Htr : snd (match fetch_transcript_text vid w with
                     | (Ok raw, w', tr) =>
                         match clean_transcript raw with
                         | Ok [] => (Raise EMPTY_AFTER_CLEANING, w', tr)
                         | Ok cleaned => (Ok (vid, cleaned), w', tr)
                         | Raise e => (Raise e, w', tr)
                         end
                     | (Raise e, w', tr) => (Raise e, w', tr)
                     end) = snd (fetch_transcript_text vid w)).
  { destruct (fetch_transcript_text vid w) as [[[raw|e] w'] tr]; [|reflexivity].
    destruct (clean_transcript raw) as [[|x cleaned]|e]; reflexivity. }
  split; [exact Htr|]. split; [|split].
  - rewrite Htr.
    destruct (fetch_transcript_text_requests vid w) as (_ & _ & _ & _ & Hg & _).
    exact Hg.
  - intros e w' tr H. rewrite H. reflexivity.
  - intros raw w' tr H. rewrite H. split.
    + intros e He. rewrite He. reflexivity.
    + intros He. rewrite He. split; reflexivity.
Qed.

End ProcessOneProperties.

(** ** The quote repair, the word test and list payloads *)

Section ScraperProperties.

Context {P : Platform}.

Ltac every_char c :=
  destruct c as [[] [] [] [] [] [] [] []]; vm_compute; try reflexivity; try discriminate.

Lemma match_here_quote prev s :
  match_here SINGLE_QUOTE_RE prev s =
  match s with
  | [] => None
  | c :: s' =>
      if negb (escaped prev) && Ascii.eqb SQUOTE c then Some (s', []) else None
  end.
Proof.
  unfold match_here, SINGLE_QUOTE_RE. cbn [re_ast re_ignorecase].
  rewrite run_Seq. cbn [run]. unfold escaped.
  destruct prev as [x|].
  - destruct (Ascii.eqb x BACKSLASH); [destruct s; reflexivity|].
    destruct s as [|c s]; [reflexivity|]. cbn [lit_match negb andb]. unfold chr_eq.
    destruct (Ascii.eqb SQUOTE c); reflexivity.
  - destruct s as [|c s]; [reflexivity|]. cbn [lit_match negb andb]. unfold chr_eq.
    destruct (Ascii.eqb SQUOTE c); reflexivity.
Qed.

Lemma sub_quote s :
  forall prev, sub_from SINGLE_QUOTE_RE [DQUOTE] prev s 0 = coerce_quotes prev s.
Proof.
  induction s as [|c s IH]; intros prev.
  - cbn [sub_from coerce_quotes]. rewrite match_here_quote. reflexivity.
  - rewrite sub_from_0, match_here_quote. cbn [coerce_quotes].
    destruct (negb (escaped prev) && Ascii.eqb SQUOTE c).
    + cbn [length]. replace (S (length s) - length s) with 1 by lia.
      cbn [app]. rewrite IH. reflexivity.
    + rewrite IH. reflexivity.
Qed.

Lemma coerce_prev s :
  forall p q, escaped p = escaped q -> coerce_quotes p s = coerce_quotes q s.
Proof. destruct s as [|c s]; intros p q H; cbn [coerce_quotes]; [reflexivity|]. rewrite H. reflexivity. Qed.

Lemma coerce_idem s :
  forall prev, coerce_quotes prev (coerce_quotes prev s) = coerce_quotes prev s.
Proof.
  induction s as [|c s IH]; intros prev; cbn [coerce_quotes]; [reflexivity|].
  destruct (negb (escaped prev) && Ascii.eqb SQUOTE c) eqn:Hq.
  - apply andb_true_iff in Hq. destruct Hq as [_ Hc]. apply Ascii.eqb_eq in Hc. subst c.
    change (Ascii.eqb SQUOTE DQUOTE) with false. rewrite andb_false_r. f_equal.
    rewrite (@coerce_prev (coerce_quotes (Some SQUOTE) s) (Some DQUOTE) (Some SQUOTE) eq_refl).
    apply IH.
  - rewrite Hq. f_equal. apply IH.
Qed.

Lemma coerce_length s : forall prev, length (coerce_quotes prev s) = length s.
Proof. induction s as [|c s IH]; intros prev; cbn; [reflexivity|]. rewrite IH. reflexivity. Qed.

Lemma coerce_no_quote s :
  ~ In SQUOTE s -> forall prev, coerce_quotes prev s = s.
Proof.
  induction s as [|c s IH]; intros Hno prev; cbn [coerce_quotes]; [reflexivity|].
  destruct (Ascii.eqb SQUOTE c) eqn:Hc.
  - apply Ascii.eqb_eq in Hc. exfalso. apply Hno. left. auto.
  - rewrite andb_false_r, IH; [reflexivity|]. intros H. apply Hno. right. exact H.
Qed.

(** X20.  The quote repair that is tried on a blob the parser rejects turns
    every single quote that no backslash precedes into a double quote and
    changes nothing else: the length is kept, a blob without single quote is
    left as it is, and repairing twice is repairing once. *)
Theorem quote_repair blob :
  re_sub SINGLE_QUOTE_RE [DQUOTE] blob = coerce_quotes None blob
  /\ length (re_sub SINGLE_QUOTE_RE [DQUOTE] blob) = length blob
  /\ (~ In SQUOTE blob -> re_sub SINGLE_QUOTE_RE [DQUOTE] blob = blob)
  /\ re_sub SINGLE_QUOTE_RE [DQUOTE] (re_sub SINGLE_QUOTE_RE [DQUOTE] blob)
     = re_sub SINGLE_QUOTE_RE [DQUOTE] blob.
Proof.
  unfold re_sub. rewrite !sub_quote. split; [reflexivity|]. split; [apply coerce_length|].
  split; [intros H; apply coerce_no_quote; exact H|apply coerce_idem].
Qed.

Lemma word_of_lower c : is_word (lower c) = true -> is_word c = true.
Proof. every_char c. Qed.

Lemma lower_word_chars w :
  forallb is_word (str_lower w) = true -> forallb is_word w = true.
Proof.
  induction w as [|c w IH]; cbn [str_lower map forallb]; [reflexivity|].
  intros H. apply andb_true_iff in H. destruct H as [Hc Hw].
  rewrite (word_of_lower _ Hc). exact (IH Hw).
Qed.

Lemma word_ends w :
  str_lower w = py "transcript" ->
  (exists x rest, w = x :: rest /\ is_word x = true)
  /\ (forall p, exists c, prev_char p w = Some c /\ is_word c = true).
Proof.
  intros Hw. assert (Hall : forallb is_word w = true).
  { apply lower_word_chars. rewrite Hw. reflexivity. }
  destruct w as [|x w]; [discriminate|]. clear Hw. split.
  - cbn [forallb] in Hall. apply andb_true_iff in Hall. exists x, w. tauto.
  - revert x Hall. induction w as [|y w IH]; intros x Hall p.
    + cbn [forallb] in Hall. rewrite andb_true_r in Hall. exists x. auto.
    + rewrite prev_char_cons. cbn [forallb] in Hall. apply andb_true_iff in Hall.
      apply IH. tauto.
Qed.

Lemma word_ast :
  re_ast TRANSCRIPT_WORD_RE = Seq WordB (Seq (Lit (py "transcript")) WordB).
Proof. reflexivity. Qed.

Lemma word_match_sound p s p' s' g :
  matches true (re_ast TRANSCRIPT_WORD_RE) p s [] p' s' g ->
  exists w,
    s = w ++ s' /\ str_lower w = py "transcript"
    /\ match p with Some c => is_word c | None => false end = false
    /\ starts_with_word s' = false.
Proof.
  rewrite word_ast. intros H.
  apply matches_Seq in H. destruct H as (p1 & s1 & g1 & H1 & H).
  cbn [matches] in H1. destruct H1 as (Hb1 & -> & -> & ->).
  apply matches_Seq in H. destruct H as (p2 & s2 & g2 & H2 & H).
  apply matches_Lit_sound in H2. destruct H2 as (w & -> & Hw & -> & ->).
  cbn [matches] in H. destruct H as (Hb2 & -> & -> & ->).
  change (str_lower (py "transcript")) with (py "transcript") in Hw.
  destruct (word_ends _ Hw) as [(x & rest & Hx & Hword) Hlast].
  exists w. split; [reflexivity|]. split; [exact Hw|]. split.
  - subst w. unfold word_boundary in Hb1. cbn [app] in Hb1. rewrite Hword in Hb1.
    destruct (match p with Some c => is_word c | None => false end);
      [discriminate|reflexivity].
  - destruct (Hlast p) as (c & Hc & Hcw).
    unfold word_boundary in Hb2. rewrite Hc, Hcw in Hb2.
    unfold starts_with_word. destruct s2 as [|y s2]; [reflexivity|].
    destruct (is_word y); [discriminate|reflexivity].
Qed.

Lemma word_match_complete p w post :
  str_lower w = py "transcript" ->
  match p with Some c => is_word c | None => false end = false ->
  starts_with_word post = false ->
  exists p', matches true (re_ast TRANSCRIPT_WORD_RE) p (w ++ post) [] p' post [].
Proof.
  intros Hw Hp Hpost. rewrite word_ast.
  destruct (word_ends _ Hw) as [(x & rest & Hx & Hword) Hlast].
  exists (prev_char p w).
  apply matches_Seq. exists p, (w ++ post), []. split.
  - cbn [matches]. repeat split. subst w.
    unfold word_boundary. cbn [app]. rewrite Hp, Hword. reflexivity.
  - apply matches_Seq. exists (prev_char p w), post, []. split.
    + apply matches_Lit_complete. exact Hw.
    + cbn [matches]. repeat split.
      destruct (Hlast p) as (c & Hc & Hcw).
      unfold word_boundary. rewrite Hc, Hcw.
      unfold starts_with_word in Hpost. destruct post as [|y post]; [reflexivity|].
      rewrite Hpost. reflexivity.
Qed.

Lemma word_search s :
  re_search TRANSCRIPT_WORD_RE s <> None <-> standalone_word s.
Proof.
  split.
  - destruct (re_search TRANSCRIPT_WORD_RE s) as [m|] eqn:Hm; [|congruence].
    intros _. unfold re_search in Hm. apply search_from_sound in Hm.
    destruct Hm as (pre & rest & s' & -> & H). apply match_here_sound in H.
    destruct H as [p' H]. apply word_match_sound in H.
    destruct H as (w & -> & Hw & Hpre & Hpost).
    exists pre, w, s'. auto.
  - intros (pre & w & post & -> & Hw & Hpre & Hpost).
    unfold re_search. apply search_from_complete.
    destruct (@word_match_complete (prev_char None pre) w post Hw Hpre Hpost) as [p' H].
    eapply match_here_complete. exact H.
Qed.

(** X21.  The text nodes the page scraper falls back on are the text nodes
    of the page in which the word [transcript], in any case, stands alone:
    no word character touches it on either side. *)
Theorem matching_text_nodes_spec html t :
  In t (matching_text_nodes html) <-> In t (bs_strings html) /\ standalone_word t.
Proof.
  unfold matching_text_nodes. rewrite filter_In, <- word_search.
  destruct (re_search TRANSCRIPT_WORD_RE t); split; intros [Hin H]; split; auto;
    try discriminate; congruence.
Qed.

Lemma collect_strings text_of strs :
  (forall s, text_of (JStr s) = Ok (JStr s)) ->
  forall acc,
    collect_fragments text_of (map JStr strs) acc
    = Ok (acc ++ map JStr (filter nonempty strs)).
Proof.
  intros Ht. induction strs as [|s strs IH]; intros acc; cbn [map collect_fragments filter].
  - rewrite app_nil_r. reflexivity.
  - rewrite Ht, IH. cbn [truthy]. destruct s as [|c s]; cbn [nonempty map].
    + reflexivity.
    + rewrite <- app_assoc. reflexivity.
Qed.

(** X22.  An API body that is a list of strings gives the non-empty
    strings joined by newlines and stripped, or nothing when no string is
    non-empty; and a body that is a list, whatever its items, never fails
    with an [AttributeError]. *)
Theorem list_payload strs items :
  interpret_payload (JList (map JStr strs))
  = Ok (match filter nonempty strs with
        | [] => None
        | l => Some (str_strip (str_join [LF] l))
        end)
  /\ interpret_payload (JList items) <> Raise AttributeError.
Proof.
  split.
  - cbn [interpret_payload]. rewrite collect_strings by (intros s; reflexivity).
    cbn [app fragments_result]. unfold joined_or_none, join_fragments.
    rewrite as_strings_map_JStr. destruct (filter nonempty strs); reflexivity.
  - cbn [interpret_payload]. intros H. apply fragments_result_raise in H.
    destruct H as [H|H]; [|discriminate].
    refine (@collect_raise _ (fun _ => False) items _ [] AttributeError H).
    intros c e. destruct c; discriminate.
Qed.

End ScraperProperties.

(** ** The leftmost token *)

Section LeftmostProperties.

(** The search returns the match that starts first. *)
Lemma search_from_leftmost p s :
  forall prev i m,
    search_from p prev s i = Some m ->
    exists pre rest s',
      s = pre ++ rest
      /\ match_here p (prev_char prev pre) rest = Some (s', m_groups m)
      /\ (forall pre1 rest1,
            s = pre1 ++ rest1 -> length pre1 < length pre ->
            match_here p (prev_char prev pre1) rest1 = None).
Proof.
  induction s as [|x s IH]; intros prev i m; cbn [search_from].
  - destruct (match_here p prev []) as [[s' g]|] eqn:Hm; [|discriminate].
    intros H. inversion H; subst. exists [], [], s'.
    split; [reflexivity|]. split; [exact Hm|]. intros pre1 rest1 _ Hlen. cbn in Hlen. lia.
  - destruct (match_here p prev (x :: s)) as [[s' g]|] eqn:Hm.
    + intros H. inversion H; subst. exists [], (x :: s), s'.
      split; [reflexivity|]. split; [exact Hm|]. intros pre1 rest1 _ Hlen. cbn in Hlen. lia.
    + intros H. destruct (IH _ _ _ H) as (pre & rest & s' & -> & Hrest & Hearlier).
      exists (x :: pre), rest, s'. rewrite prev_char_cons.
      split; [reflexivity|]. split; [exact Hrest|].
      intros pre1 rest1 Hsplit Hlen. destruct pre1 as [|y pre1].
      * cbn [app] in Hsplit. subst rest1. exact Hm.
      * cbn [app] in Hsplit. inversion Hsplit as [[Hy Htail]]. subst y.
        rewrite prev_char_cons.
        apply Hearlier; [exact Htail|cbn [length] in Hlen; lia].
Qed.

Lemma app_same_length (a b c d : pystr) :
  a ++ b = c ++ d -> length a = length c -> a = c /\ b = d.
Proof.
  revert c. induction a as [|x a IH]; intros [|y c] H Hlen; try discriminate.
  - auto.
  - cbn [app] in H. inversion H as [[Hx Hrest]]. cbn [length] in Hlen.
    destruct (IH c Hrest) as [-> ->]; [lia|]. auto.
Qed.

Lemma first_token_found s pre tok m :
  first_standalone_token s pre tok ->
  re_search _LOOM_ID_RE s = Some m -> group 1 m = tok.
Proof.
  intros [(post & Hs & Htok & Hpre & Hpost) Hfirst] Hm.
  unfold re_search in Hm. apply search_from_leftmost in Hm.
  destruct Hm as (pre0 & rest0 & s' & Hs0 & Hhere & Hearlier).
  apply match_here_sound in Hhere. destruct Hhere as [p' Hhere].
  apply id_match_sound in Hhere.
  destruct Hhere as (tok0 & -> & Htok0 & Hg & Hpre0 & Hpost0).
  destruct m as [i text g]. cbn [m_groups] in Hg. subst g. rewrite group_1.
  pose proof (Hfirst pre0 tok0 s' Hs0 Htok0 Hpre0 Hpost0) as Hle.
  assert (Hlen : length pre = length pre0).
  { destruct (Nat.eq_dec (length pre) (length pre0)) as [H|H]; [exact H|].
    exfalso. assert (Hlt : length pre < length pre0) by lia.
    pose proof (Hearlier pre (tok ++ post) Hs Hlt) as Hnone.
    destruct (@id_match_complete (prev_char None pre) tok post Htok Hpre Hpost) as [p1 H1].
    assert (Hsome : match_here _LOOM_ID_RE (prev_char None pre) (tok ++ post) <> None)
      by (eapply match_here_complete; exact H1).
    exact (Hsome Hnone). }
  rewrite Hs in Hs0. apply app_same_length in Hs0; [|exact Hlen].
  destruct Hs0 as [_ Hrest]. apply app_same_length in Hrest.
  - symmetry. tauto.
  - destruct Htok as [-> _]. destruct Htok0 as [-> _]. reflexivity.
Qed.

(** X23.  Which token is taken when the input holds several: with no
    token in the URL position, the identifier is the first token, from the
    left, that stands alone in the stripped input. *)
Theorem extract_video_id_leftmost item pre tok :
  (forall t, ~ url_token item t) ->
  first_standalone_token (str_strip item) pre tok ->
  extract_video_id item = Some (str_lower tok).
Proof.
  intros Hno Hfirst. rewrite extract_video_id_run.
  destruct (re_search _URL_ID_RE (str_strip item)) as [m|] eqn:Hu.
  - exfalso. apply url_search_sound in Hu. apply (proj1 (url_token_strip _ _)) in Hu.
    exact (Hno _ Hu).
  - destruct (re_search _LOOM_ID_RE (str_strip item)) as [m|] eqn:Hi.
    + rewrite (first_token_found Hfirst Hi). reflexivity.
    + exfalso. destruct Hfirst as [(post & Hs & Htok & Hpre & Hpost) _].
      eapply id_search_complete; [|exact Hi].
      exists pre, post. eauto.
Qed.

End LeftmostProperties.

(** ** The discovery engine on mocked exchanges *)

Lemma discovery_order_first_nonempty_witness :
  @fetch_transcript_text Mock.api_and_share Mock.VIDEO 0
    = (Ok (py "from the api"), 1, [Get Mock.API1])
  /\ ~ In (Get Mock.SHARE) [Get Mock.API1].
Proof.
  destruct (@discovery_order_first_nonempty Mock.api_and_share Mock.VIDEO 0)
    as (_ & _ & _ & H).
  destruct (H (py "from the api") 1 [Get Mock.API1]) as (_ & Hcall & Hshare).
  - vm_compute. reflexivity.
  - reflexivity.
  - split; [exact Hcall | exact Hshare].
Defined.


Lemma retry_policy_witness :
  @fetch_transcript_text Mock.late_api Mock.VIDEO 0
  = (Ok (py "hello"), 5,
     [Get Mock.API1; Get Mock.API2; Get Mock.API3; Get Mock.SHARE] ++
     Sleep 1 :: [Get Mock.API1])
  /\ @fetch_transcript_text Mock.odd_captions Mock.VIDEO 0
     = (Raise AttributeError, 1, [Get Mock.API1])
  /\ @fetch_transcript_text Mock.all_404 Mock.VIDEO 0
     = (Raise (LoomError (py "Unavailable: 404")), 12,
        [Get Mock.API1; Get Mock.API2; Get Mock.API3; Get Mock.SHARE] ++
        Sleep 1 :: [Get Mock.API1; Get Mock.API2; Get Mock.API3; Get Mock.SHARE] ++
        Sleep 2 :: [Get Mock.API1; Get Mock.API2; Get Mock.API3; Get Mock.SHARE]).
Proof.
  split; [|split].
  - destruct (@retry_policy Mock.late_api Mock.VIDEO 0) as (_ & _ & _ & H & _).
    destruct (H (LoomError (py "Unavailable: 404")) 4
                [Get Mock.API1; Get Mock.API2; Get Mock.API3; Get Mock.SHARE])
      as (Hok & _).
    + vm_compute. reflexivity.
    + reflexivity.
    + apply Hok. vm_compute. reflexivity.
  - destruct (@retry_policy Mock.odd_captions Mock.VIDEO 0) as (_ & _ & H & _).
    apply H; [vm_compute; reflexivity | reflexivity].
  - destruct (@retry_policy Mock.all_404 Mock.VIDEO 0) as (_ & _ & _ & H & _).
    destruct (H (LoomError (py "Unavailable: 404")) 4
                [Get Mock.API1; Get Mock.API2; Get Mock.API3; Get Mock.SHARE])
      as (_ & _ & Hthird).
    + vm_compute. reflexivity.
    + reflexivity.
    + apply (Hthird (LoomError (py "Unavailable: 404")) 8
                    [Get Mock.API1; Get Mock.API2; Get Mock.API3; Get Mock.SHARE]).
      * vm_compute. reflexivity.
      * reflexivity.
      * vm_compute. reflexivity.
Defined.

(** C3, as claimed, fails: the first endpoint answers [500], and the call
    goes on to the second endpoint and returns its transcript. *)
Lemma api_error_status_not_surfaced :
  @http_get Mock.first_api_500 Mock.API1 0 = (inl (Response 500 []), 1)
  /\ @_try_fetch_json_transcript Mock.first_api_500 Mock.API1 0
     = (Ok None, 1, [Get Mock.API1])
  /\ @fetch_transcript_text Mock.first_api_500 Mock.VIDEO 0
     = (Ok (py "hello"), 2, [Get Mock.API1; Get Mock.API2]).
Proof. vm_compute. repeat split. Qed.

Lemma api_endpoint_errors_are_skipped_witness :
  @_try_fetch_json_transcript Mock.first_api_500 Mock.API1 0
  = (Ok None, 1, [Get Mock.API1]).
Proof.
  destruct (@api_endpoint_errors_are_skipped Mock.first_api_500 Mock.API1 0)
    as (H & _).
  apply (H (Response 500 []) 1).
  - reflexivity.
  - right. cbn. lia.
Defined.

(** C4, as claimed, fails: the share page answers [403] and the pass raises
    at once; the embed page, which has the transcript, is never requested,
    neither in that pass nor by the retried call. *)
Lemma share_403_skips_embed :
  @fetch_transcript_text_once Mock.share_403 Mock.VIDEO 0
  = (Raise (LoomError (py "Unavailable: 403")), 4,
     [Get Mock.API1; Get Mock.API2; Get Mock.API3; Get Mock.SHARE])
  /\ @page_strategy Mock.share_403 Mock.EMBED 4
     = (Ok (Some (py "from the embed page, a text that is long enough to count")), 5,
        [Get Mock.EMBED])
  /\ fst (fst (@fetch_transcript_text Mock.share_403 Mock.VIDEO 0))
     = Raise (LoomError (py "Unavailable: 403"))
  /\ existsb (fun ev => match ev with Get url => str_eqb url Mock.EMBED | _ => false end)
             (snd (@fetch_transcript_text Mock.share_403 Mock.VIDEO 0)) = false.
Proof. vm_compute. repeat split. Qed.

Lemma share_page_unavailable_ends_pass_witness :
  @fetch_transcript_text_once Mock.share_403 Mock.VIDEO 0
  = (Raise (LoomError (py "Unavailable: 403")), 4,
     [Get Mock.API1; Get Mock.API2; Get Mock.API3] ++ [Get Mock.SHARE]).
Proof.
  apply (@share_page_unavailable_ends_pass Mock.share_403 Mock.VIDEO 0 3
           [Get Mock.API1; Get Mock.API2; Get Mock.API3] (Response 403 []) 4).
  - vm_compute. reflexivity.
  - vm_compute. reflexivity.
  - right. left. reflexivity.
Defined.

(** ** The payload interpreter on concrete payloads *)

(** C8, as claimed, fails: the joined text is stripped, and a string under
    ["transcript"] takes precedence over the captions. *)
Lemma captions_not_plain_join :
  (@interpret_payload Mock.all_404 Mock.padded_caption = Ok (Some (py "hello"))
   /\ str_join [LF] (caption_texts [JDict [(py "text", JStr (py " hello "))]])
      = py " hello ")
  /\ (@interpret_payload Mock.all_404 Mock.transcript_and_captions = Ok (Some (py "t"))
      /\ str_join [LF] (caption_texts [JDict [(py "text", JStr (py "hello"))]])
         = py "hello").
Proof. vm_compute. repeat split. Qed.

Lemma captions_joined_and_stripped_witness :
  @interpret_payload Mock.all_404 Mock.hello_world
  = Ok (Some (py "hello" ++ [LF] ++ py "world")).
Proof.
  apply (@captions_joined_and_stripped Mock.all_404
           [(py "captions",
             JList [JDict [(py "text", JStr (py "hello"))];
                    JDict [(py "caption", JStr (py "world"))]])]
           [JDict [(py "text", JStr (py "hello"))];
            JDict [(py "caption", JStr (py "world"))]]).
  - intros t. vm_compute. discriminate.
  - reflexivity.
  - repeat constructor.
    + eexists. split; [reflexivity|]. split.
      * right. eexists. reflexivity.
      * left. reflexivity.
    + eexists. split; [reflexivity|]. split.
      * left. reflexivity.
      * right. eexists. reflexivity.
Defined.

Lemma blob_text_threshold_witness :
  @_extract_text_from_json_blob Mock.two_blobs (py "nested") = Some Mock.LONG_TEXT
  /\ @_extract_text_from_json_blob Mock.two_blobs (py "short") = None.
Proof.
  split.
  - destruct (@blob_text_threshold Mock.two_blobs (py "nested") Mock.nested_transcript)
      as (_ & _ & H & _); [left; reflexivity|].
    apply H. reflexivity.
  - destruct (@blob_text_threshold Mock.two_blobs (py "short") Mock.short_value)
      as (_ & _ & _ & H); [left; reflexivity|].
    apply H. reflexivity.
Defined.

(** C10, as claimed, fails for a list: after the visit of
    [{"captions": [{"text": ...}]}] the queue holds the item and then the list, the
    list once. *)
Lemma list_under_priority_key_enqueued_once :
  visit Mock.captions_with_long_text ([], [])
  = ([], [Mock.long_caption; JList [Mock.long_caption]]).
Proof. vm_compute. reflexivity. Qed.

(** ** The extractor on concrete strings *)

Lemma extract_video_id_spec_witness :
  exists tok,
    url_token (py "  https://www.loom.com/share/ABCDEF0123456789abcdef0123456789?x=1 ") tok
    /\ extract_video_id
         (py "  https://www.loom.com/share/ABCDEF0123456789abcdef0123456789?x=1 ")
       = Some (str_lower tok).
Proof.
  apply (proj1 (extract_video_id_spec
                  (py "  https://www.loom.com/share/ABCDEF0123456789abcdef0123456789?x=1 "))).
  exists (py "ABCDEF0123456789abcdef0123456789").
  exists (py "  https://www."), (py "loom.com/"), (py "share"), (py "?x=1 ").
  split; [reflexivity|]. split; [reflexivity|]. split; [left; reflexivity|].
  split; reflexivity.
Defined.

(** ** More of the extractor on concrete strings *)

Lemma extract_video_id_padding_witness :
  extract_video_id
    ([LF] ++ py "https://loom.com/embed/abcdef0123456789abcdef0123456789" ++ py "  ")
  = extract_video_id (py "https://loom.com/embed/abcdef0123456789abcdef0123456789").
Proof.
  apply (@extract_video_id_padding [LF]
           (py "https://loom.com/embed/abcdef0123456789abcdef0123456789") (py "  "));
    reflexivity.
Defined.

Lemma extract_video_id_raw_token_witness :
  extract_video_id (py "ABCDEF0123456789abcdef0123456789")
  = Some (py "abcdef0123456789abcdef0123456789").
Proof.
  apply (proj1 extract_video_id_raw_token (py "ABCDEF0123456789abcdef0123456789")).
  split; reflexivity.
Defined.

Lemma extract_video_id_of_page_urls_witness :
  extract_video_id (share_url (py "ABCDEF0123456789abcdef0123456789") ++ py "?t=12")
  = Some (py "abcdef0123456789abcdef0123456789")
  /\ extract_video_id (embed_url (py "ABCDEF0123456789abcdef0123456789") ++ py "?t=12")
     = Some (py "abcdef0123456789abcdef0123456789").
Proof.
  apply (@extract_video_id_of_page_urls (py "ABCDEF0123456789abcdef0123456789") (py "?t=12")).
  split; reflexivity.
Defined.

(** ** The timestamp test on a concrete token *)

Lemma is_probably_timestamp_shape_witness :
  4 <= length (py "01:02:03,456") <= 12
  /\ (forall c, In c (py "01:02:03,456") ->
                is_digit c = true \/ c = ":"%char \/ c = ","%char).
Proof. apply (@is_probably_timestamp_shape (py "01:02:03,456")). reflexivity. Defined.

(** ** The brace scan on a concrete script *)

Lemma json_like_strings_are_blocks_witness :
  exists pre body post,
    py "var x = {a: {b: 1}, c: 2}; f()" = pre ++ py "{a: {b: 1}, c: 2}" ++ post
    /\ py "{a: {b: 1}, c: 2}" = "{"%char :: body ++ ["}"%char]
    /\ balanced body.
Proof.
  apply (@json_like_strings_are_blocks
           (py "var x = {a: {b: 1}, c: 2}; f()") (py "{a: {b: 1}, c: 2}")).
  vm_compute. left. reflexivity.
Defined.

Lemma json_like_strings_scan_witness :
  _extract_json_like_strings (py "x = ") = []
  /\ _extract_json_like_strings (py "x = " ++ "{"%char :: py "a: {}" ++ "}"%char :: py "; {")
     = ("{"%char :: py "a: {}" ++ ["}"%char]) :: _extract_json_like_strings (py "; {")
  /\ _extract_json_like_strings (py "x = " ++ "{"%char :: py "a: {}") = [].
Proof.
  destruct (@json_like_strings_scan (py "x = ") (py "a: {}") (py "; {") eq_refl)
    as (H1 & H2 & H3).
  split; [exact H1|]. split; [apply H2; reflexivity|apply (H3 0); reflexivity].
Defined.

(** ** The payload interpreter on payloads that make it fail *)

Lemma captions_payload_errors_witness :
  (@interpret_payload Mock.all_404
     (JDict [(py "captions", JList [JDict [(py "text", JInt 5)]])]) = Raise AttributeError
   <-> Exists (fun c => is_dict c = false) [JDict [(py "text", JInt 5)]])
  /\ (@interpret_payload Mock.all_404
        (JDict [(py "captions", JList [JDict [(py "text", JInt 5)]])]) = Raise TypeError
      <-> Forall (fun c => is_dict c = true) [JDict [(py "text", JInt 5)]]
          /\ Exists odd_caption [JDict [(py "text", JInt 5)]])
  /\ (forall e,
        @interpret_payload Mock.all_404
          (JDict [(py "captions", JList [JDict [(py "text", JInt 5)]])]) = Raise e ->
        e = AttributeError \/ e = TypeError).
Proof.
  apply (@captions_payload_errors Mock.all_404
           [(py "captions", JList [JDict [(py "text", JInt 5)]])]
           [JDict [(py "text", JInt 5)]]).
  - intros t. vm_compute. discriminate.
  - reflexivity.
Defined.

Lemma payload_error_aborts_discovery_witness :
  @fetch_transcript_text Mock.odd_captions Mock.VIDEO 0
  = (Raise AttributeError, 1, [Get (hd [] (api_urls Mock.VIDEO))]).
Proof.
  apply (@payload_error_aborts_discovery Mock.odd_captions Mock.VIDEO 0
           (Response 200 (py "api")) 1
           (JDict [(py "captions", JList [JInt 1])]) AttributeError).
  - reflexivity.
  - left. cbn. lia.
  - reflexivity.
  - reflexivity.
Defined.

(** ** The page scraper on a concrete page *)

Lemma share_page_text_witness :
  40 < length (py "from the share page, a text that is long enough to count")
  /\ nonempty (py "from the share page, a text that is long enough to count") = true
  /\ ((exists script blob,
          In script (@bs_scripts Mock.api_and_share (py "<html>"))
          /\ mentions_transcript script = true
          /\ In blob (_extract_json_like_strings script)
          /\ @_extract_text_from_json_blob Mock.api_and_share blob
             = Some (py "from the share page, a text that is long enough to count")
          /\ stripped (py "from the share page, a text that is long enough to count"))
      \/ (In (py "from the share page, a text that is long enough to count")
             (@bs_strings Mock.api_and_share (py "<html>"))
          /\ re_search TRANSCRIPT_WORD_RE
               (py "from the share page, a text that is long enough to count") <> None)).
Proof.
  apply (@share_page_text Mock.api_and_share (py "<html>")
           (py "from the share page, a text that is long enough to count")).
  vm_compute. reflexivity.
Defined.

(** ** The walk on a concrete blob *)

Lemma blob_text_from_leaves_witness :
  exists fragments,
    Mock.LONG_TEXT = str_strip (str_join [LF] fragments)
    /\ Forall (fun f => In f (scalar_texts Mock.nested_transcript)) fragments.
Proof.
  apply (@blob_text_from_leaves Mock.nested_transcript Mock.LONG_TEXT).
  vm_compute. reflexivity.
Defined.

(** ** One input item on mocked exchanges *)

Lemma process_one_result_witness :
  @process_one Mock.all_404 (fun raw => Ok raw) (py "not a recording") 0
  = (Raise ValueError, 0, [])
  /\ (extract_video_id (py "https://www.loom.com/share/ABCDEF0123456789abcdef0123456789")
      = Some Mock.VIDEO
      /\ length Mock.VIDEO = 32 /\ forallb is_lower_hex Mock.VIDEO = true
      /\ nonempty (py "from the api") = true
      /\ exists raw,
           @fetch_transcript_text Mock.api_and_share Mock.VIDEO 0
           = (Ok raw, 1, [Get Mock.API1])
           /\ nonempty raw = true
           /\ Ok raw = Ok (py "from the api")).
Proof.
  split.
  - apply (proj1 (@process_one_result Mock.all_404 (fun raw => Ok raw)
                    (py "not a recording") 0)).
    reflexivity.
  - apply (proj2 (@process_one_result Mock.api_and_share (fun raw => Ok raw)
                    (py "https://www.loom.com/share/ABCDEF0123456789abcdef0123456789") 0)
                 Mock.VIDEO (py "from the api") 1 [Get Mock.API1]).
    vm_compute. reflexivity.
Defined.

Lemma process_one_requests_witness :
  snd (@process_one Mock.api_and_share (fun _ => Ok []) Mock.VIDEO 0)
  = snd (@fetch_transcript_text Mock.api_and_share Mock.VIDEO 0)
  /\ @process_one Mock.api_and_share (fun _ => Ok []) Mock.VIDEO 0
     = (Raise EMPTY_AFTER_CLEANING, 1, [Get Mock.API1]).
Proof.
  destruct (@process_one_requests Mock.api_and_share (fun _ => Ok []) Mock.VIDEO
              Mock.VIDEO 0 eq_refl) as (H1 & _ & _ & H4).
  split; [exact H1|].
  destruct (H4 (py "from the api") 1 [Get Mock.API1] eq_refl) as [_ H5].
  exact (proj1 (H5 eq_refl)).
Defined.

(** ** The leftmost token of a concrete input *)

Lemma extract_video_id_leftmost_witness :
  extract_video_id
    (py "x aaaaaaaaaaaaaaaaaaaaaaaaaaaaaaaa BBBBBBBBBBBBBBBBBBBBBBBBBBBBBBBB")
  = Some (str_lower (py "aaaaaaaaaaaaaaaaaaaaaaaaaaaaaaaa")).
Proof.
  apply (@extract_video_id_leftmost
           (py "x aaaaaaaaaaaaaaaaaaaaaaaaaaaaaaaa BBBBBBBBBBBBBBBBBBBBBBBBBBBBBBBB")
           (py "x ") (py "aaaaaaaaaaaaaaaaaaaaaaaaaaaaaaaa")).
  - intros t Ht. apply url_search_complete in Ht. apply Ht. vm_compute. reflexivity.
  - split.
    + exists (py " BBBBBBBBBBBBBBBBBBBBBBBBBBBBBBBB").
      split; [reflexivity|]. split; [split; reflexivity|]. split; reflexivity.
    + intros pre' tok' post' Hs Htok _ _.
      destruct (token_head Htok) as (c & rest & Hc & Hhex). subst tok'.
      destruct pre' as [|a [|b pre']]; [| |cbn; lia].
      * vm_compute in Hs. inversion Hs. subst c. discriminate Hhex.
      * vm_compute in Hs. inversion Hs. subst c. discriminate Hhex.
Defined.
